(** * ReliefChain backend: the priority function and the max-heap queue

    A shallow embedding of

    - [utils/priorityCalculator.js]  (function [calculatePriority]),
    - [models/ReliefRequest.js]      (schema method [calculatePriority]),
    - [services/priorityQueue.service.js] (class [MaxHeapPriorityQueue]),
    - [services/priorityQueue.js]    (class [MaxHeap]),

    followed by the properties of the design document that concern them.

    Conventions of the embedding.

    - JavaScript numbers that are array positions are integers [Z]; the
      source computes [Math.floor((index - 1) / 2)], which is [-1] at the
      root, and [Z] keeps that value.
    - Scores are JavaScript doubles in the source.  For the queue, where
      the order of the scores is what matters, they are idealised as exact
      rationals [Q]: [NaN], infinities and binary rounding error are
      outside that model.  All comparisons are the source's comparisons.
    - The arithmetic of [calculatePriority] is embedded a second time, in
      module [Binary64], as the source evaluates it: a finite double is
      the rational it denotes, and every operation returns the exact
      result rounded to the nearest double, a tie going to the even
      significand (IEEE 754 binary64, round to nearest even).  [NaN],
      infinities, results beyond the largest finite double and the sign
      of zero are outside this model too.  The value that
      [calculatePriority] returns after a wait (C2, X16) is stated on
      [Binary64]; the two embeddings differ by at most a hundredth
      (lemma [calculatePriority_idealised]) and agree on fresh requests
      (lemma [calculatePriority_fresh_in_doubles]).
    - [new Date()] is an input: every operation that reads the clock takes
      the reading [now] (milliseconds since the epoch) as an argument, one
      reading per operation.  [createdAt] is a valid date, in milliseconds.
    - The heap array holds request objects only.  A run in which the source
      would store [undefined] in the array leaves the model and is reported
      as [Beyond ArrayHole]; a run in which the source dereferences
      [undefined] is the exception [Throw TypeError].
    - Objects are values: every call of [insert] receives its own object.
    - [syncToRedis] is an asynchronous mirror write that never changes the
      heap or the index and swallows its own errors; it is left out. *)

From Stdlib Require Import ZArith QArith Qround Qminmax Qabs Qpower Lqa Lia Sorted.
From Stdlib Require Import SpecFloat.
From stdpp Require Import gmap strings list.

Local Open Scope Z_scope.

(** ** Outcomes of a call *)

Inductive exn : Type :=
| TypeError.

Inductive limit : Type :=
| ArrayHole   (* the array would now hold [undefined] *)
| LoopBound   (* the iteration bound of a modelled [while] ran out *)
| NoBody.     (* a method of the class whose body is not embedded *)

Inductive outcome (A : Type) : Type :=
| Ret (a : A)
| Throw (e : exn)
| Beyond (w : limit).

Arguments Ret {A} a.
Arguments Throw {A} e.
Arguments Beyond {A} w.

#[global] Instance outcome_ret : MRet outcome := fun A a => Ret a.

#[global] Instance outcome_bind : MBind outcome := fun A B f c =>
  match c with
  | Ret a => f a
  | Throw e => Throw e
  | Beyond w => Beyond w
  end.

#[global] Instance outcome_fmap : FMap outcome := fun A B f c =>
  match c with
  | Ret a => Ret (f a)
  | Throw e => Throw e
  | Beyond w => Beyond w
  end.

(** Reading a property of a value that may be [undefined]. *)
Definition deref {A : Type} (v : option A) : outcome A :=
  match v with
  | Some a => Ret a
  | None => Throw TypeError
  end.

(** ** Requests *)

Record Entry : Type := mkEntry {
  _id : string;
  vulnerabilityScore : Q;
  medicalUrgencyScore : Q;
  createdAt : Z;          (* milliseconds since the epoch *)
  priorityScore : Q;
  payload : string        (* name, location, aidType, status, ...: opaque *)
}.

Definition set_priorityScore (r : Entry) (s : Q) : Entry :=
  {| _id := _id r;
     vulnerabilityScore := vulnerabilityScore r;
     medicalUrgencyScore := medicalUrgencyScore r;
     createdAt := createdAt r;
     priorityScore := s;
     payload := payload r |}.

(** What a method hands back where the source returns a request, [null]
    or (by reading outside the array) [undefined]. *)
Inductive value : Type :=
| Null
| Undefined
| Obj (r : Entry).

Definition of_option (v : option Entry) : value :=
  match v with
  | Some r => Obj r
  | None => Undefined
  end.

(** A partial object, as the second argument of [updatePriority]. *)
Record Partial : Type := mkPartial {
  p_id : option string;
  p_vulnerabilityScore : option Q;
  p_medicalUrgencyScore : option Q;
  p_createdAt : option Z;
  p_priorityScore : option Q;
  p_payload : option string
}.

(** [{ ...r, ...p }] *)
Definition spread (r : Entry) (p : Partial) : Entry :=
  {| _id := default (_id r) (p_id p);
     vulnerabilityScore := default (vulnerabilityScore r) (p_vulnerabilityScore p);
     medicalUrgencyScore := default (medicalUrgencyScore r) (p_medicalUrgencyScore p);
     createdAt := default (createdAt r) (p_createdAt p);
     priorityScore := default (priorityScore r) (p_priorityScore p);
     payload := default (payload r) (p_payload p) |}.

(** ** Numbers *)

(** [a < b] on scores. *)
Definition Qltb (a b : Q) : bool := negb (Qle_bool b a).

(** [Math.round]: the nearest integer, halves towards plus infinity. *)
Definition Math_round (x : Q) : Q := inject_Z (Qfloor (x + (1 # 2))%Q).

(** ** utils/priorityCalculator.js *)

Module WEIGHTS.
Definition VULNERABILITY : Q := 5%Q.
Definition MEDICAL_URGENCY : Q := 10%Q.
Definition WAITING_TIME : Q := (1 # 10)%Q.
End WEIGHTS.

(** [calculatePriority] in exact arithmetic: the score by which the queue
    orders its entries.  The value that the source returns, with the
    roundings of double arithmetic, is [Binary64.calculatePriority] below. *)
Definition calculatePriority (now : Z) (vulnerabilityScore medicalUrgencyScore : Q)
    (createdAt : Z) : Q :=
  let createdTime := createdAt in
  let waitingTimeMs := inject_Z (now - createdTime) in
  let waitingTimeMinutes := Qmax 0 (waitingTimeMs / 60000)%Q in
  let priorityScore :=
    ((vulnerabilityScore * WEIGHTS.VULNERABILITY) +
     (medicalUrgencyScore * WEIGHTS.MEDICAL_URGENCY) +
     (waitingTimeMinutes * WEIGHTS.WAITING_TIME))%Q in
  (Math_round (priorityScore * 100) / 100)%Q.

(** ** utils/priorityCalculator.js in double arithmetic *)

Module Binary64.

(** [2^k], for any integer [k]. *)
Definition pow2 (k : Z) : Q := (2 ^ k)%Q.

(** The binary exponent of a positive rational: the [e] with
    [2^e <= x < 2^(e+1)]. *)
Definition exponent (x : Q) : Z :=
  let e := Z.log2 (Qnum x) - Z.log2 (Zpos (Qden x)) in
  if Qle_bool (pow2 e) x then e else e - 1.

(** The nearest integer, a tie going to the even one. *)
Definition nearest_even (m : Q) : Z :=
  let f := Qfloor m in
  match (m - inject_Z f ?= 1 # 2)%Q with
  | Lt => f
  | Gt => f + 1
  | Eq => if Z.even f then f else f + 1
  end.

(** The spacing of the doubles around [x]: 53 significant bits, and the
    spacing [2^-1074] of the subnormal doubles below [2^-1022]. *)
Definition ulp (x : Q) : Q := pow2 (Z.max (exponent (Qabs x)) (-1022) - 52).

(** The double nearest to [x]. *)
Definition round (x : Q) : Q :=
  let x := Qred x in
  if Qeq_bool x 0 then 0%Q
  else Qred (inject_Z (nearest_even (x / ulp x)) * ulp x).

(** The operators [+], [-], [*] and [/] on doubles. *)
Definition add (a b : Q) : Q := round (a + b).
Definition sub (a b : Q) : Q := round (a - b).
Definition mul (a b : Q) : Q := round (a * b).
Definition div (a b : Q) : Q := round (a / b).

(** The literals [5], [10] and [0.1]; the last one is not a double and
    denotes the nearest one. *)
Module WEIGHTS.
Definition VULNERABILITY : Q := 5%Q.
Definition MEDICAL_URGENCY : Q := 10%Q.
Definition WAITING_TIME : Q := round (1 # 10).
End WEIGHTS.

(** [now] and [createdAt] are the time values of the two dates, whole
    milliseconds; the two scores are doubles, which are among the
    rationals.  [Math.max] and [Math.round] are exact on doubles. *)
Definition calculatePriority (now : Z) (vulnerabilityScore medicalUrgencyScore : Q)
    (createdAt : Z) : Q :=
  let createdTime := inject_Z createdAt in
  let waitingTimeMs := sub (inject_Z now) createdTime in
  let waitingTimeMinutes := Qmax 0 (div waitingTimeMs 60000) in
  let priorityScore :=
    add (add (mul vulnerabilityScore WEIGHTS.VULNERABILITY)
             (mul medicalUrgencyScore WEIGHTS.MEDICAL_URGENCY))
        (mul waitingTimeMinutes WEIGHTS.WAITING_TIME) in
  div (Math_round (mul priorityScore 100)) 100.

End Binary64.

(** ** models/ReliefRequest.js: the schema method *)

Module ReliefRequest.

Definition calculatePriority (now : Z) (this : Entry) : Entry :=
  let waitingTimeMs := inject_Z (now - createdAt this) in
  let waitingTimeMinutes := (waitingTimeMs / 60000)%Q in
  let W1 : Q := 5%Q in
  let W2 : Q := 10%Q in
  let W3 : Q := (1 # 10)%Q in
  set_priorityScore this
    ((vulnerabilityScore this * W1) +
     (medicalUrgencyScore this * W2) +
     (waitingTimeMinutes * W3))%Q.

End ReliefRequest.

(** ** JavaScript arrays of requests, read and written at integer positions *)

(** [a[i]]: [None] is [undefined]. *)
Definition at_index (a : list Entry) (i : Z) : option Entry :=
  if decide (0 <= i) then a !! Z.to_nat i else None.

(** [a[i] = x] for a position inside the array. *)
Definition store (a : list Entry) (i : Z) (x : Entry) : list Entry :=
  <[Z.to_nat i := x]> a.

(** [a.length] *)
Definition len (a : list Entry) : Z := Z.of_nat (length a).

(** The array after [a.pop()]: without its last element; an empty array
    stays empty. *)
Definition pop (a : list Entry) : list Entry := removelast a.

(** [a.sort(compare)] returns the elements in the one order the language
    fixes for a consistent [compare]: sorted, equal elements in their
    original order.  It is computed here by stable insertion;
    [compare x y > 0] puts [y] before [x]. *)
Fixpoint sort_insert (compare : Entry → Entry → Q) (x : Entry)
    (sorted : list Entry) : list Entry :=
  match sorted with
  | [] => [x]
  | y :: rest =>
      if Qltb 0 (compare x y) then y :: sort_insert compare x rest
      else x :: y :: rest
  end.

Definition Array_sort (compare : Entry → Entry → Q) (a : list Entry) : list Entry :=
  foldr (sort_insert compare) [] a.

(** ** services/priorityQueue.service.js: class MaxHeapPriorityQueue *)

Module MaxHeapPriorityQueue.

Record t : Type := mk {
  heap : list Entry;
  requestMap : gmap string Z
}.

(** [constructor()] *)
Definition new : t := {| heap := []; requestMap := ∅ |}.

Definition getParentIndex (index : Z) : Z := (index - 1) / 2.

Definition getLeftChildIndex (index : Z) : Z := 2 * index + 1.

Definition getRightChildIndex (index : Z) : Z := 2 * index + 2.

Definition hasParent (index : Z) : bool := bool_decide (0 <= getParentIndex index).

Definition hasLeftChild (this : t) (index : Z) : bool :=
  bool_decide (getLeftChildIndex index < len (heap this)).

Definition hasRightChild (this : t) (index : Z) : bool :=
  bool_decide (getRightChildIndex index < len (heap this)).

Definition parent (this : t) (index : Z) : option Entry :=
  at_index (heap this) (getParentIndex index).

Definition leftChild (this : t) (index : Z) : option Entry :=
  at_index (heap this) (getLeftChildIndex index).

Definition rightChild (this : t) (index : Z) : option Entry :=
  at_index (heap this) (getRightChildIndex index).

(** [swap]: with both positions inside the array the two cells are
    exchanged; otherwise the source writes [undefined] into the array. *)
Definition swap (this : t) (index1 index2 : Z) : outcome t :=
  match at_index (heap this) index1, at_index (heap this) index2 with
  | Some temp, Some other =>
      Ret {| heap := store (store (heap this) index1 other) index2 temp;
             requestMap := requestMap this |}
  | _, _ => Beyond ArrayHole
  end.

Definition updateMapIndices (this : t) (index1 index2 : Z) : t :=
  let m1 :=
    match at_index (heap this) index1 with
    | Some r => <[_id r := index1]> (requestMap this)
    | None => requestMap this
    end in
  let m2 :=
    match at_index (heap this) index2 with
    | Some r => <[_id r := index2]> m1
    | None => m1
    end in
  {| heap := heap this; requestMap := m2 |}.

(** The [while] of [bubbleUp]; each turn strictly lowers [index]. *)
Fixpoint bubbleUp_loop (fuel : nat) (this : t) (index : Z) : outcome t :=
  match fuel with
  | O => Beyond LoopBound
  | S fuel =>
      if hasParent index then
        p ← deref (parent this index);
        c ← deref (at_index (heap this) index);
        if Qltb (priorityScore p) (priorityScore c) then
          let parentIndex := getParentIndex index in
          this1 ← swap this parentIndex index;
          let this2 := updateMapIndices this1 parentIndex index in
          bubbleUp_loop fuel this2 parentIndex
        else Ret this
      else Ret this
  end.

Definition bubbleUp (this : t) (index : Z) : outcome t :=
  bubbleUp_loop (S (Z.to_nat index)) this index.

(** The [while] of [sinkDown]; each turn strictly raises [index]. *)
Fixpoint sinkDown_loop (fuel : nat) (this : t) (index : Z) : outcome t :=
  match fuel with
  | O => Beyond LoopBound
  | S fuel =>
      if hasLeftChild this index then
        let largerChildIndex := getLeftChildIndex index in
        right_is_larger ←
          (if hasRightChild this index then
             r ← deref (rightChild this index);
             l ← deref (leftChild this index);
             Ret (Qltb (priorityScore l) (priorityScore r))
           else Ret false);
        let largerChildIndex :=
          if (right_is_larger : bool) then getRightChildIndex index
          else largerChildIndex in
        c ← deref (at_index (heap this) index);
        d ← deref (at_index (heap this) largerChildIndex);
        if Qle_bool (priorityScore d) (priorityScore c) then Ret this
        else
          this1 ← swap this index largerChildIndex;
          let this2 := updateMapIndices this1 index largerChildIndex in
          sinkDown_loop fuel this2 largerChildIndex
      else Ret this
  end.

Definition sinkDown (this : t) (index : Z) : outcome t :=
  sinkDown_loop (S (length (heap this))) this index.

(** [insert(request)]: the score is written into the request, which is
    pushed, indexed and sifted up; the request is returned. *)
Definition insert (now : Z) (this : t) (request : Entry) : outcome (Entry * t) :=
  let request :=
    set_priorityScore request
      (calculatePriority now (vulnerabilityScore request)
         (medicalUrgencyScore request) (createdAt request)) in
  let heap1 := heap this ++ [request] in
  let this1 :=
    {| heap := heap1;
       requestMap := <[_id request := len heap1 - 1]> (requestMap this) |} in
  this2 ← bubbleUp this1 (len heap1 - 1);
  Ret (request, this2).

Definition extractMax (this : t) : outcome (value * t) :=
  if decide (len (heap this) = 0) then Ret (Null, this)
  else if decide (len (heap this) = 1) then
    max ← deref (last (heap this));
    Ret (Obj max,
         {| heap := pop (heap this);
            requestMap := delete (_id max) (requestMap this) |})
  else
    max ← deref (at_index (heap this) 0);
    match last (heap this) with
    | None => Beyond ArrayHole
    | Some moved =>
        let heap1 := store (pop (heap this)) 0 moved in
        let map1 := delete (_id max) (requestMap this) in
        if decide (len heap1 > 0) then
          root ← deref (at_index heap1 0);
          this2 ← sinkDown
                    {| heap := heap1; requestMap := <[_id root := 0]> map1 |} 0;
          Ret (Obj max, this2)
        else Ret (Obj max, {| heap := heap1; requestMap := map1 |})
    end.

Definition peek (this : t) : value :=
  if decide (len (heap this) > 0) then of_option (at_index (heap this) 0)
  else Null.

Definition size (this : t) : Z := len (heap this).

Definition isEmpty (this : t) : bool := bool_decide (len (heap this) = 0).

(** The [for] of [buildHeap]: [sinkDown(i)] for [i = count - 1] down to [0]. *)
Fixpoint buildHeap_sift (count : nat) (this : t) : outcome t :=
  match count with
  | O => Ret this
  | S i =>
      this1 ← sinkDown this (Z.of_nat i);
      buildHeap_sift i this1
  end.

(** The [forEach] of [buildHeap], from position [index] on. *)
Fixpoint buildHeap_index (requests : list Entry) (index : Z)
    (m : gmap string Z) : gmap string Z :=
  match requests with
  | [] => m
  | request :: rest => buildHeap_index rest (index + 1) (<[_id request := index]> m)
  end.

Definition buildHeap (this : t) : outcome t :=
  this1 ← buildHeap_sift (Z.to_nat (len (heap this) / 2 - 1 + 1)) this;
  Ret {| heap := heap this1;
         requestMap := buildHeap_index (heap this1) 0 (requestMap this1) |}.

Definition rescore (now : Z) (r : Entry) : Entry :=
  set_priorityScore r
    (calculatePriority now (vulnerabilityScore r) (medicalUrgencyScore r)
       (createdAt r)).

Definition recalculateAllPriorities (now : Z) (this : t) : outcome t :=
  buildHeap {| heap := rescore now <$> heap this; requestMap := requestMap this |}.

Definition removeById (this : t) (requestId : string) : outcome (value * t) :=
  match requestMap this !! requestId with
  | None => Ret (Null, this)
  | Some index =>
      let request := at_index (heap this) index in
      let lastIndex := len (heap this) - 1 in
      this1 ← (if decide (index ≠ lastIndex) then swap this index lastIndex
               else Ret this);
      let this2 :=
        {| heap := pop (heap this1);
           requestMap := delete requestId (requestMap this1) |} in
      this3 ← (if decide (index < len (heap this2)) then
                 s ← sinkDown this2 index; bubbleUp s index
               else Ret this2);
      Ret (of_option request, this3)
  end.

Definition updatePriority (now : Z) (this : t) (requestId : string)
    (newRequest : Partial) : outcome (value * t) :=
  match requestMap this !! requestId with
  | None => Ret (Null, this)
  | Some index =>
      old ← deref (at_index (heap this) index);
      let oldPriority := priorityScore old in
      let merged := spread old newRequest in
      let updated :=
        set_priorityScore merged
          (calculatePriority now (vulnerabilityScore merged)
             (medicalUrgencyScore merged) (createdAt merged)) in
      let this1 :=
        {| heap := store (heap this) index updated;
           requestMap := requestMap this |} in
      this2 ← (if Qltb oldPriority (priorityScore updated)
               then bubbleUp this1 index else sinkDown this1 index);
      Ret (of_option (at_index (heap this2) index), this2)
  end.

Definition loadFromArray (now : Z) (this : t) (requests : list Entry) : outcome t :=
  buildHeap {| heap := rescore now <$> requests; requestMap := requestMap this |}.

(** [getAll()]: the sorted copy that is returned, and the queue as the
    recalculation leaves it. *)
Definition getAll (now : Z) (this : t) : outcome (list Entry * t) :=
  this1 ← recalculateAllPriorities now this;
  Ret (Array_sort (λ a b, priorityScore b - priorityScore a)%Q (heap this1),
       this1).

(** [clear()], up to its first [await]. *)
Definition clear (this : t) : t := {| heap := []; requestMap := ∅ |}.

End MaxHeapPriorityQueue.

(** ** services/priorityQueue.js: class MaxHeap *)

Module MaxHeap.

Record t : Type := mk { heap : list Entry }.

(** The method definitions of the class body, by name. *)
Definition prototype : list string :=
  ["constructor"; "insert"; "bubbleUp"; "extractMax"; "sinkDown"; "peek"; "size"].

(** A numeric property of an array, [None] being [undefined]: arrays have
    [length] and no other named number. *)
Definition array_number (a : list Entry) (name : string) : option Z :=
  if decide (name = "length") then Some (len a) else None.

(** The [while] of [bubbleUp].  [index] is [None] when it is [NaN], and
    [element] is [None] when it is [undefined]. *)
Fixpoint bubbleUp_loop (fuel : nat) (this : t) (element : option Entry)
    (index : option Z) : outcome t :=
  match fuel with
  | O => Beyond LoopBound
  | S fuel =>
      match index with
      | None => Ret this                       (* [NaN > 0] is false *)
      | Some index =>
          if decide (index > 0) then
            let parentIndex := (index - 1) / 2 in
            let parent := at_index (heap this) parentIndex in
            e ← deref element;
            p ← deref parent;
            if Qle_bool (priorityScore e) (priorityScore p) then Ret this
            else
              (* [element] was read at the first [index], so the positions
                 written here lie inside the array *)
              bubbleUp_loop fuel
                {| heap := store (store (heap this) parentIndex e) index p |}
                element (Some parentIndex)
          else Ret this
      end
  end.

Definition bubbleUp (this : t) : outcome t :=
  let index := (fun n => n - 1) <$> array_number (heap this) "lenght" in
  let element := index ≫= at_index (heap this) in
  bubbleUp_loop (S (length (heap this))) this element index.

(** What every object inherits from [Object.prototype]. *)
Definition Object_prototype : list string :=
  ["constructor"; "hasOwnProperty"; "isPrototypeOf"; "propertyIsEnumerable";
   "toLocaleString"; "toString"; "valueOf"; "__defineGetter__";
   "__defineSetter__"; "__lookupGetter__"; "__lookupSetter__"; "__proto__"].

(** [this.name()] inside the class: the property is looked up on the
    instance, whose only own property is the array [heap], then along the
    prototype chain.  Calling an array, or a name that resolves to nothing
    ([undefined]), throws.  Of the methods only [bubbleUp] is embedded. *)
Definition call (this : t) (name : string) : outcome t :=
  if decide (name = "heap") then Throw TypeError
  else if decide (name ∈ prototype) then
    if decide (name = "bubbleUp") then bubbleUp this else Beyond NoBody
  else if decide (name ∈ Object_prototype) then Beyond NoBody
  else Throw TypeError.

Definition insert (this : t) (request : Entry) : outcome t :=
  let this1 := {| heap := heap this ++ [request] |} in
  call this1 "bubbleup".

(** How [sinkDown] and [extractMax] can end: besides the outcomes above,
    reading an identifier that no scope declares is a [ReferenceError]. *)
Inductive completion (A : Type) : Type :=
| Returns (a : A)
| Throws (e : exn)
| ThrowsReferenceError
| Leaves (w : limit).

Arguments Returns {A} a.
Arguments Throws {A} e.
Arguments ThrowsReferenceError {A}.
Arguments Leaves {A} w.

#[global] Instance completion_ret : MRet completion := fun A a => Returns a.

#[global] Instance completion_bind : MBind completion := fun A B f c =>
  match c with
  | Returns a => f a
  | Throws e => Throws e
  | ThrowsReferenceError => ThrowsReferenceError
  | Leaves w => Leaves w
  end.

Definition property_of {A : Type} (v : option A) : completion A :=
  match v with
  | Some a => Returns a
  | None => Throws TypeError
  end.

(** [a < b] and [a === b] where [b] may be [undefined]: both are false then. *)
Definition lt_number (a : Z) (b : option Z) : bool :=
  match b with
  | Some b => bool_decide (a < b)
  | None => false
  end.

Definition strict_equal (a : option Z) (b : Z) : bool :=
  match a with
  | Some a => bool_decide (a = b)
  | None => false
  end.

(** The identifiers that the body of [sinkDown] can read as numbers, with
    their values ([None]: not a number; [null] counts as 0): its constants
    and variables, its parameter, and the class name of the module.  The
    module wrapper and the global object declare no [lenght]. *)
Definition sinkDown_scope (length : option Z) (swap : option Z)
    (index leftIndex rightIndex : Z) : list (string * option Z) :=
  [("length", length); ("element", None); ("leftIndex", Some leftIndex);
   ("rightIndex", Some rightIndex); ("swap", Some (default 0 swap));
   ("index", Some index); ("MaxHeap", None)].

Definition resolve (scope : list (string * option Z)) (name : string)
    : option (option Z) :=
  match list_find (λ binding, binding.1 = name) scope with
  | Some (_, (_, v)) => Some v
  | None => None
  end.

(** The [while (true)] of [sinkDown]. *)
Fixpoint sinkDown_loop (fuel : nat) (this : t) (length : option Z)
    (element : option Entry) (index : Z) : completion t :=
  match fuel with
  | O => Leaves LoopBound
  | S fuel =>
      let leftIndex := 2 * index + 1 in
      let rightIndex := 2 * index + 2 in
      swap ←
        (if lt_number leftIndex length then
           l ← property_of (at_index (heap this) leftIndex);
           e ← property_of element;
           Returns (if Qltb (priorityScore e) (priorityScore l)
                    then Some leftIndex else None)
         else Returns None);
      match resolve (sinkDown_scope length swap index leftIndex rightIndex)
              "lenght" with
      | None => ThrowsReferenceError
      | Some lenght =>
          swap ←
            (if lt_number rightIndex lenght then
               match swap with
               | None =>
                   r ← property_of (at_index (heap this) rightIndex);
                   e ← property_of element;
                   Returns (if Qltb (priorityScore e) (priorityScore r)
                            then Some rightIndex else swap)
               | Some _ =>
                   r ← property_of (at_index (heap this) rightIndex);
                   l ← property_of (at_index (heap this) leftIndex);
                   Returns (if Qltb (priorityScore l) (priorityScore r)
                            then Some rightIndex else swap)
               end
             else Returns swap);
          match swap with
          | None => Returns this
          | Some swap =>
              match at_index (heap this) swap, element with
              | Some child, Some e =>
                  sinkDown_loop fuel
                    {| heap := store (store (heap this) index child) swap e |}
                    length element swap
              | _, _ => Leaves ArrayHole
              end
          end
      end
  end.

Definition sinkDown (this : t) (index : Z) : completion t :=
  let length := array_number (heap this) "lenght" in
  let element := at_index (heap this) index in
  sinkDown_loop (S (Datatypes.length (heap this))) this length element index.

(** [extractMax()].  [this.heap[0] = this.heap.pop()] on a one-element array
    pops it empty and then writes position 0 again. *)
Definition extractMax (this : t) : completion (value * t) :=
  if strict_equal (array_number (heap this) "lenght") 0 then Returns (Null, this)
  else if strict_equal (array_number (heap this) "lenght") 1 then
    Returns (of_option (last (heap this)), {| heap := pop (heap this) |})
  else
    let max := at_index (heap this) 0 in
    match last (heap this) with
    | None => Leaves ArrayHole
    | Some moved =>
        let heap1 :=
          match pop (heap this) with
          | [] => [moved]
          | rest => store rest 0 moved
          end in
        this1 ← sinkDown {| heap := heap1 |} 0;
        Returns (of_option max, this1)
    end.

Definition peek (this : t) : value :=
  if lt_number 0 (array_number (heap this) "lenght")
  then of_option (at_index (heap this) 0)
  else Null.

(** [size()]: [None] is [undefined]. *)
Definition size (this : t) : option Z := array_number (heap this) "lenght".

End MaxHeap.

(** ** utils/priorityCalculator.js: the category tables *)

(** A value read from a plain object by name: an own number, a member of
    [Object.prototype] (a function or an object), or [undefined]. *)
Inductive property : Type :=
| Number (n : Q)
| Inherited (name : string)
| Missing.

Definition VULNERABILITY_SCORES : list (string * Q) :=
  [("pregnant", 5%Q); ("elderly", 4%Q); ("child", 4%Q); ("disabled", 3%Q);
   ("adult", 1%Q)].

Definition MEDICAL_URGENCY_SCORES : list (string * Q) :=
  [("life-saving-medicine", 5%Q); ("serious-injury", 4%Q);
   ("regular-medicine", 3%Q); ("food-water", 2%Q); ("shelter", 1%Q)].

(** [Object.keys(table)] *)
Definition Object_keys (table : list (string * Q)) : list string := fst <$> table.

(** [table[name]] *)
Definition get_property (table : list (string * Q)) (name : string) : property :=
  match list_find (λ entry, entry.1 = name) table with
  | Some (_, (_, n)) => Number n
  | None =>
      if decide (name ∈ MaxHeap.Object_prototype) then Inherited name
      else Missing
  end.

(** [v || 1]: 0 and [undefined] are falsy, functions and objects are not. *)
Definition or_1 (v : property) : property :=
  match v with
  | Number n => if Qeq_bool n 0 then Number 1 else Number n
  | Inherited name => Inherited name
  | Missing => Number 1
  end.

(** [toLowerCase] on the bytes of a string: the letters A to Z are lowered.
    (A character outside ASCII never lowers to a string that matches a name
    used below.) *)
Definition ascii_toLowerCase (c : Ascii.ascii) : Ascii.ascii :=
  let n := Ascii.nat_of_ascii c in
  if (65 <=? n)%nat && (n <=? 90)%nat then Ascii.ascii_of_nat (n + 32) else c.

Fixpoint toLowerCase (s : string) : string :=
  match s with
  | EmptyString => EmptyString
  | String c rest => String (ascii_toLowerCase c) (toLowerCase rest)
  end.

Definition getVulnerabilityScore (category : string) : property :=
  or_1 (get_property VULNERABILITY_SCORES (toLowerCase category)).

Definition getMedicalUrgencyScore (aidType : string) : property :=
  or_1 (get_property MEDICAL_URGENCY_SCORES (toLowerCase aidType)).

(** The object that [calculateFullPriority] returns; a [priorityScore] of
    [None] is [NaN], which arithmetic on a function or an object gives. *)
Record FullPriority : Type := mkFullPriority {
  fp_vulnerabilityScore : property;
  fp_medicalUrgencyScore : property;
  fp_priorityScore : option Q
}.

Definition calculateFullPriority (now : Z) (vulnerabilityCategory aidType : string)
    (createdAt : Z) : FullPriority :=
  let vulnerabilityScore := getVulnerabilityScore vulnerabilityCategory in
  let medicalUrgencyScore := getMedicalUrgencyScore aidType in
  let priorityScore :=
    match vulnerabilityScore, medicalUrgencyScore with
    | Number v, Number u => Some (calculatePriority now v u createdAt)
    | _, _ => None
    end in
  {| fp_vulnerabilityScore := vulnerabilityScore;
     fp_medicalUrgencyScore := medicalUrgencyScore;
     fp_priorityScore := priorityScore |}.

(** * Vocabulary of the properties *)

Module PQ := MaxHeapPriorityQueue.
Module B64 := Binary64.

(** The score held at a position (0 outside the array). *)
Definition score_at (a : list Entry) (i : Z) : Q :=
  from_option priorityScore 0%Q (at_index a i).

(** Max-heap order: no entry beats the entry at its parent position. *)
Definition max_heap (a : list Entry) : Prop :=
  ∀ j c p, 1 <= j →
    at_index a j = Some c → at_index a (PQ.getParentIndex j) = Some p →
    (priorityScore c <= priorityScore p)%Q.

(** Heap order restricted to the positions whose parent is at [k] or later:
    every subtree rooted at or after [k] is a heap. *)
Definition heap_from (k : Z) (a : list Entry) : Prop :=
  ∀ j, 1 <= j < len a → k <= PQ.getParentIndex j →
    (score_at a j <= score_at a (PQ.getParentIndex j))%Q.

(** Heap order everywhere except at the entry on its way up from [i]. *)
Definition up_inv (a : list Entry) (i : Z) : Prop :=
  (∀ j, 1 <= j < len a → j ≠ i →
     (score_at a j <= score_at a (PQ.getParentIndex j))%Q) ∧
  (∀ j, 1 <= j < len a → PQ.getParentIndex j = i → 1 <= i →
     (score_at a j <= score_at a (PQ.getParentIndex i))%Q).

(** Heap order from [k] on except at the entry on its way down from [i]. *)
Definition down_inv (k : Z) (a : list Entry) (i : Z) : Prop :=
  (∀ j, 1 <= j < len a → k <= PQ.getParentIndex j → PQ.getParentIndex j ≠ i →
     (score_at a j <= score_at a (PQ.getParentIndex j))%Q) ∧
  (∀ j, 1 <= j < len a → PQ.getParentIndex j = i → 1 <= i →
     k <= PQ.getParentIndex i →
     (score_at a j <= score_at a (PQ.getParentIndex i))%Q).

(** [insert] called once per item, each call with its own clock reading. *)
Fixpoint insert_all (items : list (Z * Entry)) (q : PQ.t) : outcome PQ.t :=
  match items with
  | [] => Ret q
  | (now, request) :: rest =>
      '(_, q1) ← PQ.insert now q request;
      insert_all rest q1
  end.

(** [extractMax] called [n] times; the returned values in call order. *)
Fixpoint extract_all (n : nat) (q : PQ.t) : outcome (list value * PQ.t) :=
  match n with
  | O => Ret ([], q)
  | S n =>
      '(v, q1) ← PQ.extractMax q;
      '(vs, q2) ← extract_all n q1;
      Ret (v :: vs, q2)
  end.

(** The entry an item becomes when inserted at its clock reading. *)
Definition scored (item : Z * Entry) : Entry := PQ.rescore item.1 item.2.

(** Every entry is followed only by entries of equal or lower score. *)
Definition non_increasing (l : list Entry) : Prop :=
  StronglySorted (λ x y, (priorityScore y <= priorityScore x)%Q) l.

(** The index and the array describe each other: every entry of the array
    is indexed at its position, and every indexed id is the id of the
    entry at the indexed position. *)
Definition index_consistent (q : PQ.t) : Prop :=
  (∀ i r, at_index (PQ.heap q) i = Some r → PQ.requestMap q !! _id r = Some i) ∧
  (∀ id i, PQ.requestMap q !! id = Some i →
     ∃ r, at_index (PQ.heap q) i = Some r ∧ _id r = id).

(** A caller's mutating calls, with the clock reading of those that score. *)
Inductive call : Type :=
| Insert (now : Z) (request : Entry)
| ExtractMax
| RemoveById (requestId : string)
| UpdatePriority (now : Z) (requestId : string) (newRequest : Partial).

Definition run_call (q : PQ.t) (c : call) : outcome PQ.t :=
  match c with
  | Insert now request => snd <$> PQ.insert now q request
  | ExtractMax => snd <$> PQ.extractMax q
  | RemoveById requestId => snd <$> PQ.removeById q requestId
  | UpdatePriority now requestId newRequest =>
      snd <$> PQ.updatePriority now q requestId newRequest
  end.

Fixpoint run (calls : list call) (q : PQ.t) : outcome PQ.t :=
  match calls with
  | [] => Ret q
  | c :: rest => q1 ← run_call q c; run rest q1
  end.

(** Minutes from [createdAt] to [now]. *)
Definition minutes_elapsed (createdAt now : Z) : Q :=
  (inject_Z (now - createdAt) / 60000)%Q.

(** [r] is [x] rounded to two decimal places: a whole number of hundredths,
    the nearest one to [x], a tie going up. *)
Definition rounded_to_hundredths (x r : Q) : Prop :=
  (∃ k : Z, r == inject_Z k / 100)%Q ∧ (x - (1 # 200) < r)%Q ∧ (r <= x + (1 # 200))%Q.

(** The score in exact arithmetic, before any rounding. *)
Definition exact_score (now : Z) (v u : Q) (t : Z) : Q :=
  (v * 5 + u * 10 + Qmax 0 (minutes_elapsed t now) * (1 # 10))%Q.

(** The waiting term that [Binary64.calculatePriority] adds to the two
    weighted scores. *)
Definition waiting_term (createdAt now : Z) : Q :=
  Binary64.mul
    (Qmax 0 (Binary64.div (Binary64.sub (inject_Z now) (inject_Z createdAt)) 60000))
    Binary64.WEIGHTS.WAITING_TIME.

(** [r] is the double that stores [x] rounded to two decimal places. *)
Definition double_rounded_to_hundredths (x r : Q) : Prop :=
  ∃ y, rounded_to_hundredths x y ∧ (r == Binary64.round y)%Q.

(** The unit roundoff of binary64, [2^-53]. *)
Definition u64 : Q := 1 # 9007199254740992.

(** The rational that a finite double of the Standard Library's
    specification of IEEE 754 denotes, and the double of an integer. *)
Definition SF2Q (f : spec_float) : option Q :=
  match f with
  | S754_zero _ => Some 0%Q
  | S754_finite s m e =>
      Some (Qred ((if s then -1 else 1) * inject_Z (Z.pos m) * Binary64.pow2 e))%Q
  | _ => None
  end.

Definition SF_of_Z (n : Z) : spec_float := binary_normalize 53 1024 n 0 false.

(** The three requests of the worked example of the design document, read
    at [now = 600000]: A and B are created now, C ten minutes earlier. *)
Definition request_A : Entry := mkEntry "A" 4 5 600000 0 "".
Definition request_B : Entry := mkEntry "B" 1 2 600000 0 "".
Definition request_C : Entry := mkEntry "C" 4 5 0 0 "".

(** Every indexed id is the id of an entry of the array. *)
Definition indexed_ids_in_heap (q : PQ.t) : Prop :=
  ∀ id, is_Some (PQ.requestMap q !! id) → id ∈ _id <$> PQ.heap q.

(** The comparison function that [getAll] passes to [sort]. *)
Definition descending (a b : Entry) : Q := (priorityScore b - priorityScore a)%Q.

(** The queue after A, B and C of the worked example are inserted at
    [now = 600000], and a fourth request. *)
Definition example_queue : PQ.t :=
  {| PQ.heap := [PQ.rescore 600000 request_C; PQ.rescore 600000 request_B;
                 PQ.rescore 600000 request_A];
     PQ.requestMap := <["C" := 0]> (<["B" := 1]> (<["A" := 2]> ∅)) |}.

Definition request_D : Entry := mkEntry "D" 5 5 300000 0 "".

(** * Properties *)

(** ** Arrays *)

Section Arrays.

Implicit Types (a : list Entry) (i j : Z) (x : Entry).

Lemma len_nonneg a : 0 <= len a.
Proof. unfold len. lia. Qed.

Lemma len_app a x : len (a ++ [x]) = len a + 1.
Proof. unfold len. rewrite length_app. simpl. lia. Qed.

Lemma len_store a i x : len (store a i x) = len a.
Proof. unfold len, store. by rewrite length_insert. Qed.

Lemma at_index_Some a i x : at_index a i = Some x → 0 <= i < len a.
Proof.
  unfold at_index, len. case_decide; [|done].
  intros H1. apply lookup_lt_Some in H1. lia.
Qed.

Lemma at_index_lt a i : 0 <= i < len a → ∃ x, at_index a i = Some x.
Proof.
  unfold at_index, len. intros [H0 H1]. rewrite decide_True by done.
  apply lookup_lt_is_Some_2. lia.
Qed.

Lemma at_index_None a i : ¬ (0 <= i < len a) → at_index a i = None.
Proof.
  intros H. destruct (at_index a i) eqn:E; [|done].
  apply at_index_Some in E. lia.
Qed.

Lemma at_index_store_eq a i x :
  0 <= i < len a → at_index (store a i x) i = Some x.
Proof.
  unfold at_index, store, len. intros [H0 H1]. rewrite decide_True by done.
  apply list_lookup_insert_eq. lia.
Qed.

Lemma at_index_store_ne a i j x :
  0 <= i → i ≠ j → at_index (store a i x) j = at_index a j.
Proof.
  unfold at_index, store. intros H0 Hne. case_decide; [|done].
  apply list_lookup_insert_ne. lia.
Qed.

Lemma at_index_app_l a x i : i < len a → at_index (a ++ [x]) i = at_index a i.
Proof.
  unfold at_index, len. intros H. case_decide; [|done].
  apply lookup_app_l. lia.
Qed.

Lemma at_index_app_last a x : at_index (a ++ [x]) (len a) = Some x.
Proof.
  unfold at_index, len. rewrite decide_True by lia.
  rewrite Nat2Z.id. apply list_lookup_middle. done.
Qed.

Lemma at_index_elem_of a i x : at_index a i = Some x → x ∈ a.
Proof.
  unfold at_index. case_decide; [|done]. intros H1.
  apply list_elem_of_lookup. eauto.
Qed.

Lemma elem_of_at_index a x : x ∈ a → ∃ i, at_index a i = Some x.
Proof.
  intros [n Hn]%list_elem_of_lookup. exists (Z.of_nat n).
  unfold at_index. rewrite decide_True by lia. by rewrite Nat2Z.id.
Qed.

Lemma at_index_ext a b :
  len a = len b → (∀ i, 0 <= i < len a → at_index a i = at_index b i) → a = b.
Proof.
  intros Hl H. apply list_eq. intros n.
  destruct (decide (n < length a)%nat) as [Hn|Hn].
  - specialize (H (Z.of_nat n)). unfold at_index, len in *.
    rewrite !decide_True, Nat2Z.id in H by lia. apply H. lia.
  - unfold len in Hl. rewrite !lookup_ge_None_2; [done| lia | lia].
Qed.

End Arrays.

(** ** Scores and comparisons *)

Lemma Qltb_true a b : Qltb a b = true ↔ (a < b)%Q.
Proof.
  unfold Qltb. rewrite negb_true_iff. split.
  - intros H. apply Qnot_le_lt. intros Hle. apply Qle_bool_iff in Hle. congruence.
  - intros H. destruct (Qle_bool b a) eqn:E; [|done].
    apply Qle_bool_iff in E. lra.
Qed.

Lemma Qltb_false a b : Qltb a b = false ↔ (b <= a)%Q.
Proof.
  unfold Qltb. rewrite negb_false_iff. apply Qle_bool_iff.
Qed.

Lemma Qle_bool_false a b : Qle_bool a b = false ↔ (b < a)%Q.
Proof.
  split.
  - intros H. apply Qnot_le_lt. intros Hle. apply Qle_bool_iff in Hle. congruence.
  - intros H. destruct (Qle_bool a b) eqn:E; [|done].
    apply Qle_bool_iff in E. lra.
Qed.

Lemma score_at_Some a i x : at_index a i = Some x → score_at a i = priorityScore x.
Proof. unfold score_at. by intros ->. Qed.

Ltac index_arith :=
  unfold PQ.getParentIndex, PQ.getLeftChildIndex, PQ.getRightChildIndex in *;
  Z.div_mod_to_equations; lia.

Lemma max_heap_heap_from a : max_heap a ↔ heap_from 0 a.
Proof.
  split.
  - intros H j Hj _.
    destruct (at_index_lt a j) as [c Hc]; [lia|].
    destruct (at_index_lt a (PQ.getParentIndex j)) as [p Hp]; [index_arith|].
    rewrite (score_at_Some _ _ _ Hc), (score_at_Some _ _ _ Hp). eapply H; [|done..]. lia.
  - intros H j c p Hj Hc Hp.
    rewrite <- (score_at_Some _ _ _ Hc), <- (score_at_Some _ _ _ Hp).
    apply H; [|index_arith]. apply at_index_Some in Hc. lia.
Qed.

(** ** [swap] and [updateMapIndices] *)

Lemma swap_Ret q i j :
  0 <= i < len (PQ.heap q) → 0 <= j < len (PQ.heap q) →
  ∃ q', PQ.swap q i j = Ret q' ∧
    PQ.requestMap q' = PQ.requestMap q ∧
    len (PQ.heap q') = len (PQ.heap q) ∧
    PQ.heap q' ≡ₚ PQ.heap q ∧
    ∀ x, score_at (PQ.heap q') x =
         if decide (x = j) then score_at (PQ.heap q) i
         else if decide (x = i) then score_at (PQ.heap q) j
         else score_at (PQ.heap q) x.
Proof.
  intros Hi Hj.
  destruct (at_index_lt _ _ Hi) as [t Ht], (at_index_lt _ _ Hj) as [o Ho].
  unfold PQ.swap. rewrite Ht, Ho. eexists. split; [done|]. simpl.
  split; [done|]. split; [by rewrite !len_store|]. split.
  - unfold store. apply Permutation_insert_swap.
    + unfold at_index in Ht. by rewrite decide_True in Ht by lia.
    + unfold at_index in Ho. by rewrite decide_True in Ho by lia.
  - intros x. unfold score_at at 1. case_decide as Hxj.
    + subst x. rewrite at_index_store_eq by (rewrite len_store; lia).
      simpl. by rewrite (score_at_Some _ _ _ Ht).
    + rewrite at_index_store_ne by lia. case_decide as Hxi.
      * subst x. rewrite at_index_store_eq by lia.
        simpl. by rewrite (score_at_Some _ _ _ Ho).
      * rewrite at_index_store_ne by lia. done.
Qed.

Lemma updateMapIndices_heap q i j : PQ.heap (PQ.updateMapIndices q i j) = PQ.heap q.
Proof. done. Qed.

(** ** Sifting up *)

Lemma bubbleUp_loop_heap fuel : ∀ q i,
  0 <= i < len (PQ.heap q) → (Z.to_nat i < fuel)%nat →
  up_inv (PQ.heap q) i →
  ∃ q', PQ.bubbleUp_loop fuel q i = Ret q' ∧
        heap_from 0 (PQ.heap q') ∧ PQ.heap q' ≡ₚ PQ.heap q.
Proof.
  induction fuel as [|fuel IH]; intros q i Hi Hfuel [Ha Hb]; [lia|].
  simpl. unfold PQ.hasParent. case_bool_decide as Hpar.
  - (* the entry has a parent *)
    assert (1 <= i) as Hi1 by index_arith.
    remember (PQ.getParentIndex i) as pi eqn:Epi.
    assert (0 <= pi < i) as Hpi by (subst pi; index_arith).
    destruct (at_index_lt (PQ.heap q) pi) as [p Hp]; [lia|].
    destruct (at_index_lt (PQ.heap q) i) as [c Hc]; [lia|].
    unfold PQ.parent. rewrite <- Epi, Hp, Hc. simpl.
    destruct (Qltb (priorityScore p) (priorityScore c)) eqn:Hlt.
    + apply Qltb_true in Hlt.
      rewrite <- (score_at_Some _ _ _ Hp), <- (score_at_Some _ _ _ Hc) in Hlt.
      destruct (swap_Ret q pi i) as (q1 & -> & Hm1 & Hl1 & Hp1 & Hs1); [lia..|].
      simpl.
      destruct (IH (PQ.updateMapIndices q1 pi i) pi) as (q' & Hq' & Hh & Hperm).
      * rewrite updateMapIndices_heap. lia.
      * lia.
      * unfold up_inv. rewrite updateMapIndices_heap, Hl1. split.
        -- intros j Hj Hne. rewrite !Hs1.
           destruct (decide (j = i)) as [->|Hji].
           { rewrite <- ?Epi. repeat case_decide; try lia; lra. }
           pose proof (Ha j Hj Hji) as Hx.
           destruct (decide (PQ.getParentIndex j = i)) as [Hpj|Hpj].
           { pose proof (Hb j Hj Hpj Hi1) as Hy. rewrite <- ?Epi in Hy.
             repeat case_decide; try lia; lra. }
           destruct (decide (PQ.getParentIndex j = pi)) as [Hpp|Hpp].
           { rewrite Hpp in Hx. repeat case_decide; try lia; lra. }
           repeat case_decide; try lia; lra.
        -- intros j Hj Hjp Hp1'. rewrite !Hs1.
           assert (PQ.getParentIndex pi < pi) as Hlt' by index_arith.
           assert (score_at (PQ.heap q) pi
                   <= score_at (PQ.heap q) (PQ.getParentIndex pi))%Q as Hy
             by (apply Ha; lia).
           destruct (decide (j = i)) as [->|Hji].
           { repeat case_decide; try lia; lra. }
           assert (j ≠ pi) as Hjpi by index_arith.
           pose proof (Ha j Hj Hji) as Hx. rewrite Hjp in Hx.
           repeat case_decide; try lia; lra.
      * exists q'. split; [done|]. split; [done|].
        rewrite Hperm, updateMapIndices_heap. done.
    + apply Qltb_false in Hlt. exists q. split; [done|]. split; [|done].
      intros j Hj _. destruct (decide (j = i)) as [->|Hne].
      * rewrite <- ?Epi. by rewrite (score_at_Some _ _ _ Hp), (score_at_Some _ _ _ Hc).
      * by apply Ha.
  - exists q. split; [done|]. split; [|done].
    assert (i = 0) by index_arith. subst i.
    intros j Hj _. apply Ha; lia.
Qed.

(** ** Sifting down *)

(** One turn of the loop at a position with a left child: the entry [dd]
    at the larger child position [d] is compared with the entry [c] at
    [index]. *)
Lemma sinkDown_loop_step fuel q i :
  0 <= i → PQ.getLeftChildIndex i < len (PQ.heap q) →
  ∃ d dd c,
    at_index (PQ.heap q) i = Some c ∧ at_index (PQ.heap q) d = Some dd ∧
    PQ.getParentIndex d = i ∧ 1 <= d < len (PQ.heap q) ∧
    (∀ j, 1 <= j < len (PQ.heap q) → PQ.getParentIndex j = i →
          (score_at (PQ.heap q) j <= score_at (PQ.heap q) d)%Q) ∧
    PQ.sinkDown_loop (S fuel) q i =
      if Qle_bool (priorityScore dd) (priorityScore c) then Ret q
      else this1 ← PQ.swap q i d;
           PQ.sinkDown_loop fuel (PQ.updateMapIndices this1 i d) d.
Proof.
  intros Hi Hleft. set (a := PQ.heap q) in *.
  assert (PQ.getLeftChildIndex i = 2 * i + 1) as Hl by done.
  assert (PQ.getRightChildIndex i = 2 * i + 2) as Hr by done.
  destruct (at_index_lt a (PQ.getLeftChildIndex i)) as [ll Hll]; [lia|].
  destruct (at_index_lt a i) as [c Hc]; [lia|].
  simpl. unfold PQ.hasLeftChild. rewrite bool_decide_eq_true_2 by done.
  unfold PQ.hasRightChild, PQ.rightChild, PQ.leftChild. fold a.
  case_bool_decide as Hright.
  - destruct (at_index_lt a (PQ.getRightChildIndex i)) as [rr Hrr]; [lia|].
    rewrite Hrr, Hll. simpl.
    destruct (Qltb (priorityScore ll) (priorityScore rr)) eqn:Hlr.
    + exists (PQ.getRightChildIndex i), rr, c. rewrite Hc, Hrr. simpl.
      split; [done|]. split; [done|]. split; [index_arith|]. split; [lia|].
      split; [|done].
      apply Qltb_true in Hlr. intros j Hj Hpj.
      assert (j = PQ.getLeftChildIndex i ∨ j = PQ.getRightChildIndex i)
        as [-> | ->] by index_arith.
      * rewrite (score_at_Some _ _ _ Hll), (score_at_Some _ _ _ Hrr). lra.
      * lra.
    + exists (PQ.getLeftChildIndex i), ll, c. rewrite Hc, Hll. simpl.
      split; [done|]. split; [done|]. split; [index_arith|]. split; [lia|].
      split; [|done].
      apply Qltb_false in Hlr. intros j Hj Hpj.
      assert (j = PQ.getLeftChildIndex i ∨ j = PQ.getRightChildIndex i)
        as [-> | ->] by index_arith.
      * lra.
      * rewrite (score_at_Some _ _ _ Hll), (score_at_Some _ _ _ Hrr). lra.
  - simpl. exists (PQ.getLeftChildIndex i), ll, c. rewrite Hc, Hll. simpl.
    split; [done|]. split; [done|]. split; [index_arith|]. split; [lia|].
    split; [|done].
    intros j Hj Hpj. assert (j = PQ.getLeftChildIndex i) as -> by index_arith. lra.
Qed.

Lemma sinkDown_loop_leaf fuel q i :
  ¬ PQ.getLeftChildIndex i < len (PQ.heap q) →
  PQ.sinkDown_loop (S fuel) q i = Ret q.
Proof.
  intros H. simpl. unfold PQ.hasLeftChild. by rewrite bool_decide_eq_false_2.
Qed.

Lemma sinkDown_loop_heap k fuel : ∀ q i,
  0 <= k <= i → (Z.to_nat (len (PQ.heap q) - i) < fuel)%nat →
  down_inv k (PQ.heap q) i →
  ∃ q', PQ.sinkDown_loop fuel q i = Ret q' ∧
        heap_from k (PQ.heap q') ∧ PQ.heap q' ≡ₚ PQ.heap q.
Proof.
  induction fuel as [|fuel IH]; intros q i Hi Hfuel [Ha Hb]; [lia|].
  destruct (decide (PQ.getLeftChildIndex i < len (PQ.heap q))) as [Hleft|Hleft].
  - destruct (sinkDown_loop_step fuel q i) as
      (d & dd & c & Hc & Hd & Hpd & Hdn & Hmax & ->); [lia|done|].
    set (a := PQ.heap q) in *.
    assert (i < d) as Hid by index_arith.
    destruct (Qle_bool (priorityScore dd) (priorityScore c)) eqn:Hle.
    + apply Qle_bool_iff in Hle.
      rewrite <- (score_at_Some _ _ _ Hd), <- (score_at_Some _ _ _ Hc) in Hle.
      exists q. split; [done|]. split; [|done].
      intros j Hj Hk. destruct (decide (PQ.getParentIndex j = i)) as [Hpj|Hpj].
      * rewrite Hpj. specialize (Hmax j Hj Hpj). fold a. lra.
      * by apply Ha.
    + apply Qle_bool_false in Hle.
      rewrite <- (score_at_Some _ _ _ Hd), <- (score_at_Some _ _ _ Hc) in Hle.
      destruct (swap_Ret q i d) as (q1 & -> & Hm1 & Hl1 & Hp1 & Hs1); [fold a; lia..|].
      simpl.
      destruct (IH (PQ.updateMapIndices q1 i d) d) as (q' & Hq' & Hh & Hperm).
      * lia.
      * rewrite updateMapIndices_heap, Hl1. fold a. lia.
      * unfold down_inv. rewrite updateMapIndices_heap, Hl1. fold a. split.
        -- intros j Hj Hk Hne. rewrite !Hs1. fold a.
           destruct (decide (j = d)) as [->|Hjd].
           { rewrite Hpd. repeat case_decide; try lia; lra. }
           destruct (decide (j = i)) as [->|Hji].
           { assert (PQ.getParentIndex i < i) by index_arith.
             pose proof (Hb d ltac:(lia) Hpd ltac:(lia) Hk).
             repeat case_decide; try lia; lra. }
           destruct (decide (PQ.getParentIndex j = i)) as [Hpj|Hpj].
           { pose proof (Hmax j Hj Hpj). rewrite Hpj.
             repeat case_decide; try lia; lra. }
           pose proof (Ha j Hj Hk Hpj).
           repeat case_decide; try lia; lra.
        -- intros j Hj Hpj Hd1 Hk. rewrite !Hs1. fold a.
           assert (d < j) by index_arith.
           pose proof (Ha j Hj ltac:(lia) ltac:(lia)) as Hx.
           rewrite Hpj in Hx. rewrite Hpd.
           repeat case_decide; try lia; lra.
      * exists q'. split; [done|]. split; [done|].
        rewrite Hperm, updateMapIndices_heap. done.
  - rewrite sinkDown_loop_leaf by done.
    exists q. split; [done|]. split; [|done].
    intros j Hj Hk. apply Ha; [done..|].
    unfold PQ.getLeftChildIndex in Hleft. index_arith.
Qed.

(** At a position whose children do not beat it, [sinkDown] changes nothing. *)
Lemma sinkDown_loop_noop fuel q i :
  0 <= i → heap_from i (PQ.heap q) →
  PQ.sinkDown_loop (S fuel) q i = Ret q.
Proof.
  intros Hi Hh.
  destruct (decide (PQ.getLeftChildIndex i < len (PQ.heap q))) as [Hleft|Hleft];
    [|by apply sinkDown_loop_leaf].
  destruct (sinkDown_loop_step fuel q i) as
    (d & dd & c & Hc & Hd & Hpd & Hdn & Hmax & ->); [lia|done|].
  assert (priorityScore dd <= priorityScore c)%Q as Hle.
  { rewrite <- (score_at_Some _ _ _ Hd), <- (score_at_Some _ _ _ Hc).
    rewrite <- Hpd. apply Hh; lia. }
  apply Qle_bool_iff in Hle. by rewrite Hle.
Qed.

(** ** The root of a heap *)

Lemma heap_from_weaken k k' a : k <= k' → heap_from k a → heap_from k' a.
Proof. intros Hk H j Hj Hp. apply H; [done|lia]. Qed.

Lemma heap_from_root a :
  heap_from 0 a → ∀ i, 0 <= i < len a → (score_at a i <= score_at a 0)%Q.
Proof.
  intros Hh i. pattern i. apply (well_founded_ind (Z.lt_wf 0)). clear i.
  intros i IH Hi. destruct (decide (i = 0)) as [->|Hne]; [lra|].
  assert (0 <= PQ.getParentIndex i < i) as Hp by index_arith.
  specialize (IH (PQ.getParentIndex i) ltac:(lia) ltac:(lia)).
  specialize (Hh i ltac:(lia) ltac:(lia)). lra.
Qed.

Lemma max_heap_root a top :
  max_heap a → at_index a 0 = Some top →
  ∀ e, e ∈ a → (priorityScore e <= priorityScore top)%Q.
Proof.
  intros Hh Htop e [i Hi]%elem_of_at_index.
  rewrite <- (score_at_Some _ _ _ Hi), <- (score_at_Some _ _ _ Htop).
  apply heap_from_root; [by apply max_heap_heap_from|].
  by apply at_index_Some in Hi.
Qed.

Lemma max_heap_nil : max_heap [].
Proof.
  intros j c p _ Hc. apply at_index_Some in Hc.
  unfold len in Hc. simpl in Hc. lia.
Qed.

(** ** [insert] *)

Lemma insert_heap now q request :
  max_heap (PQ.heap q) →
  ∃ q', PQ.insert now q request = Ret (PQ.rescore now request, q') ∧
        max_heap (PQ.heap q') ∧
        PQ.heap q' ≡ₚ PQ.rescore now request :: PQ.heap q.
Proof.
  intros Hh%max_heap_heap_from. unfold PQ.insert, PQ.bubbleUp.
  fold (PQ.rescore now request). set (r := PQ.rescore now request).
  set (q1 := {| PQ.heap := PQ.heap q ++ [r] |}).
  rewrite len_app. replace (len (PQ.heap q) + 1 - 1) with (len (PQ.heap q)) by lia.
  pose proof (len_nonneg (PQ.heap q)) as Hn.
  destruct (bubbleUp_loop_heap (S (Z.to_nat (len (PQ.heap q)))) q1 (len (PQ.heap q)))
    as (q' & -> & Hh' & Hperm).
  - simpl. rewrite len_app. lia.
  - lia.
  - simpl. unfold up_inv. rewrite len_app. split.
    + intros j Hj Hne. unfold score_at.
      rewrite !at_index_app_l by index_arith. apply Hh; [lia|index_arith].
    + intros j Hj Hp. index_arith.
  - eexists. split; [done|]. split; [by apply max_heap_heap_from|].
    rewrite Hperm. simpl. by rewrite Permutation_app_comm.
Qed.

(** ** [extractMax] *)

Lemma extractMax_empty q :
  PQ.heap q = [] → PQ.extractMax q = Ret (Null, q).
Proof. intros H. unfold PQ.extractMax. by rewrite H. Qed.

Lemma extractMax_single top m :
  PQ.extractMax {| PQ.heap := [top]; PQ.requestMap := m |} =
  Ret (Obj top, {| PQ.heap := []; PQ.requestMap := delete (_id top) m |}).
Proof. done. Qed.

Lemma extractMax_many top mid moved m :
  PQ.extractMax {| PQ.heap := top :: mid ++ [moved]; PQ.requestMap := m |} =
  this2 ← PQ.sinkDown
            {| PQ.heap := moved :: mid;
               PQ.requestMap := <[_id moved := 0]> (delete (_id top) m) |} 0;
  Ret (Obj top, this2).
Proof.
  unfold PQ.extractMax. simpl PQ.heap. simpl PQ.requestMap.
  assert (len (top :: mid ++ [moved]) = len mid + 2) as Hlen
    by (unfold len; simpl; rewrite length_app; simpl; lia).
  pose proof (len_nonneg mid).
  case_decide; [lia|]. case_decide; [lia|].
  replace (at_index (top :: mid ++ [moved]) 0) with (Some top) by done.
  replace (last (top :: mid ++ [moved])) with (Some moved)
    by (by rewrite app_comm_cons, last_snoc).
  replace (pop (top :: mid ++ [moved])) with (top :: mid)
    by (unfold pop; by rewrite app_comm_cons, removelast_last).
  replace (store (top :: mid) 0 moved) with (moved :: mid) by done.
  cbn [deref mbind outcome_bind].
  rewrite decide_True by (unfold len; simpl; lia).
  done.
Qed.

Lemma extractMax_heap q :
  max_heap (PQ.heap q) → PQ.heap q ≠ [] →
  ∃ top q', PQ.extractMax q = Ret (Obj top, q') ∧
            at_index (PQ.heap q) 0 = Some top ∧
            max_heap (PQ.heap q') ∧
            PQ.heap q ≡ₚ top :: PQ.heap q'.
Proof.
  intros Hh Hne. destruct q as [a m]. simpl in *.
  destruct a as [|top rest]; [done|]. clear Hne.
  destruct (last rest) as [moved|] eqn:Hlast.
  - apply last_Some in Hlast as [mid ->].
    rewrite extractMax_many. unfold PQ.sinkDown.
    set (q1 := {| PQ.heap := moved :: mid |}).
    destruct (sinkDown_loop_heap 0 (S (length (PQ.heap q1))) q1 0)
      as (q' & -> & Hh' & Hperm).
    + lia.
    + unfold len. lia.
    + split; [|intros; lia].
      intros j Hj _ Hpj. apply max_heap_heap_from in Hh.
      assert (1 <= PQ.getParentIndex j < j) by index_arith.
      unfold q1 in *. simpl in Hj |- *.
      assert (len (moved :: mid) = len mid + 1) as Hlen by (unfold len; simpl; lia).
      assert (∀ i, 1 <= i < len mid + 1 →
                score_at (moved :: mid) i = score_at (top :: mid ++ [moved]) i) as Heq.
      { intros i Hi. unfold score_at, at_index. rewrite !decide_True by lia.
        replace (Z.to_nat i) with (S (Z.to_nat (i - 1))) by lia. simpl.
        rewrite lookup_app_l; [done|]. unfold len in Hi. lia. }
      rewrite !Heq by lia.
      apply Hh; [|lia]. unfold len in *. simpl. rewrite length_app. simpl. lia.
    + exists top, q'. split; [done|]. split; [done|].
      split; [by apply max_heap_heap_from|].
      rewrite Hperm. simpl. constructor. by rewrite Permutation_app_comm.
  - apply last_None in Hlast as ->. rewrite extractMax_single.
    exists top. eexists. split; [done|]. split; [done|]. split; [|done].
    apply max_heap_nil.
Qed.


(** ** Runs of [insert] and of [extractMax] *)

Lemma insert_all_heap items : ∀ q,
  max_heap (PQ.heap q) →
  ∃ q', insert_all items q = Ret q' ∧ max_heap (PQ.heap q') ∧
        PQ.heap q' ≡ₚ (scored <$> items) ++ PQ.heap q.
Proof.
  induction items as [|[now request] rest IH]; intros q Hh.
  - by exists q.
  - destruct (insert_heap now q request Hh) as (q1 & Hq1 & Hh1 & Hp1).
    destruct (IH q1 Hh1) as (q' & Hq' & Hh' & Hp').
    exists q'. simpl. rewrite Hq1. simpl. split; [done|]. split; [done|].
    rewrite Hp', Hp1. unfold scored at 2. simpl.
    by rewrite Permutation_middle.
Qed.

Lemma extract_all_sorted n : ∀ q,
  max_heap (PQ.heap q) → length (PQ.heap q) = n →
  ∃ out q', extract_all n q = Ret (Obj <$> out, q') ∧
            non_increasing out ∧ out ≡ₚ PQ.heap q ∧ PQ.heap q' = [].
Proof.
  induction n as [|n IH]; intros q Hh Hlen.
  - exists [], q. split; [done|]. split; [constructor|].
    apply nil_length_inv in Hlen. by rewrite Hlen.
  - destruct (extractMax_heap q Hh) as (top & q1 & Hq1 & Htop & Hh1 & Hp1).
    { intros E. by rewrite E in Hlen. }
    destruct (IH q1 Hh1) as (out & q' & Hq' & Hsorted & Hp' & Hnil).
    { apply Permutation_length in Hp1. simpl in Hp1. lia. }
    exists (top :: out), q'. simpl. rewrite Hq1. simpl. rewrite Hq'. simpl.
    split; [done|]. split; [|split; [by rewrite Hp1, Hp'|done]].
    constructor; [done|].
    apply Forall_forall. intros e He.
    apply (max_heap_root (PQ.heap q)); [done..|].
    rewrite Hp1. right. by rewrite <- Hp'.
Qed.

(** ** [buildHeap] *)

Lemma sinkDown_heap k q :
  0 <= k → heap_from (k + 1) (PQ.heap q) →
  ∃ q', PQ.sinkDown q k = Ret q' ∧ heap_from k (PQ.heap q') ∧
        PQ.heap q' ≡ₚ PQ.heap q.
Proof.
  intros Hk Hh. unfold PQ.sinkDown. apply sinkDown_loop_heap.
  - lia.
  - pose proof (len_nonneg (PQ.heap q)). unfold len in *. lia.
  - split.
    + intros j Hj Hp Hne. apply Hh; [done|lia].
    + intros j Hj Hp H1 Hkp. index_arith.
Qed.

Lemma buildHeap_sift_heap count : ∀ q,
  heap_from (Z.of_nat count) (PQ.heap q) →
  ∃ q', PQ.buildHeap_sift count q = Ret q' ∧ heap_from 0 (PQ.heap q') ∧
        PQ.heap q' ≡ₚ PQ.heap q.
Proof.
  induction count as [|i IH]; intros q Hh.
  - by exists q.
  - destruct (sinkDown_heap (Z.of_nat i) q) as (q1 & Hq1 & Hh1 & Hp1); [lia| |].
    { by replace (Z.of_nat i + 1) with (Z.of_nat (S i)) by lia. }
    destruct (IH q1 Hh1) as (q' & Hq' & Hh' & Hp').
    exists q'. simpl. rewrite Hq1. simpl. split; [done|]. split; [done|].
    by rewrite Hp'.
Qed.

Lemma buildHeap_sift_noop count : ∀ q,
  heap_from 0 (PQ.heap q) → PQ.buildHeap_sift count q = Ret q.
Proof.
  induction count as [|i IH]; intros q Hh; [done|].
  simpl. unfold PQ.sinkDown. rewrite sinkDown_loop_noop.
  - simpl. by apply IH.
  - lia.
  - eapply heap_from_weaken; [|done]. lia.
Qed.

(** The leaves need no sifting: from the first leaf on, heap order holds. *)
Lemma heap_from_leaves a : heap_from (Z.of_nat (Z.to_nat (len a / 2 - 1 + 1))) a.
Proof.
  intros j Hj Hp. pose proof (len_nonneg a).
  rewrite Z2Nat.id in Hp by index_arith. index_arith.
Qed.

Lemma buildHeap_index_union requests : ∀ index m,
  PQ.buildHeap_index requests index m = PQ.buildHeap_index requests index ∅ ∪ m.
Proof.
  induction requests as [|r rest IH]; intros index m; simpl.
  - by rewrite (left_id_L ∅ (∪)).
  - rewrite (IH _ (<[_id r := index]> m)), (IH _ (<[_id r := index]> ∅)).
    rewrite <- (assoc_L (∪)). f_equal.
    rewrite <- insert_union_l. by rewrite (left_id_L ∅ (∪)).
Qed.

Lemma buildHeap_index_idem requests index m :
  PQ.buildHeap_index requests index (PQ.buildHeap_index requests index m) =
  PQ.buildHeap_index requests index m.
Proof.
  rewrite (buildHeap_index_union _ _ (PQ.buildHeap_index _ _ _)).
  rewrite (buildHeap_index_union _ _ m).
  by rewrite (assoc_L (∪)), (idemp_L (∪)).
Qed.

Lemma buildHeap_heap q :
  ∃ q' m, PQ.buildHeap q = Ret q' ∧ max_heap (PQ.heap q') ∧
          PQ.heap q' ≡ₚ PQ.heap q ∧
          PQ.requestMap q' = PQ.buildHeap_index (PQ.heap q') 0 m.
Proof.
  unfold PQ.buildHeap.
  destruct (buildHeap_sift_heap (Z.to_nat (len (PQ.heap q) / 2 - 1 + 1)) q)
    as (q1 & -> & Hh & Hp); [apply heap_from_leaves|].
  simpl. eexists _, _. split; [done|]. simpl.
  split; [by apply max_heap_heap_from|]. done.
Qed.

Lemma buildHeap_noop q m :
  max_heap (PQ.heap q) →
  PQ.requestMap q = PQ.buildHeap_index (PQ.heap q) 0 m →
  PQ.buildHeap q = Ret q.
Proof.
  intros Hh%max_heap_heap_from Hm. unfold PQ.buildHeap.
  rewrite buildHeap_sift_noop by done. simpl. f_equal.
  destruct q as [a mq]. simpl in *. f_equal. rewrite Hm.
  apply buildHeap_index_idem.
Qed.

(** ** Rescoring *)

Lemma rescore_idem now r : PQ.rescore now (PQ.rescore now r) = PQ.rescore now r.
Proof. done. Qed.

Lemma rescore_fixed now (a b : list Entry) :
  a ≡ₚ PQ.rescore now <$> b → PQ.rescore now <$> a = a.
Proof.
  intros Hp. rewrite <- (list_fmap_id a) at 2. apply list_fmap_ext.
  intros i x Hx. simpl.
  assert (x ∈ PQ.rescore now <$> b) as Hin.
  { rewrite <- Hp. apply list_elem_of_lookup. eauto. }
  apply list_elem_of_fmap in Hin as (y & -> & _). apply rescore_idem.
Qed.

(** ** The index under [insert] and [extractMax] *)

Lemma index_consistent_inj q i j x y :
  index_consistent q →
  at_index (PQ.heap q) i = Some x → at_index (PQ.heap q) j = Some y →
  _id x = _id y → i = j.
Proof.
  intros [Hfwd _] Hx Hy Heq.
  apply Hfwd in Hx. apply Hfwd in Hy. rewrite Heq in Hx. congruence.
Qed.

(** A swap followed by [updateMapIndices] keeps the index exact. *)
Lemma swap_updateMapIndices_consistent q i j q1 :
  index_consistent q → i ≠ j → PQ.swap q i j = Ret q1 →
  index_consistent (PQ.updateMapIndices q1 i j).
Proof.
  intros Hq Hne Hswap. unfold PQ.swap in Hswap.
  destruct (at_index (PQ.heap q) i) as [x|] eqn:Hx; [|done].
  destruct (at_index (PQ.heap q) j) as [y|] eqn:Hy; [|done].
  injection Hswap as <-.
  pose proof (at_index_Some _ _ _ Hx) as Hi.
  pose proof (at_index_Some _ _ _ Hy) as Hj.
  assert (_id x ≠ _id y) as Hxy
    by (intros E; by apply Hne, (index_consistent_inj q i j x y)).
  unfold PQ.updateMapIndices. simpl.
  rewrite (at_index_store_ne _ j i) by lia.
  rewrite (at_index_store_eq _ i) by lia.
  rewrite (at_index_store_eq _ j) by (rewrite len_store; lia).
  destruct Hq as [Hfwd Hbwd]. split; simpl.
  - intros k r Hk.
    destruct (decide (k = j)) as [->|Hkj].
    { rewrite at_index_store_eq in Hk by (rewrite len_store; lia).
      injection Hk as <-. by rewrite lookup_insert_eq. }
    rewrite at_index_store_ne in Hk by lia.
    destruct (decide (k = i)) as [->|Hki].
    { rewrite at_index_store_eq in Hk by lia. injection Hk as <-.
      rewrite lookup_insert_ne by done. by rewrite lookup_insert_eq. }
    rewrite at_index_store_ne in Hk by lia.
    assert (_id r ≠ _id x) by (intros E; by apply Hki, (index_consistent_inj q k i r x)).
    assert (_id r ≠ _id y) by (intros E; by apply Hkj, (index_consistent_inj q k j r y)).
    rewrite !lookup_insert_ne by done. by apply Hfwd.
  - intros id k Hk.
    destruct (decide (id = _id x)) as [->|Hidx].
    { rewrite lookup_insert_eq in Hk. injection Hk as <-.
      exists x. by rewrite at_index_store_eq by (rewrite len_store; lia). }
    rewrite lookup_insert_ne in Hk by done.
    destruct (decide (id = _id y)) as [->|Hidy].
    { rewrite lookup_insert_eq in Hk. injection Hk as <-.
      exists y. rewrite at_index_store_ne by lia.
      by rewrite at_index_store_eq by lia. }
    rewrite lookup_insert_ne in Hk by done.
    destruct (Hbwd id k Hk) as (r & Hr & Hid).
    exists r. split; [|done].
    assert (k ≠ i) by (intros ->; congruence).
    assert (k ≠ j) by (intros ->; congruence).
    by rewrite !at_index_store_ne by lia.
Qed.

Lemma bubbleUp_loop_consistent fuel : ∀ q i q',
  index_consistent q → PQ.bubbleUp_loop fuel q i = Ret q' →
  index_consistent q'.
Proof.
  induction fuel as [|fuel IH]; intros q i q' Hq Hrun; [done|].
  simpl in Hrun. unfold PQ.hasParent in Hrun.
  case_bool_decide as Hpar; [|by injection Hrun as <-].
  destruct (PQ.parent q i) as [p|]; [|done].
  destruct (at_index (PQ.heap q) i) as [c|]; [|done]. simpl in Hrun.
  destruct (Qltb (priorityScore p) (priorityScore c)); [|by injection Hrun as <-].
  destruct (PQ.swap q (PQ.getParentIndex i) i) as [q1| |] eqn:Hswap; [|done..].
  simpl in Hrun. eapply IH; [|done].
  eapply swap_updateMapIndices_consistent; [done| |done]. index_arith.
Qed.

Lemma sinkDown_loop_consistent fuel : ∀ q i q',
  0 <= i → index_consistent q → PQ.sinkDown_loop fuel q i = Ret q' →
  index_consistent q'.
Proof.
  induction fuel as [|fuel IH]; intros q i q' Hi Hq Hrun; [done|].
  destruct (decide (PQ.getLeftChildIndex i < len (PQ.heap q))) as [Hleft|Hleft].
  - destruct (sinkDown_loop_step fuel q i) as
      (d & dd & c & Hc & Hd & Hpd & Hdn & Hmax & Heq); [lia|done|].
    rewrite Heq in Hrun.
    destruct (Qle_bool (priorityScore dd) (priorityScore c));
      [by injection Hrun as <-|].
    destruct (PQ.swap q i d) as [q1| |] eqn:Hswap; [|done..].
    simpl in Hrun. eapply (IH _ d); [lia| |done].
    eapply swap_updateMapIndices_consistent; [done| |done]. index_arith.
  - rewrite sinkDown_loop_leaf in Hrun by done. by injection Hrun as <-.
Qed.

(** [insert] of a request whose id is not indexed keeps the index exact. *)
Lemma insert_consistent now q request r q' :
  index_consistent q → PQ.requestMap q !! _id request = None →
  PQ.insert now q request = Ret (r, q') → index_consistent q'.
Proof.
  intros [Hfwd Hbwd] Hfresh Hrun. unfold PQ.insert, PQ.bubbleUp in Hrun.
  fold (PQ.rescore now request) in Hrun.
  set (r1 := PQ.rescore now request) in *.
  destruct (PQ.bubbleUp_loop _ _ _) as [q2| |] eqn:Hup; [|done..].
  injection Hrun as _ <-.
  eapply bubbleUp_loop_consistent; [|done].
  rewrite len_app. replace (len (PQ.heap q) + 1 - 1) with (len (PQ.heap q)) by lia.
  split; simpl.
  - intros k x Hk.
    destruct (decide (k = len (PQ.heap q))) as [->|Hne].
    + rewrite at_index_app_last in Hk. injection Hk as <-.
      by rewrite lookup_insert_eq.
    + pose proof (at_index_Some _ _ _ Hk) as Hlt. rewrite len_app in Hlt.
      rewrite at_index_app_l in Hk by lia.
      apply Hfwd in Hk as Hm. rewrite lookup_insert_ne; [done|].
      intros E. change (_id r1) with (_id request) in E. congruence.
  - intros id k Hk.
    destruct (decide (id = _id r1)) as [->|Hne].
    + rewrite lookup_insert_eq in Hk. injection Hk as <-.
      exists r1. by rewrite at_index_app_last.
    + rewrite lookup_insert_ne in Hk by done.
      destruct (Hbwd id k Hk) as (x & Hx & Hid). exists x. split; [|done].
      rewrite at_index_app_l; [done|]. by apply at_index_Some in Hx as [_ ?].
Qed.

Lemma extractMax_consistent q v q' :
  index_consistent q → PQ.extractMax q = Ret (v, q') → index_consistent q'.
Proof.
  intros Hq Hrun. destruct q as [a m].
  destruct a as [|top rest].
  { rewrite extractMax_empty in Hrun by done. by injection Hrun as _ <-. }
  destruct (last rest) as [moved|] eqn:Hlast.
  - apply last_Some in Hlast as [mid ->].
    rewrite extractMax_many in Hrun.
    destruct (PQ.sinkDown _ _) as [q2| |] eqn:Hdown; [|done..].
    injection Hrun as _ <-.
    eapply (sinkDown_loop_consistent _ _ 0); [done| |done].
    assert (len (top :: mid ++ [moved]) = len mid + 2) as Hlen
      by (unfold len; simpl; rewrite length_app; simpl; lia).
    pose proof (len_nonneg mid) as Hmid.
    assert (at_index (top :: mid ++ [moved]) 0 = Some top) as Htop by done.
    assert (at_index (top :: mid ++ [moved]) (len mid + 1) = Some moved) as Hmoved.
    { unfold at_index, len. rewrite decide_True by lia.
      replace (Z.to_nat (Z.of_nat (length mid) + 1)) with (S (length mid)) by lia.
      simpl. by apply list_lookup_middle. }
    assert (∀ k, 1 <= k < len mid + 1 →
              at_index (moved :: mid) k = at_index (top :: mid ++ [moved]) k) as Hsame.
    { intros k Hk. unfold at_index. rewrite !decide_True by lia.
      replace (Z.to_nat k) with (S (Z.to_nat (k - 1))) by lia. simpl.
      rewrite lookup_app_l; [done|]. unfold len in Hk. lia. }
    pose proof Hq as [Hfwd Hbwd]. simpl in Hfwd, Hbwd. split; simpl.
    + intros k x Hk.
      destruct (decide (k = 0)) as [->|Hk0].
      { injection Hk as <-. by rewrite lookup_insert_eq. }
      pose proof (at_index_Some _ _ _ Hk) as Hr.
      assert (len (moved :: mid) = len mid + 1) as Hl1 by (unfold len; simpl; lia).
      rewrite Hsame in Hk by lia.
      assert (_id x ≠ _id moved).
      { intros E. pose proof (index_consistent_inj _ _ _ _ _ Hq Hk Hmoved E). lia. }
      assert (_id x ≠ _id top).
      { intros E. pose proof (index_consistent_inj _ _ _ _ _ Hq Hk Htop E). lia. }
      rewrite lookup_insert_ne by done. rewrite lookup_delete_ne by done.
      by apply Hfwd.
    + intros id k Hk.
      destruct (decide (id = _id moved)) as [->|Hne].
      { rewrite lookup_insert_eq in Hk. injection Hk as <-. by exists moved. }
      rewrite lookup_insert_ne in Hk by done.
      destruct (decide (id = _id top)) as [->|Hnt].
      { by rewrite lookup_delete_eq in Hk. }
      rewrite lookup_delete_ne in Hk by done.
      destruct (Hbwd id k Hk) as (x & Hx & Hid). exists x. split; [|done].
      pose proof (at_index_Some _ _ _ Hx) as Hr.
      assert (k ≠ 0) by (intros ->; congruence).
      assert (k ≠ len mid + 1) by (intros ->; congruence).
      rewrite Hsame by lia. done.
  - apply last_None in Hlast as ->. rewrite extractMax_single in Hrun.
    injection Hrun as _ <-. destruct Hq as [Hfwd Hbwd]. simpl in *.
    split; simpl.
    + intros k x Hk. apply at_index_Some in Hk. unfold len in Hk. simpl in Hk. lia.
    + intros id k Hk.
      destruct (decide (id = _id top)) as [->|Hnt].
      { by rewrite lookup_delete_eq in Hk. }
      rewrite lookup_delete_ne in Hk by done.
      destruct (Hbwd id k Hk) as (x & Hx & Hid).
      pose proof (at_index_Some _ _ _ Hx) as Hr. unfold len in Hr. simpl in Hr.
      assert (k = 0) as -> by lia. injection Hx as <-. done.
Qed.

Lemma index_consistent_new : index_consistent PQ.new.
Proof.
  split; simpl.
  - intros i r H. apply at_index_Some in H. unfold len in H. simpl in H. lia.
  - intros id i H. by rewrite lookup_empty in H.
Qed.

(** * The claims *)

(** The worked example of the design document: A, B and C are inserted and
    score 70, 25 and 71; [extractMax] returns C and leaves two entries with
    A at the root; removing B then leaves A alone, at position 0 and found
    through its id. *)
Example worked_example :
  ∃ q1 q2 q3,
    run [Insert 600000 request_A; Insert 600000 request_B;
         Insert 600000 request_C] PQ.new = Ret q1 ∧
    (priorityScore <$> PQ.heap q1) = [(7100 # 100)%Q; (2500 # 100)%Q; (7000 # 100)%Q] ∧
    PQ.extractMax q1 = Ret (Obj (PQ.rescore 600000 request_C), q2) ∧
    PQ.size q2 = 2 ∧
    PQ.peek q2 = Obj (PQ.rescore 600000 request_A) ∧
    PQ.removeById q2 "B" = Ret (Obj (PQ.rescore 600000 request_B), q3) ∧
    PQ.heap q3 = [PQ.rescore 600000 request_A] ∧
    PQ.requestMap q3 = {[ "A" := 0 ]}.
Proof.
  eexists _, _, _. split; [vm_compute; reflexivity|].
  split; [vm_compute; reflexivity|].
  split; [vm_compute; reflexivity|].
  split; [done|]. split; [done|].
  split; [vm_compute; reflexivity|].
  split; [done|]. by vm_compute.
Qed.

(** ** The identifier index *)

(** C1 (the code departs from it): the index does not stay a two-way
    description of the array under [removeById].  After inserting the
    requests A, B and C of the worked example and removing B, the array is
    [C; A] while the index still sends A to position 2: [removeById] moves
    the last entry into the vacated position and, unlike [extractMax],
    records the new position only if a sift then moves the entry.  A later
    [updatePriority] of A dereferences [undefined] and throws.  ([insert]
    of an id not yet indexed and [extractMax] do keep the index exact:
    [insert_consistent], [extractMax_consistent].) *)
Theorem removeById_stale_index :
  let calls := [Insert 600000 request_A; Insert 600000 request_B;
                Insert 600000 request_C; RemoveById "B"] in
  ∃ q, run calls PQ.new = Ret q ∧
       _id <$> PQ.heap q = ["C"; "A"] ∧
       PQ.requestMap q !! "A" = Some 2 ∧
       ¬ index_consistent q ∧
       run (calls ++ [UpdatePriority 600000 "A"
                        (mkPartial None None None None None None)]) PQ.new
         = Throw TypeError.
Proof.
  eexists. split; [vm_compute; reflexivity|].
  split; [done|]. split; [done|]. split; [|done].
  intros [Hfwd _].
  specialize (Hfwd 1 (PQ.rescore 600000 request_A) eq_refl).
  vm_compute in Hfwd. discriminate.
Qed.

(** ** The priority function *)

Lemma Math_round_bounds x :
  (Math_round x <= x + (1 # 2))%Q ∧ (x - (1 # 2) < Math_round x)%Q.
Proof.
  unfold Math_round. split.
  - apply Qfloor_le.
  - pose proof (Qlt_floor (x + (1 # 2))) as H.
    rewrite inject_Z_plus in H. change (inject_Z 1) with 1%Q in H. lra.
Qed.

Lemma round_hundredths x y :
  (x == y)%Q → rounded_to_hundredths x (Math_round (y * 100) / 100).
Proof.
  intros Hxy. destruct (Math_round_bounds (y * 100)) as [Hup Hlo].
  split; [|split].
  - exists (Qfloor (y * 100 + (1 # 2))). reflexivity.
  - apply Qlt_shift_div_l; lra.
  - apply Qle_shift_div_r; lra.
Qed.

Lemma waiting_clamped createdAt now :
  (now <= createdAt)%Z → (Qmax 0 (minutes_elapsed createdAt now) == 0)%Q.
Proof.
  intros H. apply Q.max_l. unfold minutes_elapsed.
  apply Qle_shift_div_r; [lra|]. rewrite Qmult_0_l.
  change 0%Q with (inject_Z 0). rewrite <- Zle_Qle. lia.
Qed.

Lemma waiting_elapsed createdAt now :
  (createdAt <= now)%Z →
  (Qmax 0 (minutes_elapsed createdAt now) == minutes_elapsed createdAt now)%Q.
Proof.
  intros H. apply Q.max_r. unfold minutes_elapsed.
  apply Qle_shift_div_l; [lra|]. rewrite Qmult_0_l.
  change 0%Q with (inject_Z 0). rewrite <- Zle_Qle. lia.
Qed.

(** *** Double arithmetic *)

Lemma pow2_pos k : (0 < B64.pow2 k)%Q.
Proof. apply Qpower_0_lt. reflexivity. Qed.

Lemma pow2_add a b : (B64.pow2 (a + b) == B64.pow2 a * B64.pow2 b)%Q.
Proof. apply Qpower_plus. discriminate. Qed.

Lemma pow2_Z k : (0 <= k)%Z → (B64.pow2 k == inject_Z (2 ^ k))%Q.
Proof. intros H. unfold B64.pow2. rewrite Zpower_Qpower by done. reflexivity. Qed.

(** [exponent] is the binary exponent: [2^e <= x < 2^(e+1)]. *)
Lemma exponent_le x : (0 < x)%Q → (B64.pow2 (B64.exponent x) <= x)%Q.
Proof.
  intros Hx. unfold B64.exponent.
  set (e := (Z.log2 (Qnum x) - Z.log2 (Z.pos (Qden x)))%Z).
  destruct (Qle_bool (B64.pow2 e) x) eqn:E; [by apply Qle_bool_iff|].
  destruct x as [n d]. cbn [Qnum Qden] in e.
  assert (0 < n)%Z as Hn. { unfold Qlt in Hx. simpl in Hx. lia. }
  destruct (Z.log2_spec n Hn) as [Hn1 _].
  destruct (Z.log2_spec (Z.pos d) ltac:(lia)) as [_ Hd2].
  pose proof (Z.log2_nonneg n) as Hln.
  pose proof (Z.log2_nonneg (Z.pos d)) as Hld.
  replace (e - 1)%Z with (Z.log2 n + - (Z.succ (Z.log2 (Z.pos d))))%Z
    by (unfold e; lia).
  rewrite pow2_add. unfold B64.pow2 at 2. rewrite Qpower_opp.
  fold (B64.pow2 (Z.succ (Z.log2 (Z.pos d)))).
  rewrite !pow2_Z by lia.
  set (A := (2 ^ Z.log2 n)%Z) in *.
  set (C := (2 ^ Z.succ (Z.log2 (Z.pos d)))%Z) in *.
  assert (0 < C)%Z as HC by lia.
  assert (0 < inject_Z C)%Q as HCq.
  { change 0%Q with (inject_Z 0). by rewrite <- Zlt_Qlt. }
  apply Qle_shift_div_r; [done|].
  rewrite (Qmake_Qdiv n d).
  unfold Qdiv. rewrite <- Qmult_assoc, (Qmult_comm (/ _)), Qmult_assoc.
  apply Qle_shift_div_l; [reflexivity|].
  rewrite <- !inject_Z_mult, <- Zle_Qle. nia.
Qed.

Lemma exponent_lt x : (0 < x)%Q → (x < B64.pow2 (B64.exponent x + 1))%Q.
Proof.
  intros Hx. unfold B64.exponent.
  set (e := (Z.log2 (Qnum x) - Z.log2 (Z.pos (Qden x)))%Z).
  destruct (Qle_bool (B64.pow2 e) x) eqn:E.
  - destruct x as [n d]. cbn [Qnum Qden] in e.
    assert (0 < n)%Z as Hn. { unfold Qlt in Hx. simpl in Hx. lia. }
    destruct (Z.log2_spec n Hn) as [_ Hn2].
    destruct (Z.log2_spec (Z.pos d) ltac:(lia)) as [Hd1 _].
    pose proof (Z.log2_nonneg n) as Hln.
    pose proof (Z.log2_nonneg (Z.pos d)) as Hld.
    replace (e + 1)%Z with (Z.succ (Z.log2 n) + - Z.log2 (Z.pos d))%Z
      by (unfold e; lia).
    rewrite pow2_add. unfold B64.pow2 at 2. rewrite Qpower_opp.
    fold (B64.pow2 (Z.log2 (Z.pos d))).
    rewrite !pow2_Z by lia.
    set (A := (2 ^ Z.succ (Z.log2 n))%Z) in *.
    set (C := (2 ^ Z.log2 (Z.pos d))%Z) in *.
    assert (0 < C)%Z as HC by (unfold C; lia).
    assert (0 < inject_Z C)%Q as HCq.
    { change 0%Q with (inject_Z 0). by rewrite <- Zlt_Qlt. }
    apply Qlt_shift_div_l; [done|].
    rewrite (Qmake_Qdiv n d).
    unfold Qdiv. rewrite <- Qmult_assoc, (Qmult_comm (/ _)), Qmult_assoc.
    apply Qlt_shift_div_r; [reflexivity|].
    rewrite <- !inject_Z_mult, <- Zlt_Qlt. nia.
  - replace (e - 1 + 1)%Z with e by lia.
    apply Qnot_le_lt. intros H. apply Qle_bool_iff in H. congruence.
Qed.

Lemma nearest_even_bounds m :
  (m - (1 # 2) <= inject_Z (B64.nearest_even m))%Q ∧
  (inject_Z (B64.nearest_even m) <= m + (1 # 2))%Q.
Proof.
  unfold B64.nearest_even.
  pose proof (Qfloor_le m) as Hlo. pose proof (Qlt_floor m) as Hhi.
  rewrite inject_Z_plus in Hhi. change (inject_Z 1) with 1%Q in Hhi.
  destruct (Qcompare_spec (m - inject_Z (Qfloor m)) (1 # 2)) as [He|Hl|Hg].
  - destruct (Z.even (Qfloor m)).
    + split; lra.
    + rewrite inject_Z_plus. change (inject_Z 1) with 1%Q. split; lra.
  - split; lra.
  - rewrite inject_Z_plus. change (inject_Z 1) with 1%Q. split; lra.
Qed.

Lemma nearest_even_nonneg m : (0 <= m)%Q → (0 <= B64.nearest_even m)%Z.
Proof.
  intros Hm. unfold B64.nearest_even.
  assert (0 <= Qfloor m)%Z as Hf.
  { change 0%Z with (Qfloor 0). by apply Qfloor_resp_le. }
  destruct (_ ?= _)%Q; [destruct (Z.even _)|..]; lia.
Qed.

Lemma nearest_even_nonpos m : (m <= 0)%Q → (B64.nearest_even m <= 0)%Z.
Proof.
  intros Hm. unfold B64.nearest_even.
  pose proof (Qfloor_le m) as Hlo. pose proof (Qlt_floor m) as Hhi.
  rewrite inject_Z_plus in Hhi. change (inject_Z 1) with 1%Q in Hhi.
  assert (Qfloor m <= 0)%Z as Hf.
  { change 0%Z with (Qfloor 0). by apply Qfloor_resp_le. }
  destruct (Qcompare_spec (m - inject_Z (Qfloor m)) (1 # 2)) as [He|Hl|Hg].
  - destruct (Z.even (Qfloor m)); [lia|].
    destruct (decide (Qfloor m = 0)) as [E0|]; [|lia].
    rewrite E0 in He. change (inject_Z 0) with 0%Q in He. lra.
  - lia.
  - destruct (decide (Qfloor m = 0)) as [E0|]; [|lia].
    rewrite E0 in Hg. change (inject_Z 0) with 0%Q in Hg. lra.
Qed.

Lemma ulp_pos x : (0 < B64.ulp x)%Q.
Proof. apply pow2_pos. Qed.

Lemma round_unfold x :
  ¬ (x == 0)%Q →
  (B64.round x
   == inject_Z (B64.nearest_even (Qred x / B64.ulp (Qred x))) * B64.ulp (Qred x))%Q.
Proof.
  intros Hx. unfold B64.round.
  destruct (Qeq_bool (Qred x) 0) eqn:E.
  - apply Qeq_bool_iff in E. rewrite Qred_correct in E. done.
  - by rewrite Qred_correct.
Qed.

(** Equal rationals round to the same double. *)
Lemma round_comp x y : (x == y)%Q → B64.round x = B64.round y.
Proof. intros H. unfold B64.round. by rewrite (Qred_complete x y H). Qed.

Lemma round_0 x : (x == 0)%Q → B64.round x = 0%Q.
Proof. intros H. by rewrite (round_comp x 0 H). Qed.

(** Rounding keeps the sign. *)
Lemma round_nonneg x : (0 <= x)%Q → (0 <= B64.round x)%Q.
Proof.
  intros Hx. destruct (Qeq_dec x 0) as [E|E]; [by rewrite (round_0 _ E)|].
  rewrite (round_unfold x E).
  apply Qmult_le_0_compat; [|apply Qlt_le_weak, ulp_pos].
  change 0%Q with (inject_Z 0). rewrite <- Zle_Qle. apply nearest_even_nonneg.
  apply Qle_shift_div_l; [apply ulp_pos|].
  pose proof (Qred_correct x). lra.
Qed.

Lemma round_nonpos x : (x <= 0)%Q → (B64.round x <= 0)%Q.
Proof.
  intros Hx. destruct (Qeq_dec x 0) as [E|E]; [by rewrite (round_0 _ E)|].
  rewrite (round_unfold x E).
  pose proof (ulp_pos (Qred x)) as Hu.
  assert (inject_Z (B64.nearest_even (Qred x / B64.ulp (Qred x))) <= 0)%Q as Hn.
  { change 0%Q with (inject_Z 0). rewrite <- Zle_Qle. apply nearest_even_nonpos.
    apply Qle_shift_div_r; [done|]. pose proof (Qred_correct x). lra. }
  set (n := inject_Z _) in *. nra.
Qed.

Lemma Qabs_nonneg_eq x : (0 <= x)%Q → Qabs x = x.
Proof.
  destruct x as [n d]. unfold Qle, Qabs. simpl. intros H.
  f_equal. apply Z.abs_eq. lia.
Qed.

Lemma ulp_le x :
  (B64.pow2 (-1022) <= x)%Q → (B64.ulp x <= 2 * u64 * x)%Q.
Proof.
  intros Hx. pose proof (pow2_pos (-1022)) as Hp.
  assert (0 < x)%Q as Hpos by lra.
  unfold B64.ulp. rewrite Qabs_nonneg_eq by lra.
  replace (Z.max (B64.exponent x) (-1022) - 52)%Z
    with (Z.max (B64.exponent x) (-1022) + -52)%Z by lia.
  rewrite pow2_add.
  assert (B64.pow2 (Z.max (B64.exponent x) (-1022)) <= x)%Q as Hm.
  { destruct (Z.max_spec (B64.exponent x) (-1022)) as [[_ ->]|[_ ->]];
      [done|by apply exponent_le]. }
  assert (B64.pow2 (-52) == 2 * u64)%Q as -> by reflexivity.
  pose proof (pow2_pos (Z.max (B64.exponent x) (-1022))) as Hq.
  unfold u64 in *. nra.
Qed.

(** One rounding changes a positive number that is not below the normal
    range by at most the unit roundoff, relatively. *)
Lemma round_error x :
  (B64.pow2 (-1022) <= x)%Q →
  (x * (1 - u64) <= B64.round x)%Q ∧ (B64.round x <= x * (1 + u64))%Q.
Proof.
  intros Hx. pose proof (pow2_pos (-1022)) as Hp.
  assert (¬ x == 0)%Q as Hne by lra.
  rewrite (round_unfold x Hne).
  set (y := Qred x). assert (y == x)%Q as Hy by apply Qred_correct.
  pose proof (ulp_pos y) as Hu.
  pose proof (ulp_le y ltac:(lra)) as Hle.
  destruct (nearest_even_bounds (y / B64.ulp y)) as [Hlo Hhi].
  set (n := inject_Z (B64.nearest_even (y / B64.ulp y))) in *.
  assert (y / B64.ulp y * B64.ulp y == y)%Q as Hm.
  { field. lra. }
  set (m := (y / B64.ulp y)%Q) in *.
  unfold u64 in *. split; nra.
Qed.

Lemma tiny_small : (B64.pow2 (-1022) <= 1 # 1000000)%Q.
Proof. apply Qle_bool_iff. by vm_compute. Qed.

(** [round] against the Standard Library's specification of IEEE 754
    binary64: the quotient of two small integers, as [SFdiv] rounds it, is
    [round] of the exact quotient. *)
Example round_agrees_with_SpecFloat :
  Forall (λ '(n, d),
            SF2Q (SFdiv 53 1024 (SF_of_Z n) (SF_of_Z (Z.pos d)))
            = Some (B64.round (n # d)))
    [(1, 10%positive); (1, 3%positive); (2, 3%positive); (-7, 3%positive);
     (51000, 60000%positive); (9000, 60000%positive); (1, 60000%positive);
     (7008, 100%positive); (7009, 100%positive); (7019, 100%positive);
     (7100, 100%positive); (100000000000, 60000%positive);
     (9007199254740991, 1024%positive); (3, 1%positive)].
Proof. repeat constructor; by vm_compute. Qed.

Lemma WAITING_TIME_value :
  B64.WEIGHTS.WAITING_TIME = (3602879701896397 # 36028797018963968)%Q.
Proof. by vm_compute. Qed.

Lemma calculatePriority_waiting_term now v u t :
  B64.calculatePriority now v u t
  = B64.div (Math_round (B64.mul (B64.add (B64.add (B64.mul v 5) (B64.mul u 10))
                                          (waiting_term t now)) 100)) 100.
Proof. reflexivity. Qed.

(** Up to the creation instant the waiting term is the number zero. *)
Lemma waiting_term_clamped t now : (now <= t)%Z → waiting_term t now = 0%Q.
Proof.
  intros H. unfold waiting_term, B64.mul, B64.div, B64.sub.
  apply round_0.
  set (ms := B64.round (inject_Z now - inject_Z t)).
  assert (ms <= 0)%Q as Hms.
  { apply round_nonpos. rewrite Zle_Qle in H. lra. }
  assert (B64.round (ms / 60000) <= 0)%Q as Hq.
  { apply round_nonpos. apply Qle_shift_div_r; lra. }
  rewrite (Q.max_l _ _ Hq). ring.
Qed.

(** From the creation instant on, and for [10^11] ms, the waiting term is
    the exact one up to its four roundings. *)
Lemma waiting_term_error t now :
  (t <= now)%Z → (now - t <= 100000000000)%Z →
  let W := (minutes_elapsed t now * (1 # 10))%Q in
  (W - (1 # 10000000000) <= waiting_term t now)%Q ∧
  (waiting_term t now <= W + (1 # 10000000000))%Q ∧
  (0 <= waiting_term t now)%Q.
Proof.
  intros Hle Hd W.
  destruct (decide (now = t)) as [->|Hne].
  { rewrite waiting_term_clamped by lia. unfold W, minutes_elapsed.
    rewrite Z.sub_diag. change (inject_Z 0) with 0%Q.
    split; [|split]; [unfold Qdiv; lra..|lra]. }
  unfold waiting_term, B64.mul, B64.div, B64.sub. rewrite WAITING_TIME_value.
  pose proof tiny_small as Htiny.
  assert (inject_Z now - inject_Z t == inject_Z (now - t))%Q as Hd0.
  { unfold Zminus. rewrite inject_Z_plus, inject_Z_opp. ring. }
  rewrite (round_comp _ _ Hd0).
  set (d := inject_Z (now - t)) in *.
  assert (1 <= d)%Q as Hd1.
  { unfold d. change 1%Q with (inject_Z 1). rewrite <- Zle_Qle. lia. }
  assert (d <= 100000000000)%Q as Hd2.
  { unfold d. change 100000000000%Q with (inject_Z 100000000000).
    rewrite <- Zle_Qle. lia. }
  destruct (round_error d ltac:(lra)) as [Hms1 Hms2].
  set (ms := B64.round d) in *.
  assert (ms / 60000 == ms * (1 # 60000))%Q as Hdiv by (unfold Qdiv; reflexivity).
  rewrite (round_comp _ _ Hdiv).
  unfold u64 in *.
  destruct (round_error (ms * (1 # 60000)) ltac:(lra)) as [Hq1 Hq2].
  set (q := B64.round (ms * (1 # 60000))) in *. unfold u64 in *.
  assert (0 <= q)%Q as Hq0 by lra.
  assert (Qmax 0 q * (3602879701896397 # 36028797018963968)
          == q * (3602879701896397 # 36028797018963968))%Q as Hmax.
  { rewrite (Q.max_r _ _ Hq0). reflexivity. }
  rewrite (round_comp _ _ Hmax).
  destruct (round_error (q * (3602879701896397 # 36028797018963968)) ltac:(lra))
    as [Hw1 Hw2].
  set (w := B64.round (q * (3602879701896397 # 36028797018963968))) in *.
  unfold u64 in *.
  assert (W == d * (1 # 600000))%Q as HW.
  { unfold W, minutes_elapsed. fold d. unfold Qdiv.
    change (/ 60000)%Q with (1 # 60000)%Q. ring. }
  split; [|split]; lra.
Qed.

Lemma waiting_term_bounds t now :
  (now - t <= 100000000000)%Z →
  let W := (Qmax 0 (minutes_elapsed t now) * (1 # 10))%Q in
  (W - (1 # 10000000000) <= waiting_term t now)%Q ∧
  (waiting_term t now <= W + (1 # 10000000000))%Q ∧
  (0 <= waiting_term t now)%Q ∧ (0 <= W)%Q ∧ (W <= 166667)%Q.
Proof.
  intros Hd W. destruct (Z.le_ge_cases now t) as [Hle|Hge].
  - rewrite waiting_term_clamped by done.
    pose proof (waiting_clamped t now Hle) as Hm. unfold W. lra.
  - destruct (waiting_term_error t now Hge Hd) as (H1 & H2 & H3).
    pose proof (waiting_elapsed t now Hge) as Hm.
    assert (0 <= minutes_elapsed t now)%Q as Hm0.
    { rewrite <- Hm. apply Q.le_max_l. }
    assert (minutes_elapsed t now <= 1666667)%Q as Hm1.
    { unfold minutes_elapsed. apply Qle_shift_div_r; [reflexivity|].
      change (1666667 * 60000)%Q with (inject_Z 100000020000).
      rewrite <- Zle_Qle. lia. }
    cbv zeta in H1, H2. unfold W. lra.
Qed.

(** For scores from 1 to 5 and a wait of at most [10^11] ms, the result is
    the double of a whole number of hundredths that lies within half a
    hundredth, and the rounding error, of the exact score. *)
Lemma calculatePriority_accuracy now v u t :
  (1 <= v)%Q → (v <= 5)%Q → (1 <= u)%Q → (u <= 5)%Q →
  (now - t <= 100000000000)%Z →
  ∃ k : Z,
    B64.calculatePriority now v u t = B64.round (inject_Z k / 100) ∧
    (exact_score now v u t - (1 # 200) - (1 # 2000000000) <= inject_Z k / 100)%Q ∧
    (inject_Z k / 100 <= exact_score now v u t + (1 # 200) + (1 # 2000000000))%Q ∧
    (exact_score now v u t - (1 # 200) - (1 # 1000000000)
       <= B64.calculatePriority now v u t)%Q ∧
    (B64.calculatePriority now v u t
       <= exact_score now v u t + (1 # 200) + (1 # 1000000000))%Q.
Proof.
  intros Hv1 Hv5 Hu1 Hu5 Hd.
  rewrite calculatePriority_waiting_term. unfold exact_score.
  destruct (waiting_term_bounds t now Hd) as (Hw1 & Hw2 & Hw0 & HW0 & HW1).
  cbv zeta in Hw1, Hw2, HW0, HW1.
  set (W := (Qmax 0 (minutes_elapsed t now) * (1 # 10))%Q) in *.
  set (w := waiting_term t now) in *.
  pose proof tiny_small as Htiny.
  unfold B64.add, B64.mul, B64.div.
  destruct (round_error (v * 5) ltac:(lra)) as [Ha1 Ha2].
  set (a := B64.round (v * 5)) in *.
  destruct (round_error (u * 10) ltac:(lra)) as [Hb1 Hb2].
  set (b := B64.round (u * 10)) in *. unfold u64 in *.
  destruct (round_error (a + b) ltac:(lra)) as [Hs1 Hs2].
  set (s := B64.round (a + b)) in *. unfold u64 in *.
  destruct (round_error (s + w) ltac:(lra)) as [Hp1 Hp2].
  set (p := B64.round (s + w)) in *. unfold u64 in *.
  destruct (round_error (p * 100) ltac:(lra)) as [Hm1 Hm2].
  set (m := B64.round (p * 100)) in *. unfold u64 in *.
  destruct (Math_round_bounds m) as [Hk1 Hk2].
  exists (Qfloor (m + (1 # 2))). fold (Math_round m).
  set (k := Math_round m) in *.
  assert (k / 100 == k * (1 # 100))%Q as Hdiv by (unfold Qdiv; reflexivity).
  rewrite (round_comp (k / 100) _ Hdiv).
  destruct (round_error (k * (1 # 100)) ltac:(lra)) as [Hr1 Hr2].
  set (r := B64.round (k * (1 # 100))) in *. unfold u64 in *.
  split; [done|]. rewrite Hdiv.
  split; [lra|]. split; [lra|]. split; lra.
Qed.

(** Away from a tie, the result is the double of the exact score rounded
    to two decimal places. *)
Lemma calculatePriority_away_from_ties now v u t y :
  (1 <= v)%Q → (v <= 5)%Q → (1 <= u)%Q → (u <= 5)%Q →
  (now - t <= 100000000000)%Z →
  rounded_to_hundredths (exact_score now v u t) y →
  (Qabs (y - exact_score now v u t) <= (1 # 200) - (1 # 1000000000))%Q →
  B64.calculatePriority now v u t = B64.round y.
Proof.
  intros Hv1 Hv5 Hu1 Hu5 Hd [[j Hj] _] Hfar.
  destruct (calculatePriority_accuracy now v u t Hv1 Hv5 Hu1 Hu5 Hd)
    as (k & -> & Hk1 & Hk2 & _).
  apply round_comp. rewrite Hj.
  apply Qabs_Qle_condition in Hfar as [Hf1 Hf2].
  set (E := exact_score now v u t) in *.
  assert (k = j) as ->; [|reflexivity].
  unfold Qdiv in *. change (/ 100)%Q with (1 # 100)%Q in *.
  assert (inject_Z (k - j) < inject_Z 1)%Q as Hlt.
  { unfold Zminus. rewrite inject_Z_plus, inject_Z_opp.
    change (inject_Z 1) with 1%Q. lra. }
  assert (inject_Z (-1) < inject_Z (k - j))%Q as Hgt.
  { unfold Zminus. rewrite inject_Z_plus, inject_Z_opp.
    change (inject_Z (-1)) with (-1 # 1)%Q. lra. }
  rewrite <- Zlt_Qlt in Hlt, Hgt. lia.
Qed.

(** The idealised score of the queue and the double that the source
    computes differ by at most one hundredth and the rounding error. *)
Lemma calculatePriority_idealised now v u t :
  (1 <= v)%Q → (v <= 5)%Q → (1 <= u)%Q → (u <= 5)%Q →
  (now - t <= 100000000000)%Z →
  (Qabs (B64.calculatePriority now v u t - calculatePriority now v u t)
     <= (1 # 100) + (1 # 1000000000))%Q.
Proof.
  intros Hv1 Hv5 Hu1 Hu5 Hd.
  destruct (calculatePriority_accuracy now v u t Hv1 Hv5 Hu1 Hu5 Hd)
    as (k & _ & _ & _ & Hr1 & Hr2).
  destruct (round_hundredths (exact_score now v u t) (exact_score now v u t)
              ltac:(reflexivity)) as (_ & Hi1 & Hi2).
  change (Math_round (exact_score now v u t * 100) / 100)%Q
    with (calculatePriority now v u t) in Hi1, Hi2.
  apply Qabs_Qle_condition. split; lra.
Qed.

(** C2 as stated fails in double arithmetic.  With [v = 4], [u = 5],
    [createdAt = 0] and [now = 51000] the exact score is 70.085, which
    rounded to two decimal places is 70.09; the source returns the double
    of 70.08, which is not the double of any two-decimal rounding of the
    exact score. *)
Lemma calculatePriority_tie_rounds_down :
  rounded_to_hundredths (exact_score 51000 4 5 0) (7009 # 100) ∧
  B64.calculatePriority 51000 4 5 0 = B64.round (7008 # 100) ∧
  ¬ double_rounded_to_hundredths (exact_score 51000 4 5 0)
      (B64.calculatePriority 51000 4 5 0).
Proof.
  assert (exact_score 51000 4 5 0 == 70085 # 1000)%Q as HE by (by vm_compute).
  split; [|split].
  - split; [by exists 7009%Z|]. rewrite HE. split; [reflexivity|by vm_compute].
  - by vm_compute.
  - intros (y & [[j Hj] [H1 H2]] & Hr).
    rewrite HE in H1, H2. rewrite Hj in H1, H2.
    unfold Qdiv in H1, H2. change (/ 100)%Q with (1 # 100)%Q in H1, H2.
    assert (inject_Z 7008 < inject_Z j)%Q as Hlo.
    { change (inject_Z 7008) with 7008%Q. lra. }
    assert (inject_Z j < inject_Z 7010)%Q as Hhi.
    { change (inject_Z 7010) with 7010%Q. lra. }
    rewrite <- Zlt_Qlt in Hlo, Hhi.
    assert (j = 7009%Z) as -> by lia.
    rewrite (round_comp y (7009 # 100)) in Hr by (rewrite Hj; reflexivity).
    by vm_compute in Hr.
Qed.

(** C2, as amended.  In double arithmetic, for scores from 1 to 5 and a
    wait of at most [10^11] ms, [calculatePriority] returns the double of a
    whole number of hundredths that lies within half a hundredth (and
    [5e-10]) of [v*5 + u*10 + max(0, minutes elapsed)*0.1]; it is the
    double of that value rounded to two decimal places whenever the value
    is at least [1e-9] away from a tie.  For all inputs, up to the creation
    instant the waiting term is exactly 0 and the result is the one of the
    creation instant. *)
Theorem calculatePriority_in_doubles (now : Z) (v u : Q) (t : Z) :
  ((now <= t)%Z →
   waiting_term t now = 0%Q ∧
   B64.calculatePriority now v u t = B64.calculatePriority t v u t) ∧
  ((1 <= v <= 5)%Q → (1 <= u <= 5)%Q → (now - t <= 100000000000)%Z →
   (∃ k : Z,
      B64.calculatePriority now v u t = B64.round (inject_Z k / 100) ∧
      (Qabs (inject_Z k / 100 - exact_score now v u t)
         <= (1 # 200) + (1 # 2000000000))%Q) ∧
   (∀ y, rounded_to_hundredths (exact_score now v u t) y →
         (Qabs (y - exact_score now v u t) <= (1 # 200) - (1 # 1000000000))%Q →
         B64.calculatePriority now v u t = B64.round y)).
Proof.
  split.
  - intros Hle. split; [by apply waiting_term_clamped|].
    rewrite !calculatePriority_waiting_term.
    by rewrite (waiting_term_clamped t now Hle),
               (waiting_term_clamped t t ltac:(lia)).
  - intros [Hv1 Hv5] [Hu1 Hu5] Hd. split.
    + destruct (calculatePriority_accuracy now v u t Hv1 Hv5 Hu1 Hu5 Hd)
        as (k & Hk & Hk1 & Hk2 & _).
      exists k. split; [done|]. apply Qabs_Qle_condition. split; lra.
    + intros y. by apply calculatePriority_away_from_ties.
Qed.

Lemma calculatePriority_in_doubles_witness :
  (waiting_term 600000 0 = 0%Q ∧
   B64.calculatePriority 0 4 5 600000 = B64.calculatePriority 600000 4 5 600000) ∧
  B64.calculatePriority 600000 4 5 0 = B64.round 71.
Proof.
  split.
  - apply (calculatePriority_in_doubles 0 4 5 600000). lia.
  - refine (proj2 (proj2 (calculatePriority_in_doubles 600000 4 5 0) _ _ _) 71%Q _ _).
    + split; by vm_compute.
    + split; by vm_compute.
    + lia.
    + split; [by exists 7100%Z|]. split; by vm_compute.
    + by vm_compute.
Defined.

(** ** The heap *)

(** C3: after any run of [insert] calls on a new queue, [peek] returns the
    entry at the root of the array, and no entry of the array has a higher
    [priorityScore]; the array holds exactly the inserted requests, each
    with the score computed at its insertion.  ([peek] is [null] only when
    nothing was inserted.) *)
Theorem peek_after_inserts (items : list (Z * Entry)) :
  ∃ q, insert_all items PQ.new = Ret q ∧
       PQ.heap q ≡ₚ scored <$> items ∧
       match PQ.peek q with
       | Obj top =>
           at_index (PQ.heap q) 0 = Some top ∧
           ∀ e, e ∈ PQ.heap q → (priorityScore e <= priorityScore top)%Q
       | Null => items = []
       | Undefined => False
       end.
Proof.
  destruct (insert_all_heap items PQ.new max_heap_nil) as (q & Hq & Hh & Hp).
  simpl in Hp. rewrite app_nil_r in Hp.
  exists q. split; [done|]. split; [done|].
  unfold PQ.peek. case_decide as Hlen.
  - destruct (at_index_lt (PQ.heap q) 0) as [top Htop]; [lia|].
    rewrite Htop. simpl. split; [done|]. by apply max_heap_root.
  - assert (PQ.heap q = []) as Hnil.
    { apply nil_length_inv. unfold len in Hlen. lia. }
    rewrite Hnil in Hp. apply Permutation_nil_l in Hp.
    symmetry in Hp. by apply fmap_nil_inv in Hp.
Qed.

(** C4: [n] calls of [insert] on a new queue followed by [n] calls of
    [extractMax] return [n] requests, which are the inserted ones with
    their stored scores, in non-increasing order of [priorityScore]. *)
Theorem extractMax_after_inserts (items : list (Z * Entry)) :
  ∃ q out q',
    insert_all items PQ.new = Ret q ∧
    extract_all (length items) q = Ret (Obj <$> out, q') ∧
    out ≡ₚ scored <$> items ∧
    non_increasing out.
Proof.
  destruct (insert_all_heap items PQ.new max_heap_nil) as (q & Hq & Hh & Hp).
  simpl in Hp. rewrite app_nil_r in Hp.
  destruct (extract_all_sorted (length items) q Hh) as (out & q' & Hx & Hs & Hpo & _).
  { apply Permutation_length in Hp. by rewrite Hp, length_fmap. }
  exists q, out, q'. split; [done|]. split; [done|]. split; [|done].
  by rewrite Hpo.
Qed.

(** C5 (the code departs from it): [loadFromArray] replaces the array but
    not the index.  On a queue holding request A, loading the single
    request B leaves the id of A in the index, at position 0, where B now
    sits; a later [removeById] of A hands back B and empties the array.
    Loading no request at all empties the array of any queue and leaves
    its whole index in place. *)
Theorem loadFromArray_keeps_old_ids :
  (∃ q0 q, PQ.insert 600000 PQ.new request_A = Ret (PQ.rescore 600000 request_A, q0) ∧
           PQ.loadFromArray 600000 q0 [request_B] = Ret q ∧
           PQ.heap q = [PQ.rescore 600000 request_B] ∧
           PQ.requestMap q !! "A" = Some 0 ∧
           PQ.removeById q "A" =
             Ret (Obj (PQ.rescore 600000 request_B),
                  {| PQ.heap := []; PQ.requestMap := delete "A" (PQ.requestMap q) |})) ∧
  (∀ now q, PQ.loadFromArray now q [] =
            Ret {| PQ.heap := []; PQ.requestMap := PQ.requestMap q |}).
Proof.
  split; [|done].
  eexists _, _. split; [vm_compute; reflexivity|].
  split; [vm_compute; reflexivity|]. done.
Qed.

(** What does hold of the array, on every queue: it becomes the given
    requests, freshly scored, in max-heap order. *)
Lemma loadFromArray_heap now q requests :
  ∃ q', PQ.loadFromArray now q requests = Ret q' ∧
        max_heap (PQ.heap q') ∧
        PQ.heap q' ≡ₚ PQ.rescore now <$> requests.
Proof.
  unfold PQ.loadFromArray.
  destruct (buildHeap_heap
              {| PQ.heap := PQ.rescore now <$> requests;
                 PQ.requestMap := PQ.requestMap q |})
    as (q' & m & Hq' & Hh & Hp & _).
  by exists q'.
Qed.

(** C6: on a queue whose array is empty, [extractMax] and [peek] return
    [null]; nothing is thrown and the queue is left as it was. *)
Theorem empty_queue_reports_null (q : PQ.t) :
  PQ.heap q = [] →
  PQ.extractMax q = Ret (Null, q) ∧ PQ.peek q = Null.
Proof.
  intros H. split; [by apply extractMax_empty|].
  unfold PQ.peek. by rewrite H.
Qed.

Lemma empty_queue_reports_null_witness :
  PQ.extractMax PQ.new = Ret (Null, PQ.new) ∧ PQ.peek PQ.new = Null.
Proof. apply (empty_queue_reports_null PQ.new). reflexivity. Defined.

(** C7: for an id that the index does not hold, [removeById] returns [null]
    and leaves the queue as it was, array and index alike; so does
    [updatePriority]. *)
Theorem absent_id_reports_null (q : PQ.t) (requestId : string) :
  PQ.requestMap q !! requestId = None →
  PQ.removeById q requestId = Ret (Null, q) ∧
  ∀ now newRequest,
    PQ.updatePriority now q requestId newRequest = Ret (Null, q).
Proof.
  intros H. unfold PQ.removeById, PQ.updatePriority. by rewrite H.
Qed.

Lemma absent_id_reports_null_witness :
  PQ.removeById PQ.new "A" = Ret (Null, PQ.new) ∧
  ∀ now newRequest,
    PQ.updatePriority now PQ.new "A" newRequest = Ret (Null, PQ.new).
Proof. apply (absent_id_reports_null PQ.new "A"). reflexivity. Defined.

(** C8: with the clock held at [now], a second
    [recalculateAllPriorities] right after a first one returns the queue
    the first one produced: same array, same scores, same index. *)
Theorem recalculateAllPriorities_twice (now : Z) (q : PQ.t) :
  ∃ q1, PQ.recalculateAllPriorities now q = Ret q1 ∧
        PQ.recalculateAllPriorities now q1 = Ret q1.
Proof.
  unfold PQ.recalculateAllPriorities.
  destruct (buildHeap_heap
              {| PQ.heap := PQ.rescore now <$> PQ.heap q;
                 PQ.requestMap := PQ.requestMap q |})
    as (q1 & m & Hq1 & Hh & Hp & Hm).
  exists q1. split; [done|]. simpl in Hp.
  rewrite (rescore_fixed now _ _ Hp).
  destruct q1 as [a1 m1]. simpl in *. by apply (buildHeap_noop _ m).
Qed.

(** ** The two priority formulas *)

(** C9 (the code departs from it): the schema method and the utility
    function do not return equal scores.  One second after creation the
    method gives [15 + 1/600] where the function gives [15] (no rounding);
    ten minutes before creation the method gives [14] where the function
    gives [15] (no clamping). *)
Theorem priority_formulas_differ :
  let r := mkEntry "A" 1 1 0 0 "" in
  let early := mkEntry "A" 1 1 600000 0 "" in
  (priorityScore (ReliefRequest.calculatePriority 1000 r) == 15 + (1 # 600))%Q ∧
  (calculatePriority 1000 1 1 0 == 15)%Q ∧
  (priorityScore (ReliefRequest.calculatePriority 0 early) == 14)%Q ∧
  (calculatePriority 0 1 1 600000 == 15)%Q ∧
  ¬ (priorityScore (ReliefRequest.calculatePriority 1000 r)
     == calculatePriority 1000 1 1 0)%Q ∧
  ¬ (priorityScore (ReliefRequest.calculatePriority 0 early)
     == calculatePriority 0 1 1 600000)%Q.
Proof.
  repeat split; try reflexivity; intros H; vm_compute in H; discriminate.
Qed.

(** What does hold between the two: from the creation instant on, the
    utility function returns the score of the schema method rounded to two
    decimal places. *)
Lemma priority_formulas_agree_up_to_rounding (now : Z) (r : Entry) :
  (createdAt r <= now)%Z →
  rounded_to_hundredths
    (priorityScore (ReliefRequest.calculatePriority now r))
    (calculatePriority now (vulnerabilityScore r) (medicalUrgencyScore r)
       (createdAt r)).
Proof.
  intros H. apply round_hundredths. simpl.
  unfold WEIGHTS.VULNERABILITY, WEIGHTS.MEDICAL_URGENCY, WEIGHTS.WAITING_TIME.
  fold (minutes_elapsed (createdAt r) now).
  rewrite (waiting_elapsed _ _ H). reflexivity.
Qed.

Lemma priority_formulas_agree_up_to_rounding_witness :
  rounded_to_hundredths
    (priorityScore (ReliefRequest.calculatePriority 1000 (mkEntry "A" 1 1 0 0 "")))
    (calculatePriority 1000 1 1 0).
Proof.
  apply (priority_formulas_agree_up_to_rounding 1000 (mkEntry "A" 1 1 0 0 "")).
  simpl. lia.
Defined.

(** ** The class MaxHeap *)

(** C10: every call of [insert] on a [MaxHeap] throws a [TypeError]: the
    name [bubbleup] is not a property of the instance nor of the class, so
    the call never returns normally. *)
Theorem MaxHeap_insert_throws (this : MaxHeap.t) (request : Entry) :
  MaxHeap.insert this request = Throw TypeError ∧
  ∀ this', MaxHeap.insert this request ≠ Ret this'.
Proof. split; [done|]. intros this'. discriminate. Qed.

(** * Further properties of the queue *)

(** ** The sifts on any array *)

Lemma bubbleUp_loop_total fuel : ∀ q i,
  0 <= i < len (PQ.heap q) → (Z.to_nat i < fuel)%nat →
  ∃ q', PQ.bubbleUp_loop fuel q i = Ret q' ∧ PQ.heap q' ≡ₚ PQ.heap q.
Proof.
  induction fuel as [|fuel IH]; intros q i Hi Hfuel; [lia|].
  simpl. unfold PQ.hasParent. case_bool_decide as Hpar; [|by exists q].
  assert (0 <= PQ.getParentIndex i < i) as Hpi by index_arith.
  destruct (at_index_lt (PQ.heap q) (PQ.getParentIndex i)) as [p Hp]; [lia|].
  destruct (at_index_lt (PQ.heap q) i) as [c Hc]; [lia|].
  unfold PQ.parent. rewrite Hp, Hc. simpl.
  destruct (Qltb (priorityScore p) (priorityScore c)); [|by exists q].
  destruct (swap_Ret q (PQ.getParentIndex i) i)
    as (q1 & -> & Hm1 & Hl1 & Hp1 & Hs1); [lia..|].
  simpl.
  destruct (IH (PQ.updateMapIndices q1 (PQ.getParentIndex i) i)
              (PQ.getParentIndex i)) as (q' & Hq' & Hperm).
  - rewrite updateMapIndices_heap. lia.
  - lia.
  - exists q'. split; [done|]. by rewrite Hperm, updateMapIndices_heap.
Qed.

Lemma sinkDown_loop_total fuel : ∀ q i,
  0 <= i → (Z.to_nat (len (PQ.heap q) - i) < fuel)%nat →
  ∃ q', PQ.sinkDown_loop fuel q i = Ret q' ∧ PQ.heap q' ≡ₚ PQ.heap q.
Proof.
  induction fuel as [|fuel IH]; intros q i Hi Hfuel; [lia|].
  destruct (decide (PQ.getLeftChildIndex i < len (PQ.heap q))) as [Hleft|Hleft].
  - destruct (sinkDown_loop_step fuel q i) as
      (d & dd & c & Hc & Hd & Hpd & Hdn & Hmax & ->); [lia|done|].
    destruct (Qle_bool (priorityScore dd) (priorityScore c)); [by exists q|].
    assert (i < d) by index_arith.
    destruct (swap_Ret q i d) as (q1 & -> & Hm1 & Hl1 & Hp1 & Hs1); [lia..|].
    simpl.
    destruct (IH (PQ.updateMapIndices q1 i d) d) as (q' & Hq' & Hperm).
    + lia.
    + rewrite updateMapIndices_heap, Hl1. lia.
    + exists q'. split; [done|]. by rewrite Hperm, updateMapIndices_heap.
  - rewrite sinkDown_loop_leaf by done. by exists q.
Qed.

(** On a heap, [bubbleUp] changes nothing. *)
Lemma bubbleUp_loop_noop fuel q i :
  heap_from 0 (PQ.heap q) → 0 <= i < len (PQ.heap q) →
  PQ.bubbleUp_loop (S fuel) q i = Ret q.
Proof.
  intros Hh Hi. simpl. unfold PQ.hasParent. case_bool_decide as Hpar; [|done].
  assert (0 <= PQ.getParentIndex i < i) as Hpi by index_arith.
  destruct (at_index_lt (PQ.heap q) (PQ.getParentIndex i)) as [p Hp]; [lia|].
  destruct (at_index_lt (PQ.heap q) i) as [c Hc]; [lia|].
  unfold PQ.parent. rewrite Hp, Hc. simpl.
  assert (priorityScore c <= priorityScore p)%Q as Hle.
  { rewrite <- (score_at_Some _ _ _ Hc), <- (score_at_Some _ _ _ Hp).
    apply Hh; lia. }
  apply Qltb_false in Hle. by rewrite Hle.
Qed.

(** Where no child beats the entry, [sinkDown] changes nothing. *)
Lemma sinkDown_loop_noop_local fuel q i :
  0 <= i →
  (∀ j, 1 <= j < len (PQ.heap q) → PQ.getParentIndex j = i →
        (score_at (PQ.heap q) j <= score_at (PQ.heap q) i)%Q) →
  PQ.sinkDown_loop (S fuel) q i = Ret q.
Proof.
  intros Hi Hh.
  destruct (decide (PQ.getLeftChildIndex i < len (PQ.heap q))) as [Hleft|Hleft];
    [|by apply sinkDown_loop_leaf].
  destruct (sinkDown_loop_step fuel q i) as
    (d & dd & c & Hc & Hd & Hpd & Hdn & Hmax & ->); [lia|done|].
  assert (priorityScore dd <= priorityScore c)%Q as Hle.
  { rewrite <- (score_at_Some _ _ _ Hd), <- (score_at_Some _ _ _ Hc).
    by apply Hh. }
  apply Qle_bool_iff in Hle. by rewrite Hle.
Qed.

(** ** Arrays: [pop], [store] and scores *)

Lemma len_pop a : a ≠ [] → len (pop a) = len a - 1.
Proof.
  intros Hne. destruct (last a) as [x|] eqn:Hl; [|by apply last_None in Hl].
  apply last_Some in Hl as [a' ->]. unfold pop.
  rewrite removelast_last, len_app. lia.
Qed.

Lemma at_index_pop a i : i < len a - 1 → at_index (pop a) i = at_index a i.
Proof.
  intros Hi. destruct (last a) as [x|] eqn:Hl.
  - apply last_Some in Hl as [a' ->]. unfold pop. rewrite removelast_last.
    rewrite len_app in Hi. by rewrite at_index_app_l by lia.
  - apply last_None in Hl as ->. done.
Qed.

Lemma pop_last a x : at_index a (len a - 1) = Some x → a = pop a ++ [x].
Proof.
  intros Hx. destruct (last a) as [y|] eqn:Hl.
  - apply last_Some in Hl as [a' ->]. unfold pop. rewrite removelast_last.
    rewrite len_app in Hx. replace (len a' + 1 - 1) with (len a') in Hx by lia.
    rewrite at_index_app_last in Hx. by injection Hx as ->.
  - apply last_None in Hl as ->. done.
Qed.

Lemma score_at_pop a i : i < len a - 1 → score_at (pop a) i = score_at a i.
Proof. intros Hi. unfold score_at. by rewrite at_index_pop. Qed.

Lemma score_at_store a i x k :
  0 <= i < len a →
  score_at (store a i x) k = if decide (k = i) then priorityScore x else score_at a k.
Proof.
  intros Hi. unfold score_at. case_decide as Hk.
  - subst k. by rewrite at_index_store_eq.
  - by rewrite at_index_store_ne by lia.
Qed.

Lemma max_heap_pop a : max_heap a → max_heap (pop a).
Proof.
  intros Hh. destruct (decide (a = [])) as [->|Hne]; [done|].
  intros j c p Hj Hc Hp.
  pose proof (at_index_Some _ _ _ Hc) as Hjl. rewrite len_pop in Hjl by done.
  rewrite at_index_pop in Hc by lia.
  rewrite at_index_pop in Hp by index_arith.
  by apply (Hh j).
Qed.

(** ** Repairing the order around one position *)

(** If heap order can fail only between position [i] and its neighbours,
    and the children of [i] do not beat the parent of [i], then [sinkDown]
    followed by [bubbleUp], both at [i], restore heap order. *)
Lemma sinkDown_bubbleUp_heap q i :
  0 <= i < len (PQ.heap q) →
  (∀ j, 1 <= j < len (PQ.heap q) → j ≠ i → PQ.getParentIndex j ≠ i →
     (score_at (PQ.heap q) j <= score_at (PQ.heap q) (PQ.getParentIndex j))%Q) →
  (∀ j, 1 <= j < len (PQ.heap q) → PQ.getParentIndex j = i → 1 <= i →
     (score_at (PQ.heap q) j <= score_at (PQ.heap q) (PQ.getParentIndex i))%Q) →
  ∃ s q', PQ.sinkDown q i = Ret s ∧ PQ.bubbleUp s i = Ret q' ∧
          heap_from 0 (PQ.heap q') ∧ PQ.heap q' ≡ₚ PQ.heap q.
Proof.
  intros Hi Haway Hgrand. unfold PQ.sinkDown, PQ.bubbleUp.
  assert ((1 <= i ∧
           (score_at (PQ.heap q) (PQ.getParentIndex i) < score_at (PQ.heap q) i)%Q) ∨
          (1 <= i →
           (score_at (PQ.heap q) i <= score_at (PQ.heap q) (PQ.getParentIndex i))%Q))
    as [[Hi1 Hbeats]|Hfits].
  { destruct (decide (1 <= i)) as [Hi1|Hi0]; [|right; lia].
    destruct (Qlt_le_dec (score_at (PQ.heap q) (PQ.getParentIndex i))
                (score_at (PQ.heap q) i)); [left|right]; done. }
  - (* the entry beats its parent: it stays put going down, then goes up *)
    rewrite sinkDown_loop_noop_local; [|lia|].
    2:{ intros j Hj Hpj. specialize (Hgrand j Hj Hpj Hi1). lra. }
    destruct (bubbleUp_loop_heap (S (Z.to_nat i)) q i) as (q' & Hq' & Hh & Hp);
      [lia|lia| |by exists q, q'].
    split; [|done].
    intros j Hj Hne. destruct (decide (PQ.getParentIndex j = i)) as [Hpj|Hpj].
    + rewrite Hpj. specialize (Hgrand j Hj Hpj Hi1). lra.
    + by apply Haway.
  - (* the entry fits under its parent: it goes down, then stays put *)
    destruct (sinkDown_loop_heap 0 (S (length (PQ.heap q))) q i)
      as (s & Hs & Hh & Hp).
    + lia.
    + unfold len in *. lia.
    + split.
      * intros j Hj _ Hpj. destruct (decide (j = i)) as [->|Hne].
        -- apply Hfits. lia.
        -- by apply Haway.
      * intros j Hj Hpj Hi1 _. by apply Hgrand.
    + exists s, s. split; [done|]. split; [|done].
      apply bubbleUp_loop_noop; [done|].
      apply Permutation_length in Hp. unfold len in *. lia.
Qed.

(** ** [removeById] *)

Lemma swap_at_index q i j q' :
  PQ.swap q i j = Ret q' →
  ∀ x, at_index (PQ.heap q') x =
       if decide (x = j) then at_index (PQ.heap q) i
       else if decide (x = i) then at_index (PQ.heap q) j
       else at_index (PQ.heap q) x.
Proof.
  unfold PQ.swap. intros Hswap x.
  destruct (at_index (PQ.heap q) i) as [t|] eqn:Ht; [|done].
  destruct (at_index (PQ.heap q) j) as [o|] eqn:Ho; [|done].
  injection Hswap as <-. simpl.
  pose proof (at_index_Some _ _ _ Ht). pose proof (at_index_Some _ _ _ Ho).
  case_decide as Hxj.
  - subst x. by rewrite at_index_store_eq by (rewrite len_store; lia).
  - rewrite at_index_store_ne by lia. case_decide as Hxi.
    + subst x. by rewrite at_index_store_eq by lia.
    + by rewrite at_index_store_ne by lia.
Qed.

Lemma removeById_heap_result q requestId i r :
  max_heap (PQ.heap q) →
  PQ.requestMap q !! requestId = Some i →
  at_index (PQ.heap q) i = Some r →
  ∃ q', PQ.removeById q requestId = Ret (Obj r, q') ∧
        max_heap (PQ.heap q') ∧ PQ.heap q ≡ₚ r :: PQ.heap q'.
Proof.
  intros Hh Hm Hr. pose proof (at_index_Some _ _ _ Hr) as Hi.
  unfold PQ.removeById. rewrite Hm, Hr. simpl of_option.
  set (n := len (PQ.heap q)) in *.
  destruct (decide (i ≠ n - 1)) as [Hne|Heq].
  - (* an inner position: the last entry takes its place *)
    destruct (swap_Ret q i (n - 1)) as (q1 & Hswap & Hm1 & Hl1 & Hp1 & Hs1);
      [lia|fold n; lia|]. rewrite Hswap. fold n in Hl1, Hs1.
    cbn [mbind outcome_bind].
    assert (PQ.heap q1 ≠ []) as Hne1.
    { intros E. rewrite E in Hl1. unfold len in Hl1. simpl in Hl1. lia. }
    pose proof (len_pop _ Hne1) as Hlp. rewrite Hl1 in Hlp.
    set (q2 := {| PQ.heap := pop (PQ.heap q1);
                  PQ.requestMap := delete requestId (PQ.requestMap q1) |}).
    change (len (PQ.heap q2)) with (len (pop (PQ.heap q1))). rewrite Hlp.
    rewrite decide_True by lia.
    assert (∀ k, k < n - 1 →
              score_at (PQ.heap q2) k =
              if decide (k = i) then score_at (PQ.heap q) (n - 1)
              else score_at (PQ.heap q) k) as Hs2.
    { intros k Hk. unfold q2. simpl. rewrite score_at_pop by lia.
      rewrite Hs1. rewrite decide_False by lia. done. }
    apply max_heap_heap_from in Hh.
    destruct (sinkDown_bubbleUp_heap q2 i) as (s & q' & Hs & Hq' & Hh' & Hp').
    + unfold q2. simpl. lia.
    + unfold q2 at 1. simpl PQ.heap at 1. rewrite Hlp.
      intros j Hj Hji Hpj. rewrite !Hs2 by index_arith.
      rewrite !decide_False by done. apply Hh; [lia|index_arith].
    + unfold q2 at 1. simpl PQ.heap at 1. rewrite Hlp.
      intros j Hj Hpj Hi1. rewrite !Hs2 by index_arith.
      rewrite !decide_False by index_arith.
      assert (score_at (PQ.heap q) j <= score_at (PQ.heap q) i)%Q
        by (rewrite <- Hpj; apply Hh; [lia|index_arith]).
      assert (score_at (PQ.heap q) i <= score_at (PQ.heap q) (PQ.getParentIndex i))%Q
        by (apply Hh; [lia|index_arith]).
      lra.
    + rewrite Hs. cbn [mbind outcome_bind]. rewrite Hq'. cbn [mbind outcome_bind].
      exists q'. split; [done|]. split; [by apply max_heap_heap_from|].
      rewrite Hp'. unfold q2. simpl. rewrite <- Hp1.
      assert (at_index (PQ.heap q1) (len (PQ.heap q1) - 1) = Some r) as Hlast.
      { rewrite Hl1, (swap_at_index _ _ _ _ Hswap), decide_True by done. done. }
      rewrite (pop_last _ _ Hlast) at 1. by rewrite Permutation_app_comm.
  - (* the last position: nothing moves *)
    assert (i = n - 1) as -> by lia. cbn [mbind outcome_bind].
    assert (PQ.heap q ≠ []) as Hne1.
    { intros E. unfold n in Hi. rewrite E in Hi. unfold len in Hi. simpl in Hi. lia. }
    rewrite decide_False by (simpl; rewrite len_pop by done; fold n; lia).
    cbn [mbind outcome_bind]. eexists. split; [done|]. simpl.
    split; [by apply max_heap_pop|].
    rewrite (pop_last _ _ Hr) at 1. by rewrite Permutation_app_comm.
Qed.

(** ** [updatePriority] *)

Lemma updatePriority_heap_result now q requestId newRequest i old :
  max_heap (PQ.heap q) →
  PQ.requestMap q !! requestId = Some i →
  at_index (PQ.heap q) i = Some old →
  ∃ v q', PQ.updatePriority now q requestId newRequest = Ret (Obj v, q') ∧
          at_index (PQ.heap q') i = Some v ∧
          max_heap (PQ.heap q') ∧
          PQ.heap q' ≡ₚ store (PQ.heap q) i (PQ.rescore now (spread old newRequest)) ∧
          ((Qltb (priorityScore old)
              (priorityScore (PQ.rescore now (spread old newRequest))) = true ∧
            PQ.bubbleUp
              {| PQ.heap := store (PQ.heap q) i (PQ.rescore now (spread old newRequest));
                 PQ.requestMap := PQ.requestMap q |} i = Ret q') ∨
           (Qltb (priorityScore old)
              (priorityScore (PQ.rescore now (spread old newRequest))) = false ∧
            PQ.sinkDown
              {| PQ.heap := store (PQ.heap q) i (PQ.rescore now (spread old newRequest));
                 PQ.requestMap := PQ.requestMap q |} i = Ret q')).
Proof.
  intros Hh%max_heap_heap_from Hm Hold.
  pose proof (at_index_Some _ _ _ Hold) as Hi.
  unfold PQ.updatePriority. rewrite Hm, Hold. cbn [deref mbind outcome_bind].
  fold (PQ.rescore now (spread old newRequest)).
  set (updated := PQ.rescore now (spread old newRequest)).
  set (q1 := {| PQ.heap := store (PQ.heap q) i updated;
                PQ.requestMap := PQ.requestMap q |}).
  assert (len (PQ.heap q1) = len (PQ.heap q)) as Hl1 by apply len_store.
  assert (∀ k, score_at (PQ.heap q1) k =
               if decide (k = i) then priorityScore updated
               else score_at (PQ.heap q) k) as Hs1
    by (intros k; by apply score_at_store).
  assert (∀ j, 1 <= j < len (PQ.heap q) → PQ.getParentIndex j = i → 1 <= i →
            (score_at (PQ.heap q1) j <= score_at (PQ.heap q1) (PQ.getParentIndex i))%Q)
    as Hgrand.
  { intros j Hj Hpj Hi1. rewrite !Hs1. rewrite !decide_False by index_arith.
    assert (score_at (PQ.heap q) j <= score_at (PQ.heap q) i)%Q
      by (rewrite <- Hpj; apply Hh; [lia|index_arith]).
    assert (score_at (PQ.heap q) i <= score_at (PQ.heap q) (PQ.getParentIndex i))%Q
      by (apply Hh; [lia|index_arith]).
    lra. }
  assert (∀ q', PQ.heap q' ≡ₚ PQ.heap q1 → ∃ v, at_index (PQ.heap q') i = Some v)
    as Hat.
  { intros q' Hp. apply at_index_lt. apply Permutation_length in Hp.
    unfold len in *. lia. }
  destruct (Qltb (priorityScore old) (priorityScore updated)) eqn:Hcmp.
  - apply Qltb_true in Hcmp. rewrite <- (score_at_Some _ _ _ Hold) in Hcmp.
    unfold PQ.bubbleUp.
    destruct (bubbleUp_loop_heap (S (Z.to_nat i)) q1 i) as (q' & Hq' & Hh' & Hp');
      [lia|lia| |].
    + unfold up_inv. rewrite Hl1. split; [|done].
      intros j Hj Hne. rewrite !Hs1. rewrite decide_False by done.
      case_decide as Hpj.
      * assert (score_at (PQ.heap q) j <= score_at (PQ.heap q) i)%Q
          by (rewrite <- Hpj; apply Hh; [lia|index_arith]).
        lra.
      * apply Hh; [lia|index_arith].
    + rewrite Hq'. cbn [mbind outcome_bind].
      destruct (Hat q' Hp') as [v Hv]. rewrite Hv.
      exists v, q'. split; [done|]. split; [done|].
      split; [by apply max_heap_heap_from|]. split; [done|]. by left.
  - apply Qltb_false in Hcmp. rewrite <- (score_at_Some _ _ _ Hold) in Hcmp.
    unfold PQ.sinkDown.
    destruct (sinkDown_loop_heap 0 (S (length (PQ.heap q1))) q1 i)
      as (q' & Hq' & Hh' & Hp'); [lia|unfold len in *; lia| |].
    + unfold down_inv. rewrite Hl1. split; [|intros; by apply Hgrand].
      intros j Hj _ Hpj. rewrite !Hs1. rewrite (decide_False (P := PQ.getParentIndex j = i)) by done.
      case_decide as Hji.
      * subst j.
        assert (score_at (PQ.heap q) i <= score_at (PQ.heap q) (PQ.getParentIndex i))%Q
          by (apply Hh; [lia|index_arith]).
        lra.
      * apply Hh; [lia|index_arith].
    + rewrite Hq'. cbn [mbind outcome_bind].
      destruct (Hat q' Hp') as [v Hv]. rewrite Hv.
      exists v, q'. split; [done|]. split; [done|].
      split; [by apply max_heap_heap_from|]. split; [done|]. by right.
Qed.

(** Replacing an entry by one of the same id keeps the index exact. *)
Lemma store_same_id_consistent q i old x :
  index_consistent q → at_index (PQ.heap q) i = Some old → _id x = _id old →
  index_consistent {| PQ.heap := store (PQ.heap q) i x;
                      PQ.requestMap := PQ.requestMap q |}.
Proof.
  intros [Hfwd Hbwd] Hold Hid. pose proof (at_index_Some _ _ _ Hold) as Hi.
  split; simpl.
  - intros k r Hk. destruct (decide (k = i)) as [->|Hne].
    + rewrite at_index_store_eq in Hk by done. injection Hk as <-.
      rewrite Hid. by apply Hfwd.
    + rewrite at_index_store_ne in Hk by lia. by apply Hfwd.
  - intros id k Hk. destruct (Hbwd id k Hk) as (r & Hr & Hrid).
    destruct (decide (k = i)) as [->|Hne].
    + exists x. rewrite at_index_store_eq by done. split; [done|]. congruence.
    + exists r. by rewrite at_index_store_ne by lia.
Qed.

(** ** The index under [buildHeap] *)

Lemma buildHeap_sift_consistent count : ∀ q q',
  index_consistent q → PQ.buildHeap_sift count q = Ret q' → index_consistent q'.
Proof.
  induction count as [|i IH]; intros q q' Hq Hrun.
  - by injection Hrun as <-.
  - simpl in Hrun.
    destruct (PQ.sinkDown q (Z.of_nat i)) as [q1| |] eqn:Hs; [|done..].
    simpl in Hrun. eapply IH; [|done].
    eapply (sinkDown_loop_consistent _ _ (Z.of_nat i)); [lia|done|done].
Qed.

(** Replaying the [forEach] on an index that is already exact changes
    nothing. *)
Lemma buildHeap_index_fixed requests : ∀ index m,
  (∀ k r, requests !! k = Some r → m !! _id r = Some (index + Z.of_nat k)) →
  PQ.buildHeap_index requests index m = m.
Proof.
  induction requests as [|x rest IH]; intros index m H; [done|].
  simpl. rewrite insert_id.
  - apply IH. intros k r Hk. specialize (H (S k) r Hk).
    rewrite H. f_equal. lia.
  - specialize (H 0%nat x eq_refl). rewrite H. f_equal. lia.
Qed.

Lemma buildHeap_index_other requests : ∀ index m id,
  id ∉ _id <$> requests →
  PQ.buildHeap_index requests index m !! id = m !! id.
Proof.
  induction requests as [|x rest IH]; intros index m id Hid; [done|].
  simpl. rewrite fmap_cons in Hid. apply not_elem_of_cons in Hid as [Hne Hrest].
  rewrite IH by done. by rewrite lookup_insert_ne.
Qed.

Lemma buildHeap_index_lookup requests : ∀ index m k r,
  NoDup (_id <$> requests) → requests !! k = Some r →
  PQ.buildHeap_index requests index m !! _id r = Some (index + Z.of_nat k).
Proof.
  induction requests as [|x rest IH]; intros index m k r Hnd Hk; [done|].
  rewrite fmap_cons in Hnd. apply NoDup_cons in Hnd as [Hx Hnd].
  simpl. destruct k as [|k]; simpl in Hk.
  - injection Hk as ->. rewrite buildHeap_index_other by done.
    rewrite lookup_insert_eq. f_equal. lia.
  - rewrite (IH _ _ k r) by done. f_equal. lia.
Qed.

Lemma at_index_lookup (a : list Entry) (k : nat) :
  at_index a (Z.of_nat k) = a !! k.
Proof. unfold at_index. rewrite decide_True by lia. by rewrite Nat2Z.id. Qed.

(** With pairwise distinct ids in the array, and no indexed id foreign to
    it, the [forEach] leaves an exact index. *)
Lemma buildHeap_index_consistent a m :
  NoDup (_id <$> a) →
  (∀ id, is_Some (m !! id) → id ∈ _id <$> a) →
  index_consistent {| PQ.heap := a; PQ.requestMap := PQ.buildHeap_index a 0 m |}.
Proof.
  intros Hnd Hkeys. split; simpl.
  - intros i r Hi. pose proof (at_index_Some _ _ _ Hi) as Hr.
    replace i with (Z.of_nat (Z.to_nat i)) in Hi by lia.
    rewrite at_index_lookup in Hi.
    rewrite (buildHeap_index_lookup _ _ _ _ _ Hnd Hi). f_equal. lia.
  - intros id i Hi.
    assert (id ∈ _id <$> a) as Hin.
    { destruct (decide (id ∈ _id <$> a)) as [|Hnot]; [done|].
      rewrite buildHeap_index_other in Hi by done. apply Hkeys. eauto. }
    apply list_elem_of_fmap in Hin as (r & -> & Hr).
    apply list_elem_of_lookup in Hr as [k Hk].
    rewrite (buildHeap_index_lookup _ _ _ _ _ Hnd Hk) in Hi.
    injection Hi as <-. exists r. by rewrite Z.add_0_l, at_index_lookup.
Qed.

Lemma swap_updateMapIndices_ids q i j q1 :
  indexed_ids_in_heap q → PQ.swap q i j = Ret q1 →
  indexed_ids_in_heap (PQ.updateMapIndices q1 i j).
Proof.
  intros Hq Hswap id. unfold PQ.updateMapIndices. simpl.
  assert (PQ.heap q1 ≡ₚ PQ.heap q ∧ PQ.requestMap q1 = PQ.requestMap q) as [Hp Hm].
  { pose proof Hswap as Hsw. unfold PQ.swap in Hsw.
    destruct (at_index (PQ.heap q) i) as [x|] eqn:Hx; [|done].
    destruct (at_index (PQ.heap q) j) as [y|] eqn:Hy; [|done].
    pose proof (at_index_Some _ _ _ Hx). pose proof (at_index_Some _ _ _ Hy).
    destruct (swap_Ret q i j) as (q' & Hq' & ? & ? & ? & ?); [done..|].
    rewrite Hswap in Hq'. by injection Hq' as <-. }
  assert (∀ k r, at_index (PQ.heap q1) k = Some r → _id r ∈ _id <$> PQ.heap q1)
    as Hin.
  { intros k r Hk. apply list_elem_of_fmap. exists r. split; [done|].
    by apply at_index_elem_of in Hk. }
  assert (∀ id, is_Some (PQ.requestMap q1 !! id) → id ∈ _id <$> PQ.heap q1) as Hq1.
  { intros id' H. rewrite Hp. apply Hq. by rewrite <- Hm. }
  destruct (at_index (PQ.heap q1) i) as [x|] eqn:Hx;
    destruct (at_index (PQ.heap q1) j) as [y|] eqn:Hy; intros [v Hv].
  - destruct (decide (id = _id y)) as [->|?]; [by eapply Hin|].
    rewrite lookup_insert_ne in Hv by done.
    destruct (decide (id = _id x)) as [->|?]; [by eapply Hin|].
    rewrite lookup_insert_ne in Hv by done. apply Hq1. eauto.
  - destruct (decide (id = _id x)) as [->|?]; [by eapply Hin|].
    rewrite lookup_insert_ne in Hv by done. apply Hq1. eauto.
  - destruct (decide (id = _id y)) as [->|?]; [by eapply Hin|].
    rewrite lookup_insert_ne in Hv by done. apply Hq1. eauto.
  - apply Hq1. eauto.
Qed.

Lemma sinkDown_loop_ids fuel : ∀ q i q',
  0 <= i → indexed_ids_in_heap q → PQ.sinkDown_loop fuel q i = Ret q' →
  indexed_ids_in_heap q'.
Proof.
  induction fuel as [|fuel IH]; intros q i q' Hi Hq Hrun; [done|].
  destruct (decide (PQ.getLeftChildIndex i < len (PQ.heap q))) as [Hleft|Hleft].
  - destruct (sinkDown_loop_step fuel q i) as
      (d & dd & c & Hc & Hd & Hpd & Hdn & Hmax & Heq); [lia|done|].
    rewrite Heq in Hrun.
    destruct (Qle_bool (priorityScore dd) (priorityScore c));
      [by injection Hrun as <-|].
    destruct (PQ.swap q i d) as [q1| |] eqn:Hswap; [|done..].
    simpl in Hrun. eapply (IH _ d); [lia| |done].
    by eapply swap_updateMapIndices_ids.
  - rewrite sinkDown_loop_leaf in Hrun by done. by injection Hrun as <-.
Qed.

Lemma buildHeap_sift_ids count : ∀ q q',
  indexed_ids_in_heap q → PQ.buildHeap_sift count q = Ret q' →
  indexed_ids_in_heap q'.
Proof.
  induction count as [|i IH]; intros q q' Hq Hrun.
  - by injection Hrun as <-.
  - simpl in Hrun.
    destruct (PQ.sinkDown q (Z.of_nat i)) as [q1| |] eqn:Hs; [|done..].
    simpl in Hrun. eapply IH; [|done].
    eapply (sinkDown_loop_ids _ _ (Z.of_nat i)); [lia|done|done].
Qed.

Lemma rescore_ids now (a : list Entry) : _id <$> (PQ.rescore now <$> a) = _id <$> a.
Proof. rewrite <- list_fmap_compose. by apply list_fmap_ext. Qed.

Lemma at_index_fmap_rescore now a i :
  at_index (PQ.rescore now <$> a) i = PQ.rescore now <$> at_index a i.
Proof. unfold at_index. case_decide; [|done]. apply list_lookup_fmap. Qed.

Lemma rescore_consistent now q :
  index_consistent q →
  index_consistent {| PQ.heap := PQ.rescore now <$> PQ.heap q;
                      PQ.requestMap := PQ.requestMap q |}.
Proof.
  intros [Hfwd Hbwd]. split; simpl.
  - intros i r Hi. rewrite at_index_fmap_rescore in Hi.
    destruct (at_index (PQ.heap q) i) as [r0|] eqn:Hr0; [|done].
    simpl in Hi. injection Hi as <-. by apply (Hfwd i r0).
  - intros id i Hi. destruct (Hbwd id i Hi) as (r & Hr & Hid).
    exists (PQ.rescore now r). rewrite at_index_fmap_rescore, Hr. done.
Qed.

(** ** [Array_sort] by descending score *)

Lemma sort_insert_perm compare x l : sort_insert compare x l ≡ₚ x :: l.
Proof.
  induction l as [|y rest IH]; [done|]. simpl.
  destruct (Qltb 0 (compare x y)); [|done].
  rewrite IH. apply Permutation_swap.
Qed.

Lemma Array_sort_perm compare a : Array_sort compare a ≡ₚ a.
Proof.
  induction a as [|x rest IH]; [done|]. simpl.
  by rewrite sort_insert_perm, IH.
Qed.

Lemma sort_insert_descending x l :
  non_increasing l → non_increasing (sort_insert descending x l).
Proof.
  induction 1 as [|y rest Hrest IH Hy]; simpl.
  - repeat constructor.
  - destruct (Qltb 0 (descending x y)) eqn:Hcmp.
    + apply Qltb_true in Hcmp. unfold descending in Hcmp.
      constructor; [done|]. rewrite sort_insert_perm.
      constructor; [lra|done].
    + apply Qltb_false in Hcmp. unfold descending in Hcmp.
      constructor; [by constructor|].
      constructor; [lra|].
      eapply Forall_impl; [done|]. simpl. intros z Hz. lra.
Qed.

Lemma Array_sort_descending a : non_increasing (Array_sort descending a).
Proof.
  induction a as [|x rest IH]; [constructor|]. simpl.
  by apply sort_insert_descending.
Qed.

(** ** Rounding and time *)

Lemma Qfloor_unique (y : Q) (m : Z) :
  (inject_Z m <= y)%Q → (y < inject_Z (m + 1))%Q → Qfloor y = m.
Proof.
  intros Hlo Hhi. apply Z.le_antisymm.
  - apply Z.lt_succ_r. rewrite Zlt_Qlt.
    eapply Qle_lt_trans; [apply Qfloor_le|]. done.
  - rewrite <- (Qfloor_Z m). by apply Qfloor_resp_le.
Qed.

Lemma Math_round_comp x y : (x == y)%Q → Math_round x = Math_round y.
Proof.
  intros H. unfold Math_round. f_equal. apply Qfloor_comp. by rewrite H.
Qed.



Lemma calculatePriority_unfold now v u t :
  calculatePriority now v u t =
  (Math_round ((v * 5 + u * 10 + Qmax 0 (minutes_elapsed t now) * (1 # 10)) * 100)
   / 100)%Q.
Proof. done. Qed.

(** ** The category tables *)

Lemma ascii_toLowerCase_idem c :
  ascii_toLowerCase (ascii_toLowerCase c) = ascii_toLowerCase c.
Proof.
  destruct c as [[] [] [] [] [] [] [] []]; reflexivity.
Qed.

Lemma toLowerCase_idem s : toLowerCase (toLowerCase s) = toLowerCase s.
Proof.
  induction s as [|c rest IH]; [done|]. simpl.
  by rewrite ascii_toLowerCase_idem, IH.
Qed.

(** The members of [Object.prototype] that a lowered name can hit. *)
Lemma lowered_inherited_name name :
  toLowerCase name ∈ MaxHeap.Object_prototype →
  toLowerCase name = "constructor" ∨ toLowerCase name = "__proto__".
Proof.
  intros Hin. pose proof (toLowerCase_idem name) as Hidem.
  unfold MaxHeap.Object_prototype in Hin.
  repeat (apply elem_of_cons in Hin as [Hin|Hin];
          [rewrite Hin in Hidem |- *;
           first [by left | by right | vm_compute in Hidem; discriminate]|]).
  by apply elem_of_nil in Hin.
Qed.

(** ** Ids that the sifts leave alone *)

Lemma index_consistent_NoDup q : index_consistent q → NoDup (_id <$> PQ.heap q).
Proof.
  intros Hq. apply NoDup_alt. intros i j id Hi Hj.
  rewrite list_lookup_fmap in Hi, Hj.
  destruct (PQ.heap q !! i) as [x|] eqn:Hx; [|done].
  destruct (PQ.heap q !! j) as [y|] eqn:Hy; [|done].
  simpl in Hi, Hj. injection Hi as Hi. injection Hj as Hj.
  rewrite <- at_index_lookup in Hx, Hy.
  assert (Z.of_nat i = Z.of_nat j); [|lia].
  apply (index_consistent_inj q _ _ x y); [done..|congruence].
Qed.

Lemma swap_updateMapIndices_other q i j q1 id :
  id ∉ _id <$> PQ.heap q → PQ.swap q i j = Ret q1 →
  PQ.requestMap (PQ.updateMapIndices q1 i j) !! id = PQ.requestMap q !! id ∧
  id ∉ _id <$> PQ.heap (PQ.updateMapIndices q1 i j).
Proof.
  intros Hid Hswap.
  assert (PQ.heap q1 ≡ₚ PQ.heap q ∧ PQ.requestMap q1 = PQ.requestMap q) as [Hp Hm].
  { pose proof Hswap as Hsw. unfold PQ.swap in Hsw.
    destruct (at_index (PQ.heap q) i) as [x|] eqn:Hx; [|done].
    destruct (at_index (PQ.heap q) j) as [y|] eqn:Hy; [|done].
    pose proof (at_index_Some _ _ _ Hx). pose proof (at_index_Some _ _ _ Hy).
    destruct (swap_Ret q i j) as (q' & Hq' & ? & ? & ? & ?); [done..|].
    rewrite Hswap in Hq'. by injection Hq' as <-. }
  rewrite updateMapIndices_heap. split; [|by rewrite Hp].
  assert (∀ k r, at_index (PQ.heap q1) k = Some r → id ≠ _id r) as Hne.
  { intros k r Hk ->. apply Hid. rewrite <- Hp. apply list_elem_of_fmap.
    exists r. split; [done|]. by apply at_index_elem_of in Hk. }
  assert (∀ k r (m : gmap string Z) v, at_index (PQ.heap q1) k = Some r →
            <[_id r := v]> m !! id = m !! id) as Hskip.
  { intros k r m v Hk. apply lookup_insert_ne. intros E.
    by apply (Hne k r Hk). }
  unfold PQ.updateMapIndices. simpl.
  destruct (at_index (PQ.heap q1) i) as [x|] eqn:Hx;
    destruct (at_index (PQ.heap q1) j) as [y|] eqn:Hy;
    rewrite ?(Hskip _ _ _ _ Hx), ?(Hskip _ _ _ _ Hy), ?(Hskip _ _ _ _ Hx);
    by rewrite Hm.
Qed.

Lemma bubbleUp_loop_other fuel id : ∀ q i q',
  id ∉ _id <$> PQ.heap q → PQ.bubbleUp_loop fuel q i = Ret q' →
  PQ.requestMap q' !! id = PQ.requestMap q !! id.
Proof.
  induction fuel as [|fuel IH]; intros q i q' Hid Hrun; [done|].
  simpl in Hrun. unfold PQ.hasParent in Hrun.
  case_bool_decide as Hpar; [|by injection Hrun as <-].
  destruct (PQ.parent q i) as [p|]; [|done].
  destruct (at_index (PQ.heap q) i) as [c|]; [|done]. simpl in Hrun.
  destruct (Qltb (priorityScore p) (priorityScore c)); [|by injection Hrun as <-].
  destruct (PQ.swap q (PQ.getParentIndex i) i) as [q1| |] eqn:Hswap; [|done..].
  simpl in Hrun.
  destruct (swap_updateMapIndices_other _ _ _ _ _ Hid Hswap) as [Hm Hid1].
  rewrite <- Hm. by eapply IH.
Qed.

Lemma sinkDown_loop_other fuel id : ∀ q i q',
  0 <= i → id ∉ _id <$> PQ.heap q → PQ.sinkDown_loop fuel q i = Ret q' →
  PQ.requestMap q' !! id = PQ.requestMap q !! id ∧ id ∉ _id <$> PQ.heap q'.
Proof.
  induction fuel as [|fuel IH]; intros q i q' Hi Hid Hrun; [done|].
  destruct (decide (PQ.getLeftChildIndex i < len (PQ.heap q))) as [Hleft|Hleft].
  - destruct (sinkDown_loop_step fuel q i) as
      (d & dd & c & Hc & Hd & Hpd & Hdn & Hmax & Heq); [lia|done|].
    rewrite Heq in Hrun.
    destruct (Qle_bool (priorityScore dd) (priorityScore c));
      [by injection Hrun as <-|].
    destruct (PQ.swap q i d) as [q1| |] eqn:Hswap; [|done..].
    simpl in Hrun.
    destruct (swap_updateMapIndices_other _ _ _ _ _ Hid Hswap) as [Hm Hid1].
    rewrite <- Hm. eapply (IH _ d); [lia|done|done].
  - rewrite sinkDown_loop_leaf in Hrun by done. by injection Hrun as <-.
Qed.

(** After [removeById] on a queue with an exact index, the id is indexed
    no more. *)
Lemma removeById_unindexed q requestId v q' :
  index_consistent q → PQ.removeById q requestId = Ret (v, q') →
  PQ.requestMap q' !! requestId = None.
Proof.
  intros Hq Hrun. unfold PQ.removeById in Hrun.
  destruct (PQ.requestMap q !! requestId) as [i|] eqn:Hm;
    [|by injection Hrun as _ <-].
  destruct Hq as [Hfwd Hbwd]. destruct (Hbwd _ _ Hm) as (r & Hr & Hid).
  pose proof (at_index_Some _ _ _ Hr) as Hi.
  set (n := len (PQ.heap q)) in *.
  assert (∃ q1, (if decide (i ≠ n - 1) then PQ.swap q i (n - 1) else Ret q) = Ret q1 ∧
                PQ.requestMap q1 = PQ.requestMap q ∧
                requestId ∉ _id <$> pop (PQ.heap q1)) as (q1 & Hq1 & Hm1 & Hout).
  { assert (∀ a, len a = n → at_index a (n - 1) = Some r →
              (∀ k x, k < n - 1 → at_index a k = Some x → _id x ≠ _id r) →
              requestId ∉ _id <$> pop a) as Hpop.
    { intros a Hl Hlast Hrest [x [-> Hx]]%list_elem_of_fmap.
      apply elem_of_at_index in Hx as [k Hk].
      pose proof (at_index_Some _ _ _ Hk) as Hkb.
      assert (a ≠ []) by (intros ->; unfold len in Hl; simpl in Hl; lia).
      rewrite len_pop in Hkb by done. rewrite at_index_pop in Hk by lia.
      apply (Hrest k x); [lia|done|congruence]. }
    case_decide as Hne.
    - destruct (swap_Ret q i (n - 1)) as (q1 & Hswap & Hm1 & Hl1 & Hp1 & Hs1);
        [lia|fold n; lia|].
      exists q1. split; [done|]. split; [done|].
      apply Hpop; [done| |].
      + by rewrite (swap_at_index _ _ _ _ Hswap), decide_True.
      + intros k x Hk Hx E.
        rewrite (swap_at_index _ _ _ _ Hswap), decide_False in Hx by lia.
        case_decide as Hki.
        * subst k. assert (n - 1 = i); [|lia].
          by apply (index_consistent_inj q _ _ x r).
        * assert (k = i); [|lia]. by apply (index_consistent_inj q _ _ x r).
    - exists q. split; [done|]. split; [done|].
      assert (i = n - 1) as Hin by lia. rewrite Hin in Hr.
      apply Hpop; [done..|].
      intros k x Hk Hx E. assert (k = n - 1); [|lia].
      by apply (index_consistent_inj q _ _ x r). }
  rewrite Hq1 in Hrun. cbn [mbind outcome_bind] in Hrun.
  set (q2 := {| PQ.heap := pop (PQ.heap q1);
                PQ.requestMap := delete requestId (PQ.requestMap q1) |}) in *.
  assert (PQ.requestMap q2 !! requestId = None) as Hgone
    by apply lookup_delete_eq.
  clear Hq1.
  destruct (decide (i < len (PQ.heap q2))) as [Hin|Hin];
    cbn [mbind outcome_bind] in Hrun.
  - destruct (PQ.sinkDown q2 i) as [s| |] eqn:Hs;
      cbn [mbind outcome_bind] in Hrun; [|done..].
    destruct (PQ.bubbleUp s i) as [q3| |] eqn:Hb;
      cbn [mbind outcome_bind] in Hrun; [|done..].
    injection Hrun as _ <-.
    destruct (sinkDown_loop_other _ requestId q2 i s ltac:(lia) Hout Hs)
      as [Hms Hids].
    rewrite (bubbleUp_loop_other _ requestId _ _ _ Hids Hb). congruence.
  - by injection Hrun as _ <-.
Qed.

(** ** The example queue *)

Lemma example_queue_inserted :
  insert_all [(600000, request_A); (600000, request_B); (600000, request_C)]
    PQ.new = Ret example_queue.
Proof. by vm_compute. Qed.

Lemma example_queue_max_heap : max_heap (PQ.heap example_queue).
Proof.
  destruct (insert_all_heap
              [(600000, request_A); (600000, request_B); (600000, request_C)]
              PQ.new max_heap_nil) as (q & Hq & Hh & _).
  rewrite example_queue_inserted in Hq. by injection Hq as <-.
Qed.

Lemma example_queue_consistent : index_consistent example_queue.
Proof.
  split.
  - intros i r Hi. pose proof (at_index_Some _ _ _ Hi) as Hb.
    unfold len in Hb. simpl in Hb.
    assert (i = 0 ∨ i = 1 ∨ i = 2) as [-> | [-> | ->]] by lia;
      injection Hi as <-; by vm_compute.
  - intros id i Hi. unfold example_queue in *. simpl in *.
    destruct (decide (id = "C")) as [->|?].
    { rewrite lookup_insert_eq in Hi. injection Hi as <-. by eexists. }
    rewrite lookup_insert_ne in Hi by done.
    destruct (decide (id = "B")) as [->|?].
    { rewrite lookup_insert_eq in Hi. injection Hi as <-. by eexists. }
    rewrite lookup_insert_ne in Hi by done.
    destruct (decide (id = "A")) as [->|?].
    { rewrite lookup_insert_eq in Hi. injection Hi as <-. by eexists. }
    rewrite lookup_insert_ne in Hi by done. by rewrite lookup_empty in Hi.
Qed.

(** * Further properties: statements *)

(** ** Sifting *)

(** X1: at every position inside the array, [bubbleUp] and [sinkDown]
    return normally, whatever the order of the array, and the array holds
    the same entries afterwards. *)
Theorem sifts_return_same_entries (q : PQ.t) (i : Z) :
  0 <= i < len (PQ.heap q) →
  (∃ q', PQ.bubbleUp q i = Ret q' ∧ PQ.heap q' ≡ₚ PQ.heap q) ∧
  (∃ q', PQ.sinkDown q i = Ret q' ∧ PQ.heap q' ≡ₚ PQ.heap q).
Proof.
  intros Hi. split.
  - apply bubbleUp_loop_total; lia.
  - apply sinkDown_loop_total; [lia|]. unfold len in *. lia.
Qed.

Lemma sifts_return_same_entries_witness :
  (∃ q', PQ.bubbleUp example_queue 1 = Ret q' ∧ PQ.heap q' ≡ₚ PQ.heap example_queue) ∧
  (∃ q', PQ.sinkDown example_queue 1 = Ret q' ∧ PQ.heap q' ≡ₚ PQ.heap example_queue).
Proof. apply (sifts_return_same_entries example_queue 1). by vm_compute. Defined.

(** ** [insert] *)

Lemma insert_returns (now : Z) (q : PQ.t) (request : Entry) :
  ∃ q', PQ.insert now q request = Ret (PQ.rescore now request, q') ∧
        PQ.heap q' ≡ₚ PQ.rescore now request :: PQ.heap q.
Proof.
  unfold PQ.insert, PQ.bubbleUp. fold (PQ.rescore now request).
  set (r := PQ.rescore now request).
  set (q1 := {| PQ.heap := PQ.heap q ++ [r] |}).
  rewrite len_app. replace (len (PQ.heap q) + 1 - 1) with (len (PQ.heap q)) by lia.
  pose proof (len_nonneg (PQ.heap q)) as Hn.
  destruct (bubbleUp_loop_total (S (Z.to_nat (len (PQ.heap q)))) q1 (len (PQ.heap q)))
    as (q' & -> & Hperm).
  - simpl. rewrite len_app. lia.
  - lia.
  - exists q'. split; [done|].
    rewrite Hperm. simpl. by rewrite Permutation_app_comm.
Qed.

(** X2: on any queue [insert] returns the request with its computed score,
    the size grows by one, and the array holds the old entries and the new
    one. *)
Theorem insert_adds_one (now : Z) (q : PQ.t) (request : Entry) :
  ∃ q', PQ.insert now q request = Ret (PQ.rescore now request, q') ∧
        PQ.size q' = PQ.size q + 1 ∧
        PQ.heap q' ≡ₚ PQ.rescore now request :: PQ.heap q.
Proof.
  destruct (insert_returns now q request) as (q' & Hrun & Hp).
  exists q'. split; [done|]. split; [|done].
  unfold PQ.size, len. apply Permutation_length in Hp. simpl in Hp. lia.
Qed.

(** X3: on a queue in max-heap order [insert] keeps max-heap order. *)
Theorem insert_keeps_max_heap (now : Z) (q : PQ.t) (request : Entry) :
  max_heap (PQ.heap q) →
  ∃ q', PQ.insert now q request = Ret (PQ.rescore now request, q') ∧
        max_heap (PQ.heap q').
Proof.
  intros Hh. destruct (insert_heap now q request Hh) as (q' & Hq' & Hh' & _).
  by exists q'.
Qed.

Lemma insert_keeps_max_heap_witness :
  ∃ q', PQ.insert 600000 example_queue request_D
          = Ret (PQ.rescore 600000 request_D, q') ∧
        max_heap (PQ.heap q').
Proof.
  apply (insert_keeps_max_heap 600000 example_queue request_D).
  exact example_queue_max_heap.
Defined.

(** X4: on a queue whose index is exact, [insert] of a request whose id is
    not indexed leaves the index exact, and the id then leads to the
    position that holds the inserted request. *)
Theorem insert_then_lookup (now : Z) (q : PQ.t) (request : Entry) :
  index_consistent q → PQ.requestMap q !! _id request = None →
  ∃ q' i, PQ.insert now q request = Ret (PQ.rescore now request, q') ∧
          index_consistent q' ∧
          PQ.requestMap q' !! _id request = Some i ∧
          at_index (PQ.heap q') i = Some (PQ.rescore now request).
Proof.
  intros Hq Hfresh.
  destruct (insert_returns now q request) as (q' & Hrun & Hp).
  pose proof (insert_consistent _ _ _ _ _ Hq Hfresh Hrun) as Hq'.
  assert (PQ.rescore now request ∈ PQ.heap q') as Hin by (rewrite Hp; left).
  apply elem_of_at_index in Hin as [i Hi].
  exists q', i. split; [done|]. split; [done|]. split; [|done].
  destruct Hq' as [Hfwd _]. by apply (Hfwd i _ Hi).
Qed.

Lemma insert_then_lookup_witness :
  ∃ q' i, PQ.insert 600000 example_queue request_D
            = Ret (PQ.rescore 600000 request_D, q') ∧
          index_consistent q' ∧
          PQ.requestMap q' !! "D" = Some i ∧
          at_index (PQ.heap q') i = Some (PQ.rescore 600000 request_D).
Proof.
  apply (insert_then_lookup 600000 example_queue request_D).
  - exact example_queue_consistent.
  - by vm_compute.
Defined.

(** ** [extractMax] *)

(** X5: [extractMax] returns [null] exactly on an empty queue; on any other
    queue it returns the entry at the root, which is the entry that [peek]
    shows, the size drops by one and the array holds the other entries.
    (So after [isEmpty()] answered false, as in the dequeue route, the
    result is never [null].) *)
Theorem extractMax_null_iff_empty (q : PQ.t) :
  (PQ.isEmpty q = true ∧ PQ.peek q = Null ∧ PQ.extractMax q = Ret (Null, q)) ∨
  (PQ.isEmpty q = false ∧
   ∃ top q', PQ.peek q = Obj top ∧
             PQ.extractMax q = Ret (Obj top, q') ∧
             PQ.size q' = PQ.size q - 1 ∧
             PQ.heap q ≡ₚ top :: PQ.heap q').
Proof.
  destruct q as [a m]. destruct a as [|top rest].
  { left. by split. }
  right. split; [done|].
  assert (PQ.peek {| PQ.heap := top :: rest; PQ.requestMap := m |} = Obj top)
    as Hpeek by done.
  assert (∀ q', top :: rest ≡ₚ top :: PQ.heap q' →
                PQ.size q' = PQ.size {| PQ.heap := top :: rest; PQ.requestMap := m |} - 1)
    as Hsize.
  { intros q' Hp. apply Permutation_length in Hp. unfold PQ.size, len.
    simpl in *. lia. }
  destruct (last rest) as [moved|] eqn:Hlast.
  - apply last_Some in Hlast as [mid ->].
    rewrite extractMax_many. unfold PQ.sinkDown.
    set (q1 := {| PQ.heap := moved :: mid |}).
    destruct (sinkDown_loop_total (S (length (PQ.heap q1))) q1 0)
      as (q' & -> & Hperm); [lia|unfold len; lia|].
    assert (top :: mid ++ [moved] ≡ₚ top :: PQ.heap q') as Hp.
    { rewrite Hperm. simpl. constructor. by rewrite Permutation_app_comm. }
    exists top, q'. split; [done|]. split; [done|]. split; [by apply Hsize|done].
  - apply last_None in Hlast as ->. rewrite extractMax_single.
    exists top. eexists. split; [done|]. split; [done|]. split; [|done].
    by apply Hsize.
Qed.

(** X6: on a non-empty queue in max-heap order whose index is exact,
    [extractMax] returns an entry of highest score, leaves max-heap order
    and an exact index, and the id of the returned entry is indexed no
    more. *)
Theorem extractMax_keeps_invariants (q : PQ.t) :
  max_heap (PQ.heap q) → index_consistent q → PQ.heap q ≠ [] →
  ∃ top q', PQ.extractMax q = Ret (Obj top, q') ∧
            (∀ e, e ∈ PQ.heap q → (priorityScore e <= priorityScore top)%Q) ∧
            max_heap (PQ.heap q') ∧ index_consistent q' ∧
            PQ.requestMap q' !! _id top = None.
Proof.
  intros Hh Hq Hne.
  destruct (extractMax_heap q Hh Hne) as (top & q' & Hrun & Htop & Hh' & Hp).
  pose proof (extractMax_consistent _ _ _ Hq Hrun) as Hq'.
  exists top, q'. split; [done|]. split; [by apply max_heap_root|].
  split; [done|]. split; [done|].
  destruct (PQ.requestMap q' !! _id top) as [k|] eqn:Hk; [|done].
  destruct Hq' as [_ Hbwd]. destruct (Hbwd _ _ Hk) as (r & Hr & Hid).
  pose proof (index_consistent_NoDup q Hq) as Hnd.
  rewrite Hp, fmap_cons in Hnd. apply NoDup_cons in Hnd as [Hnot _].
  exfalso. apply Hnot. rewrite <- Hid. apply list_elem_of_fmap.
  exists r. split; [done|]. by apply at_index_elem_of in Hr.
Qed.

Lemma extractMax_keeps_invariants_witness :
  ∃ top q', PQ.extractMax example_queue = Ret (Obj top, q') ∧
            (∀ e, e ∈ PQ.heap example_queue →
                  (priorityScore e <= priorityScore top)%Q) ∧
            max_heap (PQ.heap q') ∧ index_consistent q' ∧
            PQ.requestMap q' !! _id top = None.
Proof.
  apply (extractMax_keeps_invariants example_queue).
  - exact example_queue_max_heap.
  - exact example_queue_consistent.
  - discriminate.
Defined.

(** ** [removeById] *)

(** X7: on a queue in max-heap order whose index is exact, [removeById] of
    an indexed id returns the request that has this id, leaves the other
    entries in max-heap order, and the id is indexed no more: a second
    [removeById] of it returns [null] and changes nothing. *)
Theorem removeById_removes (q : PQ.t) (requestId : string) (i : Z) :
  max_heap (PQ.heap q) → index_consistent q →
  PQ.requestMap q !! requestId = Some i →
  ∃ r q', PQ.removeById q requestId = Ret (Obj r, q') ∧
          _id r = requestId ∧
          max_heap (PQ.heap q') ∧
          PQ.heap q ≡ₚ r :: PQ.heap q' ∧
          PQ.removeById q' requestId = Ret (Null, q').
Proof.
  intros Hh Hq Hm. pose proof Hq as [_ Hbwd].
  destruct (Hbwd _ _ Hm) as (r & Hr & Hid).
  destruct (removeById_heap_result q requestId i r Hh Hm Hr) as (q' & Hrun & Hh' & Hp).
  exists r, q'. split; [done|]. split; [done|]. split; [done|]. split; [done|].
  pose proof (removeById_unindexed _ _ _ _ Hq Hrun) as Hgone.
  unfold PQ.removeById. by rewrite Hgone.
Qed.

Lemma removeById_removes_witness :
  ∃ r q', PQ.removeById example_queue "B" = Ret (Obj r, q') ∧
          _id r = "B" ∧
          max_heap (PQ.heap q') ∧
          PQ.heap example_queue ≡ₚ r :: PQ.heap q' ∧
          PQ.removeById q' "B" = Ret (Null, q').
Proof.
  apply (removeById_removes example_queue "B" 1).
  - exact example_queue_max_heap.
  - exact example_queue_consistent.
  - by vm_compute.
Defined.

(** ** [updatePriority] *)

(** X8: on a queue in max-heap order, [updatePriority] of an id indexed at
    a position inside the array replaces the entry there by the merged and
    rescored one, restores max-heap order, and returns the entry that then
    sits at the position. *)
Theorem updatePriority_keeps_max_heap (now : Z) (q : PQ.t) (requestId : string)
    (newRequest : Partial) (i : Z) (old : Entry) :
  max_heap (PQ.heap q) →
  PQ.requestMap q !! requestId = Some i →
  at_index (PQ.heap q) i = Some old →
  ∃ v q', PQ.updatePriority now q requestId newRequest = Ret (Obj v, q') ∧
          at_index (PQ.heap q') i = Some v ∧
          max_heap (PQ.heap q') ∧
          PQ.heap q' ≡ₚ store (PQ.heap q) i (PQ.rescore now (spread old newRequest)).
Proof.
  intros Hh Hm Hold.
  destruct (updatePriority_heap_result now q requestId newRequest i old Hh Hm Hold)
    as (v & q' & Hrun & Hv & Hh' & Hp & _).
  by exists v, q'.
Qed.

Lemma updatePriority_keeps_max_heap_witness :
  ∃ v q', PQ.updatePriority 1200000 example_queue "B"
            (mkPartial None (Some 5%Q) None None None None) = Ret (Obj v, q') ∧
          at_index (PQ.heap q') 1 = Some v ∧
          max_heap (PQ.heap q') ∧
          PQ.heap q' ≡ₚ
            store (PQ.heap example_queue) 1
              (PQ.rescore 1200000
                 (spread (PQ.rescore 600000 request_B)
                    (mkPartial None (Some 5%Q) None None None None))).
Proof.
  apply (updatePriority_keeps_max_heap 1200000 example_queue "B" _ 1
           (PQ.rescore 600000 request_B)).
  - exact example_queue_max_heap.
  - by vm_compute.
  - reflexivity.
Defined.

Lemma updatePriority_consistent (now : Z) (q : PQ.t) (requestId : string)
    (newRequest : Partial) (v : value) (q' : PQ.t) :
  index_consistent q → p_id newRequest = None →
  PQ.updatePriority now q requestId newRequest = Ret (v, q') →
  index_consistent q'.
Proof.
  intros Hq Hnoid Hrun. unfold PQ.updatePriority in Hrun.
  destruct (PQ.requestMap q !! requestId) as [i|] eqn:Hm;
    [|by injection Hrun as _ <-].
  destruct (at_index (PQ.heap q) i) as [old|] eqn:Hold; [|done].
  cbn [deref mbind outcome_bind] in Hrun.
  fold (PQ.rescore now (spread old newRequest)) in Hrun.
  set (updated := PQ.rescore now (spread old newRequest)) in *.
  pose proof (at_index_Some _ _ _ Hold) as Hi.
  assert (index_consistent {| PQ.heap := store (PQ.heap q) i updated;
                              PQ.requestMap := PQ.requestMap q |}) as Hq1.
  { apply (store_same_id_consistent q i old); [done..|].
    unfold updated. simpl. by rewrite Hnoid. }
  destruct (Qltb (priorityScore old) (priorityScore updated)).
  - destruct (PQ.bubbleUp _ i) as [q2| |] eqn:Hb;
      cbn [mbind outcome_bind] in Hrun; [|done..].
    injection Hrun as _ <-. by eapply bubbleUp_loop_consistent.
  - destruct (PQ.sinkDown _ i) as [q2| |] eqn:Hs;
      cbn [mbind outcome_bind] in Hrun; [|done..].
    injection Hrun as _ <-.
    eapply (sinkDown_loop_consistent _ _ i); [lia|done|done].
Qed.

Lemma updatePriority_returns now q requestId newRequest i old :
  PQ.requestMap q !! requestId = Some i →
  at_index (PQ.heap q) i = Some old →
  ∃ v q', PQ.updatePriority now q requestId newRequest = Ret (Obj v, q') ∧
          PQ.heap q' ≡ₚ store (PQ.heap q) i (PQ.rescore now (spread old newRequest)).
Proof.
  intros Hm Hold. pose proof (at_index_Some _ _ _ Hold) as Hi.
  unfold PQ.updatePriority. rewrite Hm, Hold. cbn [deref mbind outcome_bind].
  fold (PQ.rescore now (spread old newRequest)).
  set (updated := PQ.rescore now (spread old newRequest)).
  set (q1 := {| PQ.heap := store (PQ.heap q) i updated;
                PQ.requestMap := PQ.requestMap q |}).
  assert (len (PQ.heap q1) = len (PQ.heap q)) as Hl1 by apply len_store.
  assert (∃ q', (if Qltb (priorityScore old) (priorityScore updated)
                 then PQ.bubbleUp q1 i else PQ.sinkDown q1 i) = Ret q' ∧
                PQ.heap q' ≡ₚ PQ.heap q1) as (q' & -> & Hp).
  { destruct (Qltb _ _).
    - apply bubbleUp_loop_total; lia.
    - apply sinkDown_loop_total; [lia|]. unfold len in *. lia. }
  cbn [mbind outcome_bind].
  destruct (at_index_lt (PQ.heap q') i) as [v Hv].
  { apply Permutation_length in Hp. unfold len in *. lia. }
  rewrite Hv. by exists v, q'.
Qed.

(** X9: on a queue whose index is exact, [updatePriority] of an indexed id
    with changes that carry no [_id] returns an entry and leaves the index
    exact; the array holds the old entries with the updated one in place
    of the entry of that id. *)
Theorem updatePriority_keeps_index (now : Z) (q : PQ.t) (requestId : string)
    (newRequest : Partial) (i : Z) :
  index_consistent q → p_id newRequest = None →
  PQ.requestMap q !! requestId = Some i →
  ∃ old v q', at_index (PQ.heap q) i = Some old ∧ _id old = requestId ∧
              PQ.updatePriority now q requestId newRequest = Ret (Obj v, q') ∧
              index_consistent q' ∧
              PQ.heap q' ≡ₚ
                store (PQ.heap q) i (PQ.rescore now (spread old newRequest)).
Proof.
  intros Hq Hnoid Hm. pose proof Hq as [_ Hbwd].
  destruct (Hbwd _ _ Hm) as (old & Hold & Hid).
  destruct (updatePriority_returns now q requestId newRequest i old Hm Hold)
    as (v & q' & Hrun & Hp).
  exists old, v, q'. split; [done|]. split; [done|]. split; [done|].
  split; [|done]. by eapply updatePriority_consistent.
Qed.

Lemma updatePriority_keeps_index_witness :
  ∃ old v q', at_index (PQ.heap example_queue) 1 = Some old ∧ _id old = "B" ∧
              PQ.updatePriority 1200000 example_queue "B"
                (mkPartial None (Some 5%Q) None None None None) = Ret (Obj v, q') ∧
              index_consistent q' ∧
              PQ.heap q' ≡ₚ
                store (PQ.heap example_queue) 1
                  (PQ.rescore 1200000
                     (spread old (mkPartial None (Some 5%Q) None None None None))).
Proof.
  apply (updatePriority_keeps_index 1200000 example_queue "B"
           (mkPartial None (Some 5%Q) None None None None) 1).
  - exact example_queue_consistent.
  - reflexivity.
  - by vm_compute.
Defined.

(** ** [recalculateAllPriorities], [loadFromArray], [getAll] *)

Lemma recalculateAllPriorities_unfold now q :
  PQ.recalculateAllPriorities now q =
  PQ.buildHeap {| PQ.heap := PQ.rescore now <$> PQ.heap q;
                  PQ.requestMap := PQ.requestMap q |}.
Proof. done. Qed.

(** X10: on any queue [recalculateAllPriorities] returns a queue in
    max-heap order whose array holds the old entries, each rescored at
    [now]. *)
Theorem recalculateAllPriorities_builds_heap (now : Z) (q : PQ.t) :
  ∃ q', PQ.recalculateAllPriorities now q = Ret q' ∧
        max_heap (PQ.heap q') ∧
        PQ.heap q' ≡ₚ PQ.rescore now <$> PQ.heap q.
Proof.
  rewrite recalculateAllPriorities_unfold.
  destruct (buildHeap_heap
              {| PQ.heap := PQ.rescore now <$> PQ.heap q;
                 PQ.requestMap := PQ.requestMap q |})
    as (q' & m & Hq' & Hh & Hp & _).
  by exists q'.
Qed.

Lemma buildHeap_consistent q :
  index_consistent q →
  ∃ q', PQ.buildHeap q = Ret q' ∧ index_consistent q'.
Proof.
  intros Hq. unfold PQ.buildHeap.
  destruct (buildHeap_sift_heap (Z.to_nat (len (PQ.heap q) / 2 - 1 + 1)) q)
    as (q1 & Hq1 & _ & _); [apply heap_from_leaves|].
  rewrite Hq1. cbn [mbind outcome_bind].
  pose proof (buildHeap_sift_consistent _ _ _ Hq Hq1) as Hc.
  eexists. split; [done|].
  rewrite buildHeap_index_fixed; [by destruct q1|].
  intros k r Hk. destruct Hc as [Hfwd _]. apply Hfwd.
  by rewrite Z.add_0_l, at_index_lookup.
Qed.

(** X11: on a queue whose index is exact, [recalculateAllPriorities] leaves
    the index exact. *)
Theorem recalculateAllPriorities_keeps_index (now : Z) (q : PQ.t) :
  index_consistent q →
  ∃ q', PQ.recalculateAllPriorities now q = Ret q' ∧ index_consistent q'.
Proof.
  intros Hq. unfold PQ.recalculateAllPriorities.
  apply buildHeap_consistent. by apply rescore_consistent.
Qed.

Lemma recalculateAllPriorities_keeps_index_witness :
  ∃ q', PQ.recalculateAllPriorities 1200000 example_queue = Ret q' ∧
        index_consistent q'.
Proof.
  apply (recalculateAllPriorities_keeps_index 1200000 example_queue).
  exact example_queue_consistent.
Defined.

(** X12: [loadFromArray] of requests with pairwise distinct ids, on a queue
    that indexes no id foreign to them (a new or a cleared queue, for
    one), leaves a queue in max-heap order with an exact index, whose
    array holds the requests, each scored at [now]. *)
Theorem loadFromArray_exact_index (now : Z) (q : PQ.t) (requests : list Entry) :
  NoDup (_id <$> requests) →
  (∀ id, is_Some (PQ.requestMap q !! id) → id ∈ _id <$> requests) →
  ∃ q', PQ.loadFromArray now q requests = Ret q' ∧
        max_heap (PQ.heap q') ∧
        PQ.heap q' ≡ₚ PQ.rescore now <$> requests ∧
        index_consistent q'.
Proof.
  intros Hnd Hkeys. unfold PQ.loadFromArray, PQ.buildHeap.
  set (q0 := {| PQ.heap := PQ.rescore now <$> requests;
                PQ.requestMap := PQ.requestMap q |}).
  destruct (buildHeap_sift_heap (Z.to_nat (len (PQ.heap q0) / 2 - 1 + 1)) q0)
    as (q1 & Hq1 & Hh & Hp); [apply heap_from_leaves|].
  rewrite Hq1. cbn [mbind outcome_bind].
  assert (indexed_ids_in_heap q0) as Hids0.
  { intros id Hid. unfold q0. simpl. rewrite rescore_ids. by apply Hkeys. }
  pose proof (buildHeap_sift_ids _ _ _ Hids0 Hq1) as Hids1.
  eexists. split; [done|]. simpl.
  split; [by apply max_heap_heap_from|]. split; [done|].
  apply buildHeap_index_consistent; [|done].
  rewrite Hp. unfold q0. simpl. by rewrite rescore_ids.
Qed.

Lemma loadFromArray_exact_index_witness :
  ∃ q', PQ.loadFromArray 600000 (PQ.clear example_queue)
          [request_A; request_B; request_C] = Ret q' ∧
        max_heap (PQ.heap q') ∧
        PQ.heap q' ≡ₚ PQ.rescore 600000 <$> [request_A; request_B; request_C] ∧
        index_consistent q'.
Proof.
  apply (loadFromArray_exact_index 600000 (PQ.clear example_queue)
           [request_A; request_B; request_C]).
  - apply (bool_decide_unpack _). by vm_compute.
  - intros id [v Hv]. simpl in Hv. by rewrite lookup_empty in Hv.
Defined.

(** X13: [getAll] returns the entries of the queue, each rescored at
    [now], in non-increasing order of score, and leaves the queue as
    [recalculateAllPriorities] does. *)
Theorem getAll_sorted (now : Z) (q : PQ.t) :
  ∃ out q', PQ.getAll now q = Ret (out, q') ∧
            PQ.recalculateAllPriorities now q = Ret q' ∧
            non_increasing out ∧
            out ≡ₚ PQ.rescore now <$> PQ.heap q.
Proof.
  destruct (buildHeap_heap
              {| PQ.heap := PQ.rescore now <$> PQ.heap q;
                 PQ.requestMap := PQ.requestMap q |})
    as (q' & m & Hq' & _ & Hp & _).
  rewrite <- recalculateAllPriorities_unfold in Hq'. simpl in Hp.
  unfold PQ.getAll. rewrite Hq'. cbn [mbind outcome_bind].
  eexists _, q'. split; [done|]. split; [done|].
  split; [apply Array_sort_descending|].
  by rewrite Array_sort_perm.
Qed.

(** X14: on a non-empty queue, the first request that [getAll] returns and
    the request that [peek] returns right after have the same score (the
    queue route reports both). *)
Theorem getAll_first_is_peek (now : Z) (q : PQ.t) :
  PQ.heap q ≠ [] →
  ∃ first rest q' top,
    PQ.getAll now q = Ret (first :: rest, q') ∧
    PQ.peek q' = Obj top ∧
    (priorityScore top == priorityScore first)%Q.
Proof.
  intros Hne.
  destruct (buildHeap_heap
              {| PQ.heap := PQ.rescore now <$> PQ.heap q;
                 PQ.requestMap := PQ.requestMap q |})
    as (q' & m & Hq' & Hh & Hp & _).
  rewrite <- recalculateAllPriorities_unfold in Hq'. simpl in Hp.
  unfold PQ.getAll. rewrite Hq'. cbn [mbind outcome_bind].
  pose proof (Array_sort_descending (PQ.heap q')) as Hsorted.
  pose proof (Array_sort_perm descending (PQ.heap q')) as Hsp.
  fold descending.
  destruct (Array_sort descending (PQ.heap q')) as [|first rest] eqn:Hout.
  { apply Permutation_nil_l in Hsp. rewrite <- Hsp in Hp.
    symmetry in Hp. apply Permutation_nil_r in Hp.
    by apply fmap_nil_inv in Hp. }
  assert (len (PQ.heap q') > 0) as Hlen.
  { apply Permutation_length in Hsp. unfold len. simpl in Hsp. lia. }
  destruct (at_index_lt (PQ.heap q') 0) as [top Htop]; [lia|].
  exists first, rest, q', top. split; [done|].
  split; [unfold PQ.peek; by rewrite decide_True, Htop|].
  apply Qle_antisym.
  - apply StronglySorted_inv in Hsorted as [_ Hall].
    assert (top ∈ first :: rest) as Hin
      by (rewrite Hsp; by eapply at_index_elem_of).
    apply elem_of_cons in Hin as [->|Hin]; [lra|].
    rewrite Forall_forall in Hall. by apply Hall.
  - apply (max_heap_root (PQ.heap q')); [done..|]. rewrite <- Hsp. left.
Qed.

Lemma getAll_first_is_peek_witness :
  ∃ first rest q' top,
    PQ.getAll 1200000 example_queue = Ret (first :: rest, q') ∧
    PQ.peek q' = Obj top ∧
    (priorityScore top == priorityScore first)%Q.
Proof.
  apply (getAll_first_is_peek 1200000 example_queue). discriminate.
Defined.

(** X21: [getAll] called twice at the same clock reading returns the same
    list twice, and the second call leaves the queue as the first left
    it. *)
Theorem getAll_twice (now : Z) (q : PQ.t) :
  ∃ out q1, PQ.getAll now q = Ret (out, q1) ∧ PQ.getAll now q1 = Ret (out, q1).
Proof.
  unfold PQ.getAll, PQ.recalculateAllPriorities.
  destruct (buildHeap_heap
              {| PQ.heap := PQ.rescore now <$> PQ.heap q;
                 PQ.requestMap := PQ.requestMap q |})
    as (q1 & m & Hq1 & Hh & Hp & Hm).
  rewrite Hq1. cbn [mbind outcome_bind]. eexists _, q1. split; [done|].
  simpl in Hp. rewrite (rescore_fixed now _ _ Hp).
  assert (PQ.buildHeap {| PQ.heap := PQ.heap q1; PQ.requestMap := PQ.requestMap q1 |}
          = Ret q1) as ->.
  { destruct q1 as [a1 m1]. simpl in *. by apply (buildHeap_noop _ m). }
  done.
Qed.

(** * Further properties of the priority function *)



(** X16: in double arithmetic, for scores from 1 to 5 and within [10^11]
    ms of the creation instant, k further whole minutes of waiting raise
    the returned score by [k*0.1] up to one hundredth (and [2e-9]): the
    two roundings to hundredths can each be half a hundredth off. *)
Theorem calculatePriority_per_minute (now : Z) (v u : Q) (t k : Z) :
  (1 <= v <= 5)%Q → (1 <= u <= 5)%Q →
  (t <= now)%Z → (0 <= k)%Z → (now + 60000 * k - t <= 100000000000)%Z →
  (Qabs (B64.calculatePriority (now + 60000 * k) v u t
         - B64.calculatePriority now v u t - inject_Z k * (1 # 10))
     <= (1 # 100) + (1 # 500000000))%Q.
Proof.
  intros [Hv1 Hv5] [Hu1 Hu5] Ht Hk Hd.
  destruct (calculatePriority_accuracy (now + 60000 * k) v u t
              Hv1 Hv5 Hu1 Hu5 Hd) as (_ & _ & _ & _ & Ha1 & Ha2).
  destruct (calculatePriority_accuracy now v u t
              Hv1 Hv5 Hu1 Hu5 ltac:(lia)) as (_ & _ & _ & _ & Hb1 & Hb2).
  assert (exact_score (now + 60000 * k) v u t
          == exact_score now v u t + inject_Z k * (1 # 10))%Q as Hshift.
  { unfold exact_score.
    rewrite (waiting_elapsed t now Ht),
            (waiting_elapsed t (now + 60000 * k) ltac:(lia)).
    unfold minutes_elapsed.
    replace (now + 60000 * k - t)%Z with ((now - t) + 60000 * k)%Z by lia.
    rewrite inject_Z_plus, inject_Z_mult. change (inject_Z 60000) with 60000%Q.
    field. }
  rewrite Hshift in Ha1, Ha2.
  apply Qabs_Qle_condition. split; lra.
Qed.

Lemma calculatePriority_per_minute_witness :
  (Qabs (B64.calculatePriority (51000 + 60000 * 1) 4 5 0
         - B64.calculatePriority 51000 4 5 0 - inject_Z 1 * (1 # 10))
     <= (1 # 100) + (1 # 500000000))%Q.
Proof.
  apply (calculatePriority_per_minute 51000 4 5 0 1);
    [split; by vm_compute|split; by vm_compute|lia..].
Defined.

(** One further minute adds 0.11 from 51 s on and 0.09 from 9 s on. *)
Example per_minute_steps :
  B64.calculatePriority 51000 4 5 0 = B64.round (7008 # 100) ∧
  B64.calculatePriority 111000 4 5 0 = B64.round (7019 # 100) ∧
  B64.calculatePriority 9000 4 5 0 = B64.round (7002 # 100) ∧
  B64.calculatePriority 69000 4 5 0 = B64.round (7011 # 100).
Proof. repeat split; by vm_compute. Qed.

Lemma fresh_floor (now : Z) (v u : Z) (t : Z) :
  (now - t < 3000)%Z →
  Qfloor ((inject_Z v * 5 + inject_Z u * 10
           + Qmax 0 (minutes_elapsed t now) * (1 # 10)) * 100 + (1 # 2))
  = ((v * 5 + u * 10) * 100)%Z.
Proof.
  intros Hfresh. set (w := Qmax 0 (minutes_elapsed t now)).
  assert (0 <= w)%Q as Hw0 by apply Q.le_max_l.
  assert (w * 20 < 1)%Q as Hw1.
  { destruct (Z_le_gt_dec now t) as [Hle|Hgt].
    - pose proof (waiting_clamped t now Hle) as Hw. fold w in Hw. lra.
    - pose proof (waiting_elapsed t now ltac:(lia)) as Hw. fold w in Hw.
      assert (inject_Z (now - t) < inject_Z 3000)%Q as Hlt
        by (rewrite <- Zlt_Qlt; lia).
      change (inject_Z 3000) with 3000%Q in Hlt.
      unfold minutes_elapsed, Qdiv in Hw.
      change (/ 60000)%Q with (1 # 60000)%Q in Hw. lra. }
  apply Qfloor_unique.
  - rewrite !inject_Z_mult, inject_Z_plus, !inject_Z_mult.
    change (inject_Z 5) with 5%Q. change (inject_Z 10) with 10%Q.
    change (inject_Z 100) with 100%Q. lra.
  - rewrite inject_Z_plus, !inject_Z_mult, inject_Z_plus, !inject_Z_mult.
    change (inject_Z 5) with 5%Q. change (inject_Z 10) with 10%Q.
    change (inject_Z 100) with 100%Q. change (inject_Z 1) with 1%Q. lra.
Qed.



(** The same in double arithmetic, for whole-number scores from 1 to 5:
    there the idealised score is the double that the source computes. *)
Lemma calculatePriority_fresh_in_doubles (now : Z) (v u : Z) (t : Z) :
  (1 <= v <= 5)%Z → (1 <= u <= 5)%Z → (now - t < 3000)%Z →
  B64.calculatePriority now (inject_Z v) (inject_Z u) t = inject_Z (v * 5 + u * 10) ∧
  (B64.calculatePriority now (inject_Z v) (inject_Z u) t
   == calculatePriority now (inject_Z v) (inject_Z u) t)%Q.
Proof.
  intros Hv Hu Hfresh.
  assert (B64.calculatePriority now (inject_Z v) (inject_Z u) t
          = B64.round (inject_Z (v * 5 + u * 10))) as Hr.
  { assert (1 <= inject_Z v)%Q by (change 1%Q with (inject_Z 1); rewrite <- Zle_Qle; lia).
    assert (inject_Z v <= 5)%Q by (change 5%Q with (inject_Z 5); rewrite <- Zle_Qle; lia).
    assert (1 <= inject_Z u)%Q by (change 1%Q with (inject_Z 1); rewrite <- Zle_Qle; lia).
    assert (inject_Z u <= 5)%Q by (change 5%Q with (inject_Z 5); rewrite <- Zle_Qle; lia).
    set (w := Qmax 0 (minutes_elapsed t now)).
    assert (0 <= w)%Q as Hw0 by apply Q.le_max_l.
    assert (w * 600000 <= 2999 * 10)%Q as Hw1.
    { destruct (Z_le_gt_dec now t) as [Hle|Hgt].
      - pose proof (waiting_clamped t now Hle) as Hw. fold w in Hw. lra.
      - pose proof (waiting_elapsed t now ltac:(lia)) as Hw. fold w in Hw.
        assert (inject_Z (now - t) <= inject_Z 2999)%Q as Hlt
          by (rewrite <- Zle_Qle; lia).
        change (inject_Z 2999) with 2999%Q in Hlt.
        unfold minutes_elapsed, Qdiv in Hw.
        change (/ 60000)%Q with (1 # 60000)%Q in Hw. lra. }
    assert (exact_score now (inject_Z v) (inject_Z u) t
            == inject_Z (v * 5 + u * 10) + w * (1 # 10))%Q as HE.
    { unfold exact_score. fold w. rewrite inject_Z_plus, !inject_Z_mult.
      change (inject_Z 5) with 5%Q. change (inject_Z 10) with 10%Q. ring. }
    apply calculatePriority_away_from_ties; [done|done|done|done|lia| |].
    - split; [|rewrite HE; split; lra].
      exists ((v * 5 + u * 10) * 100)%Z. rewrite inject_Z_mult.
      change (inject_Z 100) with 100%Q. field.
    - apply Qabs_Qle_condition. rewrite HE. split; lra. }
  assert (B64.round (inject_Z (v * 5 + u * 10)) = inject_Z (v * 5 + u * 10)) as Hi.
  { assert (v = 1 ∨ v = 2 ∨ v = 3 ∨ v = 4 ∨ v = 5)%Z as Hvs by lia.
    assert (u = 1 ∨ u = 2 ∨ u = 3 ∨ u = 4 ∨ u = 5)%Z as Hus by lia.
    destruct Hvs as [->|[->|[->|[->| ->]]]];
      destruct Hus as [->|[->|[->|[->| ->]]]]; by vm_compute. }
  rewrite Hr, Hi. split; [done|].
  rewrite calculatePriority_unfold. unfold Math_round.
  rewrite (fresh_floor now v u t Hfresh), inject_Z_mult.
  change (inject_Z 100) with 100%Q. field.
Qed.

(** ** The category tables *)

Lemma table_score (table : list (string * Q)) (name : string) :
  Forall (λ entry, ∃ n : Z, (1 <= n <= 5)%Z ∧ entry.2 = inject_Z n) table →
  (∃ n : Z, (1 <= n <= 5)%Z ∧
            or_1 (get_property table (toLowerCase name)) = Number (inject_Z n)) ∨
  ((toLowerCase name = "constructor" ∨ toLowerCase name = "__proto__") ∧
   or_1 (get_property table (toLowerCase name)) = Inherited (toLowerCase name)).
Proof.
  intros Htable. unfold get_property.
  destruct (list_find _ table) as [[k [key n]]|] eqn:Hfind.
  - left. apply list_find_Some in Hfind as (Hk & _ & _).
    rewrite Forall_forall in Htable.
    destruct (Htable (key, n)) as (z & Hz & Hn).
    { apply list_elem_of_lookup. eauto. }
    simpl in Hn. subst n. exists z. split; [done|]. simpl.
    destruct (Qeq_bool (inject_Z z) 0) eqn:E; [|done].
    apply Qeq_bool_iff in E. unfold Qeq in E. simpl in E. lia.
  - case_decide as Hin.
    + right. split; [by apply lowered_inherited_name|done].
    + left. exists 1%Z. split; [lia|done].
Qed.

(** X18: [getVulnerabilityScore] and [getMedicalUrgencyScore] return a whole
    number from 1 to 5 for every name, except a name that lowers to
    [constructor] or [__proto__]: for these they return the member of
    [Object.prototype] of that name, which is not a number. *)
Theorem category_scores_in_range (name : string) :
  ((∃ n : Z, (1 <= n <= 5)%Z ∧ getVulnerabilityScore name = Number (inject_Z n)) ∨
   ((toLowerCase name = "constructor" ∨ toLowerCase name = "__proto__") ∧
    getVulnerabilityScore name = Inherited (toLowerCase name))) ∧
  ((∃ n : Z, (1 <= n <= 5)%Z ∧ getMedicalUrgencyScore name = Number (inject_Z n)) ∨
   ((toLowerCase name = "constructor" ∨ toLowerCase name = "__proto__") ∧
    getMedicalUrgencyScore name = Inherited (toLowerCase name))).
Proof.
  split; apply table_score; unfold VULNERABILITY_SCORES, MEDICAL_URGENCY_SCORES;
    repeat constructor; simpl.
  all: first [by exists 5%Z | by exists 4%Z | by exists 3%Z | by exists 2%Z
             | by exists 1%Z].
Qed.

(** X19: for a category and an aid type that are keys of the tables (what
    the request route lets through), scored less than three seconds after
    creation, [calculateFullPriority] returns whole-number scores from 1 to
    5 and the priority [vulnerability*5 + urgency*10], from 15 to 75. *)
Theorem calculateFullPriority_accepted (now : Z) (category aidType : string) (t : Z) :
  category ∈ Object_keys VULNERABILITY_SCORES →
  aidType ∈ Object_keys MEDICAL_URGENCY_SCORES →
  (now - t < 3000)%Z →
  ∃ (v u : Z) (p : Q),
    (1 <= v <= 5)%Z ∧ (1 <= u <= 5)%Z ∧
    calculateFullPriority now category aidType t =
      {| fp_vulnerabilityScore := Number (inject_Z v);
         fp_medicalUrgencyScore := Number (inject_Z u);
         fp_priorityScore := Some p |} ∧
    (p == inject_Z (v * 5 + u * 10))%Q ∧ (15 <= p <= 75)%Q.
Proof.
  intros Hc Ha Hfresh.
  assert (∃ v : Z, (1 <= v <= 5)%Z ∧ getVulnerabilityScore category = Number (inject_Z v))
    as (v & Hv & Ev).
  { unfold Object_keys, VULNERABILITY_SCORES in Hc. simpl in Hc.
    repeat (apply elem_of_cons in Hc as [->|Hc];
            [first [by exists 5%Z | by exists 4%Z | by exists 3%Z | by exists 1%Z]|]).
    by apply elem_of_nil in Hc. }
  assert (∃ u : Z, (1 <= u <= 5)%Z ∧ getMedicalUrgencyScore aidType = Number (inject_Z u))
    as (u & Hu & Eu).
  { unfold Object_keys, MEDICAL_URGENCY_SCORES in Ha. simpl in Ha.
    repeat (apply elem_of_cons in Ha as [->|Ha];
            [first [by exists 5%Z | by exists 4%Z | by exists 3%Z | by exists 2%Z
                   | by exists 1%Z]|]).
    by apply elem_of_nil in Ha. }
  exists v, u, (calculatePriority now (inject_Z v) (inject_Z u) t).
  split; [done|]. split; [done|].
  split; [unfold calculateFullPriority; by rewrite Ev, Eu|].
  assert (calculatePriority now (inject_Z v) (inject_Z u) t
          == inject_Z (v * 5 + u * 10))%Q as Hp.
  { rewrite calculatePriority_unfold. unfold Math_round.
    rewrite (fresh_floor now v u t Hfresh), inject_Z_mult.
    change (inject_Z 100) with 100%Q. field. }
  split; [done|]. rewrite Hp.
  change 15%Q with (inject_Z 15). change 75%Q with (inject_Z 75).
  rewrite <- !Zle_Qle. lia.
Qed.

Lemma calculateFullPriority_accepted_witness :
  ∃ (v u : Z) (p : Q),
    (1 <= v <= 5)%Z ∧ (1 <= u <= 5)%Z ∧
    calculateFullPriority 1000 "child" "shelter" 0 =
      {| fp_vulnerabilityScore := Number (inject_Z v);
         fp_medicalUrgencyScore := Number (inject_Z u);
         fp_priorityScore := Some p |} ∧
    (p == inject_Z (v * 5 + u * 10))%Q ∧ (15 <= p <= 75)%Q.
Proof.
  apply (calculateFullPriority_accepted 1000 "child" "shelter" 0).
  - apply (bool_decide_unpack _). by vm_compute.
  - apply (bool_decide_unpack _). by vm_compute.
  - lia.
Defined.

(** * Further properties of the class MaxHeap *)

(** X20: on a non-empty [MaxHeap], [extractMax] never returns: [sinkDown]
    reads the undeclared identifier [lenght] and a [ReferenceError] is
    thrown.  [peek] returns [null] and [size] returns [undefined] all the
    same: both read the property [lenght], which an array does not have. *)
Theorem MaxHeap_extractMax_throws (this : MaxHeap.t) :
  MaxHeap.heap this ≠ [] →
  MaxHeap.extractMax this = MaxHeap.ThrowsReferenceError ∧
  MaxHeap.peek this = Null ∧ MaxHeap.size this = None.
Proof.
  intros Hne. split; [|done]. unfold MaxHeap.extractMax.
  destruct (last (MaxHeap.heap this)) as [moved|] eqn:Hlast;
    [|by apply last_None in Hlast].
  done.
Qed.

Lemma MaxHeap_extractMax_throws_witness :
  MaxHeap.extractMax (MaxHeap.mk [request_A; request_B])
    = MaxHeap.ThrowsReferenceError ∧
  MaxHeap.peek (MaxHeap.mk [request_A; request_B]) = Null ∧
  MaxHeap.size (MaxHeap.mk [request_A; request_B]) = None.
Proof.
  apply (MaxHeap_extractMax_throws (MaxHeap.mk [request_A; request_B])).
  discriminate.
Defined.

(** * Further properties of the helpers *)

(** X22: the parent of either child of a position is the position itself,
    and a position has a parent exactly when it is not the root or
    before. *)
Theorem parent_of_children (i : Z) :
  PQ.getParentIndex (PQ.getLeftChildIndex i) = i ∧
  PQ.getParentIndex (PQ.getRightChildIndex i) = i ∧
  (PQ.hasParent i = true ↔ 1 <= i).
Proof.
  split; [index_arith|]. split; [index_arith|].
  unfold PQ.hasParent. rewrite bool_decide_eq_true. split; intros H; index_arith.
Qed.

(** X23: on a queue whose index is exact, [swap] of two different positions
    inside the array followed by [updateMapIndices] exchanges the two
    entries and leaves the index exact. *)
Theorem swap_then_updateMapIndices (q : PQ.t) (i j : Z) :
  index_consistent q → i ≠ j →
  0 <= i < len (PQ.heap q) → 0 <= j < len (PQ.heap q) →
  ∃ q1, PQ.swap q i j = Ret q1 ∧
        at_index (PQ.heap q1) i = at_index (PQ.heap q) j ∧
        at_index (PQ.heap q1) j = at_index (PQ.heap q) i ∧
        index_consistent (PQ.updateMapIndices q1 i j).
Proof.
  intros Hq Hne Hi Hj.
  destruct (swap_Ret q i j Hi Hj) as (q1 & Hswap & _).
  exists q1. split; [done|].
  rewrite !(swap_at_index _ _ _ _ Hswap).
  rewrite decide_False, !decide_True by done.
  split; [done|]. split; [done|].
  by eapply swap_updateMapIndices_consistent.
Qed.

Lemma swap_then_updateMapIndices_witness :
  ∃ q1, PQ.swap example_queue 0 2 = Ret q1 ∧
        at_index (PQ.heap q1) 0 = at_index (PQ.heap example_queue) 2 ∧
        at_index (PQ.heap q1) 2 = at_index (PQ.heap example_queue) 0 ∧
        index_consistent (PQ.updateMapIndices q1 0 2).
Proof.
  apply (swap_then_updateMapIndices example_queue 0 2).
  - exact example_queue_consistent.
  - lia.
  - by vm_compute.
  - by vm_compute.
Defined.

Lemma sinkDown_loop_frame fuel : ∀ q i q',
  0 <= i → PQ.sinkDown_loop fuel q i = Ret q' →
  ∀ k, k < i → at_index (PQ.heap q') k = at_index (PQ.heap q) k.
Proof.
  induction fuel as [|fuel IH]; intros q i q' Hi Hrun k Hk; [done|].
  destruct (decide (PQ.getLeftChildIndex i < len (PQ.heap q))) as [Hleft|Hleft].
  - destruct (sinkDown_loop_step fuel q i) as
      (d & dd & c & Hc & Hd & Hpd & Hdn & Hmax & Heq); [lia|done|].
    rewrite Heq in Hrun.
    destruct (Qle_bool (priorityScore dd) (priorityScore c));
      [by injection Hrun as <-|].
    destruct (PQ.swap q i d) as [q1| |] eqn:Hswap; [|done..].
    simpl in Hrun. assert (i < d) by index_arith.
    rewrite (IH _ d q' ltac:(lia) Hrun k ltac:(lia)).
    rewrite updateMapIndices_heap, (swap_at_index _ _ _ _ Hswap).
    by rewrite !decide_False by lia.
  - rewrite sinkDown_loop_leaf in Hrun by done. by injection Hrun as <-.
Qed.

Lemma bubbleUp_loop_frame fuel : ∀ q i q',
  PQ.bubbleUp_loop fuel q i = Ret q' →
  ∀ k, i < k → at_index (PQ.heap q') k = at_index (PQ.heap q) k.
Proof.
  induction fuel as [|fuel IH]; intros q i q' Hrun k Hk; [done|].
  simpl in Hrun. unfold PQ.hasParent in Hrun.
  case_bool_decide as Hpar; [|by injection Hrun as <-].
  destruct (PQ.parent q i) as [p|]; [|done].
  destruct (at_index (PQ.heap q) i) as [c|]; [|done]. simpl in Hrun.
  destruct (Qltb (priorityScore p) (priorityScore c)); [|by injection Hrun as <-].
  destruct (PQ.swap q (PQ.getParentIndex i) i) as [q1| |] eqn:Hswap; [|done..].
  simpl in Hrun. assert (PQ.getParentIndex i < i) by index_arith.
  rewrite (IH _ _ q' Hrun k ltac:(lia)).
  rewrite updateMapIndices_heap, (swap_at_index _ _ _ _ Hswap).
  by rewrite !decide_False by lia.
Qed.

(** X24: [sinkDown] at a position changes no earlier position of the
    array, and [bubbleUp] at a position changes no later one. *)
Theorem sifts_leave_the_rest (q : PQ.t) (i : Z) :
  0 <= i < len (PQ.heap q) →
  (∃ q', PQ.sinkDown q i = Ret q' ∧
         ∀ k, k < i → at_index (PQ.heap q') k = at_index (PQ.heap q) k) ∧
  (∃ q', PQ.bubbleUp q i = Ret q' ∧
         ∀ k, i < k → at_index (PQ.heap q') k = at_index (PQ.heap q) k).
Proof.
  intros Hi. split.
  - destruct (sinkDown_loop_total (S (length (PQ.heap q))) q i) as (qs & Hs & _);
      [lia|unfold len in *; lia|].
    exists qs. split; [done|].
    apply (sinkDown_loop_frame (S (length (PQ.heap q))) q i qs); [lia|done].
  - destruct (bubbleUp_loop_total (S (Z.to_nat i)) q i) as (qb & Hb & _);
      [lia|lia|].
    exists qb. split; [done|].
    by apply (bubbleUp_loop_frame (S (Z.to_nat i)) q i qb).
Qed.

Lemma sifts_leave_the_rest_witness :
  (∃ q', PQ.sinkDown example_queue 1 = Ret q' ∧
         ∀ k, k < 1 → at_index (PQ.heap q') k = at_index (PQ.heap example_queue) k) ∧
  (∃ q', PQ.bubbleUp example_queue 1 = Ret q' ∧
         ∀ k, 1 < k → at_index (PQ.heap q') k = at_index (PQ.heap example_queue) k).
Proof. apply (sifts_leave_the_rest example_queue 1). by vm_compute. Defined.

(** X25: when an entry has two children, the right one does not beat the
    left one, and the left one beats the entry, [sinkDown] puts the left
    child in the place of the entry: a tie between the children goes to
    the left. *)
Theorem sinkDown_prefers_left (q : PQ.t) (i : Z) (c l r : Entry) :
  0 <= i →
  at_index (PQ.heap q) i = Some c →
  at_index (PQ.heap q) (PQ.getLeftChildIndex i) = Some l →
  at_index (PQ.heap q) (PQ.getRightChildIndex i) = Some r →
  (priorityScore r <= priorityScore l)%Q →
  (priorityScore c < priorityScore l)%Q →
  ∃ q', PQ.sinkDown q i = Ret q' ∧ at_index (PQ.heap q') i = Some l.
Proof.
  intros Hi Hc Hl Hr Hrl Hcl.
  pose proof (at_index_Some _ _ _ Hc) as Hcb.
  pose proof (at_index_Some _ _ _ Hl) as Hlb.
  pose proof (at_index_Some _ _ _ Hr) as Hrb.
  unfold PQ.sinkDown. simpl PQ.sinkDown_loop.
  unfold PQ.hasLeftChild, PQ.hasRightChild, PQ.rightChild, PQ.leftChild.
  rewrite !bool_decide_eq_true_2 by lia.
  rewrite Hr, Hl. cbn [deref mbind outcome_bind].
  apply Qltb_false in Hrl. rewrite Hrl. rewrite Hc, Hl.
  cbn [deref mbind outcome_bind].
  apply Qle_bool_false in Hcl. rewrite Hcl.
  destruct (swap_Ret q i (PQ.getLeftChildIndex i))
    as (q1 & Hswap & _ & Hl1 & _ & _); [lia..|].
  rewrite Hswap. cbn [mbind outcome_bind].
  assert (i < PQ.getLeftChildIndex i) by index_arith.
  destruct (sinkDown_loop_total (length (PQ.heap q))
              (PQ.updateMapIndices q1 i (PQ.getLeftChildIndex i))
              (PQ.getLeftChildIndex i)) as (q' & Hq' & _).
  - lia.
  - rewrite updateMapIndices_heap, Hl1. unfold len in *. lia.
  - exists q'. split; [done|].
    rewrite (sinkDown_loop_frame _ _ (PQ.getLeftChildIndex i) _ ltac:(lia) Hq' i
               ltac:(lia)).
    rewrite updateMapIndices_heap, (swap_at_index _ _ _ _ Hswap).
    by rewrite decide_False, decide_True by lia.
Qed.

Lemma sinkDown_prefers_left_witness :
  ∃ q', PQ.sinkDown
          {| PQ.heap := PQ.rescore 600000 <$> [request_B; request_A; request_A];
             PQ.requestMap := ∅ |} 0
        = Ret q' ∧
        at_index (PQ.heap q') 0 = Some (PQ.rescore 600000 request_A).
Proof.
  apply (sinkDown_prefers_left
           {| PQ.heap := PQ.rescore 600000 <$> [request_B; request_A; request_A];
              PQ.requestMap := ∅ |}
           0 (PQ.rescore 600000 request_B) (PQ.rescore 600000 request_A)
           (PQ.rescore 600000 request_A)).
  - lia.
  - reflexivity.
  - reflexivity.
  - reflexivity.
  - by vm_compute.
  - by vm_compute.
Defined.
